(** * Modern Tetris Web: the game core, embedded and verified

    A shallow embedding of the falling-block engine:
    - [constants.ts]      : board size, piece kinds, the shape catalogue,
                            spawn cell, scoring and speed constants;
    - [Piece.ts]          : a rotation cursor over a catalogue entry;
    - [Board.ts]          : the grid (a [Uint8Array]), collision test,
                            placement, line clearing, hard-drop distance;
    - [PieceGenerator.ts] : the 7-bag supply with its preview queue;
    - [Store.ts], [EventBus.ts], [GameActions.ts] : the action layer;
    - [GameController.ts], [GameLoop.ts], [InputHandler.ts] : the pause
                            toggles, the render step and the keyboard;
    - [Matrix.ts]         : rotation and bounding box of a 2D array.

    Numbers are [Z]; the grid is a [list Z] read and written by index, with
    the typed array's wrap-around modulo 256 written out; the store, the
    event channel, the generator, [Math.random] and [Date.now] are threaded
    through an explicit [World]. *)

From Stdlib Require Import ZArith List Bool Lia Permutation.
From stdpp Require Import base numbers list strings sorting.

Local Open Scope Z_scope.

(* ================================================================== *)
(** * constants.ts *)
(* ================================================================== *)

Definition BOARD_WIDTH : Z := 12.
Definition BOARD_HEIGHT : Z := 20.

(** [enum PieceType { I = 'I', O = 'O', T = 'T', S = 'S', Z = 'Z', J = 'J',
    L = 'L' }], kept in a name space of its own as in the source. *)
Module PieceType.
Inductive t : Type := I | O | T | S | Z | J | L.
End PieceType.

#[global] Instance PieceType_eq_dec : EqDecision PieceType.t.
Proof. solve_decision. Defined.

(** [Object.values(PieceType)], in declaration order. *)
Definition PieceType_values : list PieceType.t :=
  [PieceType.I; PieceType.O; PieceType.T; PieceType.S; PieceType.Z;
   PieceType.J; PieceType.L].

(** [type.charCodeAt(0)]: the code unit of the kind's one-letter name. *)
Definition charCodeAt0 (t : PieceType.t) : Z :=
  match t with
  | PieceType.I => 73 | PieceType.O => 79 | PieceType.T => 84
  | PieceType.S => 83 | PieceType.Z => 90 | PieceType.J => 74
  | PieceType.L => 76
  end.

(** A shape is a [number[][]]; the catalogue has four per kind. *)
Definition Shape : Type := list (list Z).

Definition PIECE_SHAPES (t : PieceType.t) : list Shape :=
  match t with
  | PieceType.I =>
    [ [[0;0;0;0]; [1;1;1;1]; [0;0;0;0]; [0;0;0;0]];
      [[0;0;1;0]; [0;0;1;0]; [0;0;1;0]; [0;0;1;0]];
      [[0;0;0;0]; [0;0;0;0]; [1;1;1;1]; [0;0;0;0]];
      [[0;1;0;0]; [0;1;0;0]; [0;1;0;0]; [0;1;0;0]] ]
  | PieceType.O =>
    [ [[0;0;0;0]; [0;1;1;0]; [0;1;1;0]; [0;0;0;0]];
      [[0;0;0;0]; [0;1;1;0]; [0;1;1;0]; [0;0;0;0]];
      [[0;0;0;0]; [0;1;1;0]; [0;1;1;0]; [0;0;0;0]];
      [[0;0;0;0]; [0;1;1;0]; [0;1;1;0]; [0;0;0;0]] ]
  | PieceType.T =>
    [ [[0;0;0;0]; [0;1;0;0]; [1;1;1;0]; [0;0;0;0]];
      [[0;0;0;0]; [0;1;0;0]; [0;1;1;0]; [0;1;0;0]];
      [[0;0;0;0]; [0;0;0;0]; [1;1;1;0]; [0;1;0;0]];
      [[0;0;0;0]; [0;1;0;0]; [1;1;0;0]; [0;1;0;0]] ]
  | PieceType.S =>
    [ [[0;0;0;0]; [0;1;1;0]; [1;1;0;0]; [0;0;0;0]];
      [[0;0;0;0]; [0;1;0;0]; [0;1;1;0]; [0;0;1;0]];
      [[0;0;0;0]; [0;0;0;0]; [0;1;1;0]; [1;1;0;0]];
      [[0;0;0;0]; [1;0;0;0]; [1;1;0;0]; [0;1;0;0]] ]
  | PieceType.Z =>
    [ [[0;0;0;0]; [1;1;0;0]; [0;1;1;0]; [0;0;0;0]];
      [[0;0;0;0]; [0;0;1;0]; [0;1;1;0]; [0;1;0;0]];
      [[0;0;0;0]; [0;0;0;0]; [1;1;0;0]; [0;1;1;0]];
      [[0;0;0;0]; [0;1;0;0]; [1;1;0;0]; [1;0;0;0]] ]
  | PieceType.J =>
    [ [[0;0;0;0]; [1;0;0;0]; [1;1;1;0]; [0;0;0;0]];
      [[0;0;0;0]; [0;1;1;0]; [0;1;0;0]; [0;1;0;0]];
      [[0;0;0;0]; [0;0;0;0]; [1;1;1;0]; [0;0;1;0]];
      [[0;0;0;0]; [0;1;0;0]; [0;1;0;0]; [1;1;0;0]] ]
  | PieceType.L =>
    [ [[0;0;0;0]; [0;0;1;0]; [1;1;1;0]; [0;0;0;0]];
      [[0;0;0;0]; [0;1;0;0]; [0;1;0;0]; [0;1;1;0]];
      [[0;0;0;0]; [0;0;0;0]; [1;1;1;0]; [1;0;0;0]];
      [[0;0;0;0]; [1;1;0;0]; [0;1;0;0]; [0;1;0;0]] ]
  end.

(** [Math.floor(BOARD_WIDTH / 2) - 2] *)
Definition SPAWN_X : Z := BOARD_WIDTH / 2 - 2.
Definition SPAWN_Y : Z := 0.

(** A JavaScript number as the score uses it: an integer, or [NaN] once an
    absent table entry ([undefined]) has entered the arithmetic. *)
Inductive number : Type := Int (z : Z) | NaN.

Definition num_add (a b : number) : number :=
  match a, b with
  | Int x, Int y => Int (x + y)
  | _, _ => NaN
  end.

(** [SCORE_VALUES[lines]]: the record has the keys 0..4 and nothing else;
    [None] is JavaScript's [undefined]. *)
Definition SCORE_VALUES (lines : Z) : option Z :=
  if lines =? 0 then Some 0
  else if lines =? 1 then Some 100
  else if lines =? 2 then Some 300
  else if lines =? 3 then Some 500
  else if lines =? 4 then Some 800
  else None.

Definition SOFT_DROP_SCORE : Z := 1.
Definition HARD_DROP_SCORE : Z := 2.
Definition LINES_PER_LEVEL : Z := 10.
Definition INITIAL_DROP_INTERVAL : Z := 1000.
Definition MIN_DROP_INTERVAL : Z := 100.
Definition DROP_INTERVAL_DECREASE : Z := 50.

(* ================================================================== *)
(** * Piece.ts *)
(* ================================================================== *)

(** The class keeps [type] (read-only) and [rotation]; [shapes] is
    [PIECE_SHAPES[type]] and is looked up, never stored apart.  Pieces are
    modelled by value: the falling piece is shifted out of the preview queue
    before it is stored, and the held piece is always a fresh [new Piece],
    so no two live fields of the state share a piece object. *)
Record Piece : Type := mkPiece { ptype : PieceType.t; rotation : Z }.

#[global] Instance Piece_eq_dec : EqDecision Piece.
Proof. solve_decision. Defined.

(** [new Piece(type)] *)
Definition newPiece (t : PieceType.t) : Piece := mkPiece t 0.

(** [getShape()]: [this.shapes[this.rotation]].  The rotation index stays
    in 0..3 (see [rotatePiece]); outside the array JavaScript would give
    [undefined], rendered here as the empty shape. *)
Definition getShape (p : Piece) : Shape :=
  default [] (PIECE_SHAPES (ptype p) !! Z.to_nat (rotation p)).

Inductive RotationDirection : Type := clockwise | counterclockwise.

(** [rotate(direction)].  JavaScript's [%] is the remainder of the
    truncated division: it keeps the sign of the dividend ([Z.rem]). *)
Definition rotatePiece (direction : RotationDirection) (p : Piece) : Piece :=
  match direction with
  | clockwise => mkPiece (ptype p) (Z.rem (rotation p + 1) 4)
  | counterclockwise => mkPiece (ptype p) (Z.rem (rotation p + 3) 4)
  end.

(** [clone()] *)
Definition clonePiece (p : Piece) : Piece := mkPiece (ptype p) (rotation p).

(* ================================================================== *)
(** * Board.ts *)
(* ================================================================== *)

Record Board : Type := mkBoard { grid : list Z; width : Z; height : Z }.

(** [new Board(width, height)]: a zero-filled [Uint8Array(width * height)]. *)
Definition newBoard (w h : Z) : Board :=
  mkBoard (replicate (Z.to_nat (w * h)) 0) w h.

Definition getIndex (b : Board) (x y : Z) : Z := y * width b + x.

(** [getCell(x, y)].  The array has [width * height] bytes, so the index of
    a cell inside the board is inside the array; past its end JavaScript
    would read [undefined], rendered here as 0. *)
Definition getCell (b : Board) (x y : Z) : Z :=
  if (x <? 0) || (x >=? width b) || (y <? 0) || (y >=? height b) then 0
  else default 0 (grid b !! Z.to_nat (getIndex b x y)).

(** [setCell(x, y, value)]: a [Uint8Array] stores [value] modulo 256, and a
    write past its end is dropped (as the list update is). *)
Definition setCell (b : Board) (x y value : Z) : Board :=
  if (x >=? 0) && (x <? width b) && (y >=? 0) && (y <? height b)
  then mkBoard (<[Z.to_nat (getIndex b x y) := value mod 256]> (grid b))
               (width b) (height b)
  else b.

(** The inner [for (col ...)] loop of [isValidPosition], from column [col]
    on; [false] is the early [return false]. *)
Fixpoint validCols (b : Board) (x boardY col : Z) (cells : list Z) : bool :=
  match cells with
  | [] => true
  | c :: cells' =>
      if negb (c =? 0) then
        let boardX := x + col in
        if (boardX <? 0) || (boardX >=? width b) || (boardY >=? height b)
        then false
        else if (boardY >=? 0) && negb (getCell b boardX boardY =? 0)
        then false
        else validCols b x boardY (col + 1) cells'
      else validCols b x boardY (col + 1) cells'
  end.

(** The outer [for (row ...)] loop. *)
Fixpoint validRows (b : Board) (x y row : Z) (rows : Shape) : bool :=
  match rows with
  | [] => true
  | r :: rows' =>
      if validCols b x (y + row) 0 r
      then validRows b x y (row + 1) rows'
      else false
  end.

(** [isValidPosition(piece, x, y)] *)
Definition isValidPosition (b : Board) (piece : Piece) (x y : Z) : bool :=
  validRows b x y 0 (getShape piece).

(** The loops of [placePiece]. *)
Fixpoint placeCols (tag : Z) (x boardY col : Z) (cells : list Z) (b : Board)
  : Board :=
  match cells with
  | [] => b
  | c :: cells' =>
      let b' :=
        if negb (c =? 0) then
          if boardY >=? 0 then setCell b (x + col) boardY tag else b
        else b in
      placeCols tag x boardY (col + 1) cells' b'
  end.

Fixpoint placeRows (tag : Z) (x y row : Z) (rows : Shape) (b : Board)
  : Board :=
  match rows with
  | [] => b
  | r :: rows' =>
      placeRows tag x y (row + 1) rows' (placeCols tag x (y + row) 0 r b)
  end.

(** [placePiece(piece, x, y)] *)
Definition placePiece (b : Board) (piece : Piece) (x y : Z) : Board :=
  placeRows (charCodeAt0 (ptype piece)) x y 0 (getShape piece) b.

(** [clearLines()], first loop: is row [y] filled?  ([break] on the first
    zero cell.) *)
Definition isFilled (b : Board) (y : Z) : bool :=
  forallb (fun x => negb (getCell b x y =? 0)) (seqZ 0 (width b)).

(** The rows pushed onto [linesToClear], in increasing order. *)
Definition linesToClear (b : Board) : list Z :=
  filter (fun y => isFilled b y = true) (seqZ 0 (height b)).

(** [for (x ...) this.setCell(x, y, this.getCell(x, y - 1))] *)
Definition copyRowDown (b : Board) (y : Z) : Board :=
  foldl (fun b' x => setCell b' x y (getCell b' x (y - 1))) b
        (seqZ 0 (width b)).

(** [for (x ...) this.setCell(x, 0, 0)] *)
Definition clearTopRow (b : Board) : Board :=
  foldl (fun b' x => setCell b' x 0 0) b (seqZ 0 (width b)).

(** The body run for one [lineY]: rows [lineY], [lineY - 1], ..., 1 each
    take the row above, then row 0 is zeroed. *)
Definition clearLine (b : Board) (lineY : Z) : Board :=
  clearTopRow (foldl copyRowDown b (reverse (seqZ 1 lineY))).

(** [clearLines()]: the board after, and the count returned. *)
Definition clearLines (b : Board) : Board * Z :=
  let lines := linesToClear b in
  (foldl clearLine b (reverse lines), Z.of_nat (length lines)).

(** [clear()]: [this.grid.fill(0)] *)
Definition clearBoard (b : Board) : Board :=
  mkBoard (replicate (length (grid b)) 0) (width b) (height b).

(** The [while] loop of [getHardDropDistance].  [fuel] bounds the number of
    iterations; [getHardDropDistance_stops] below shows that the bound
    chosen in [getHardDropDistance] is never the reason the loop ends for a
    catalogue piece. *)
Fixpoint dropLoop (fuel : nat) (b : Board) (piece : Piece) (x y distance : Z)
  : Z :=
  match fuel with
  | O => distance
  | S fuel' =>
      if isValidPosition b piece x (y + distance + 1)
      then dropLoop fuel' b piece x y (distance + 1)
      else distance
  end.

(** [getHardDropDistance(piece, x, y)] *)
Definition getHardDropDistance (b : Board) (piece : Piece) (x y : Z) : Z :=
  dropLoop (Z.to_nat (height b - y)) b piece x y 0.

(* ================================================================== *)
(** * Math.random and PieceGenerator.ts *)
(* ================================================================== *)

(** [Math.random] is an oracle: a tape of outcomes and the number of calls
    made so far.  The only use in the source is
    [Math.floor(Math.random() * n)], an integer in [0, n); the oracle's
    entry is reduced modulo [n], so every such integer can come out and
    nothing else. *)
Record Random : Type := mkRandom { tape : nat -> nat; calls : nat }.

Definition randomBelow (n : nat) (r : Random) : nat * Random :=
  ((tape r (calls r) mod n)%nat, mkRandom (tape r) (S (calls r))).

(** [[a[i], a[j]] = [a[j], a[i]]] *)
Definition swap {A : Type} (a : list A) (i j : nat) : list A :=
  match a !! i, a !! j with
  | Some ai, Some aj => <[j := ai]> (<[i := aj]> a)
  | _, _ => a
  end.

(** The loop [for (let i = shuffled.length - 1; i > 0; i--)] of
    [shuffleArray], entered with index [i]. *)
Fixpoint shuffleLoop {A : Type} (i : nat) (shuffled : list A) (r : Random)
  : list A * Random :=
  match i with
  | O => (shuffled, r)
  | S i' =>
      let '(j, r') := randomBelow (i + 1) r in
      shuffleLoop i' (swap shuffled i j) r'
  end.

(** [shuffleArray(array)] *)
Definition shuffleArray {A : Type} (array : list A) (r : Random)
  : list A * Random :=
  shuffleLoop (length array - 1) array r.

(** The generator.  The preview queue is kept as its head and its tail:
    [previewCount] is at least 1 (the controller builds
    [new PieceGenerator(1)]), so [shift()] always finds a piece. *)
Record PieceGenerator : Type := mkGenerator {
  bag : list PieceType.t;
  previewHead : Piece;
  previewTail : list Piece
}.

(** [getPreview()]: a copy of the queue. *)
Definition getPreview (g : PieceGenerator) : list Piece :=
  previewHead g :: previewTail g.

(** [refillBag()] on the bag alone. *)
Definition refillBag (r : Random) : list PieceType.t * Random :=
  shuffleArray PieceType_values r.

(** [bag.pop()]: the last element and the rest. *)
Definition pop {A : Type} (l : list A) : option A * list A :=
  (last l, removelast l).

(** [generatePiece()]; it touches the bag only.  The bag popped is never
    empty (it was refilled with the seven kinds if it was), so [pop()!] is
    always a kind: the [None] branch is dead code, as [generatePiece_pops]
    proves for every bag and every oracle. *)
Definition generatePiece (bg : list PieceType.t) (r : Random)
  : Piece * list PieceType.t * Random :=
  let '(bg1, r1) :=
    if (length bg =? 0)%nat then refillBag r else (bg, r) in
  match pop bg1 with
  | (Some type, bg2) => (newPiece type, bg2, r1)
  | (None, bg2) => (newPiece PieceType.I, bg2, r1)
  end.

(** [n] successive [generatePiece()] calls: the pieces in the order drawn. *)
Fixpoint generatePieces (n : nat) (bg : list PieceType.t) (r : Random)
  : list Piece * list PieceType.t * Random :=
  match n with
  | O => ([], bg, r)
  | S n' =>
      let '(p, bg1, r1) := generatePiece bg r in
      let '(ps, bg2, r2) := generatePieces n' bg1 r1 in
      (p :: ps, bg2, r2)
  end.

(** [next()]: shift the head out, push a fresh piece at the tail. *)
Definition next (g : PieceGenerator) (r : Random)
  : Piece * PieceGenerator * Random :=
  let piece := previewHead g in
  let '(fresh, bg, r') := generatePiece (bag g) r in
  match previewTail g with
  | [] => (piece, mkGenerator bg fresh [], r')
  | q :: qs => (piece, mkGenerator bg q (qs ++ [fresh]), r')
  end.

(** [reset()]: empty bag and queue, then [previewCount] fresh pieces. *)
Definition resetGenerator (g : PieceGenerator) (r : Random)
  : PieceGenerator * Random :=
  let '(first, bg1, r1) := generatePiece [] r in
  let '(rest, bg2, r2) := generatePieces (length (previewTail g)) bg1 r1 in
  (mkGenerator bg2 first rest, r2).

(** [new PieceGenerator(previewCount)] with [previewCount = 1 + extra]. *)
Definition newPieceGenerator (extra : nat) (r : Random)
  : PieceGenerator * Random :=
  let '(first, bg1, r1) := generatePiece [] r in
  let '(rest, bg2, r2) := generatePieces extra bg1 r1 in
  (mkGenerator bg2 first rest, r2).

(* ================================================================== *)
(** * types.ts, Store.ts, EventBus.ts *)
(* ================================================================== *)

Module GameStatus.
Inductive t : Type := MENU | PLAYING | PAUSED | GAME_OVER.
End GameStatus.

#[global] Instance GameStatus_eq_dec : EqDecision GameStatus.t.
Proof. solve_decision. Defined.

(** The [direction] payload of a piece-move event. *)
Module Direction.
Inductive t : Type := left | right | down.
End Direction.

(** [enum GameEvent], each name with the payload [emit] is given. *)
Module GameEvent.
Inductive t : Type :=
  | GAME_START
  | GAME_PAUSE
  | GAME_RESUME
  | GAME_OVER
  | PIECE_SPAWN (piece : Piece)
  | PIECE_MOVE (direction : Direction.t)
  | PIECE_ROTATE (direction : RotationDirection)
  | PIECE_LOCK (piece : Piece)
  | LINE_CLEARED (linesCleared : Z)
  | LEVEL_UP (newLevel : Z)
  | SCORE_UPDATE (newScore : number)
  | HOLD_PIECE.
End GameEvent.

(** [interface GameState]; [None] is [null]. *)
Record GameState : Type := mkGameState {
  status : GameStatus.t;
  board : Board;
  currentPiece : option Piece;
  currentX : Z;
  currentY : Z;
  holdPiece : option Piece;
  canHold : bool;
  nextPieces : list Piece;
  score : number;
  lines : Z;
  level : Z;
  dropInterval : Z;
  lastDropTime : Z;
  isDirty : bool
}.

(** One key of a [Partial<GameState>] with its value.  ([board] is never a
    key: the board object is mutated in place.) *)
Inductive Field : Type :=
  | status_ (v : GameStatus.t)
  | currentPiece_ (v : option Piece)
  | currentX_ (v : Z)
  | currentY_ (v : Z)
  | holdPiece_ (v : option Piece)
  | canHold_ (v : bool)
  | nextPieces_ (v : list Piece)
  | score_ (v : number)
  | lines_ (v : Z)
  | level_ (v : Z)
  | dropInterval_ (v : Z)
  | lastDropTime_ (v : Z)
  | isDirty_ (v : bool).

Definition assign (s : GameState) (f : Field) : GameState :=
  match f with
  | status_ v =>
      mkGameState v (board s) (currentPiece s) (currentX s) (currentY s)
        (holdPiece s) (canHold s) (nextPieces s) (score s) (lines s)
        (level s) (dropInterval s) (lastDropTime s) (isDirty s)
  | currentPiece_ v =>
      mkGameState (status s) (board s) v (currentX s) (currentY s)
        (holdPiece s) (canHold s) (nextPieces s) (score s) (lines s)
        (level s) (dropInterval s) (lastDropTime s) (isDirty s)
  | currentX_ v =>
      mkGameState (status s) (board s) (currentPiece s) v (currentY s)
        (holdPiece s) (canHold s) (nextPieces s) (score s) (lines s)
        (level s) (dropInterval s) (lastDropTime s) (isDirty s)
  | currentY_ v =>
      mkGameState (status s) (board s) (currentPiece s) (currentX s) v
        (holdPiece s) (canHold s) (nextPieces s) (score s) (lines s)
        (level s) (dropInterval s) (lastDropTime s) (isDirty s)
  | holdPiece_ v =>
      mkGameState (status s) (board s) (currentPiece s) (currentX s)
        (currentY s) v (canHold s) (nextPieces s) (score s) (lines s)
        (level s) (dropInterval s) (lastDropTime s) (isDirty s)
  | canHold_ v =>
      mkGameState (status s) (board s) (currentPiece s) (currentX s)
        (currentY s) (holdPiece s) v (nextPieces s) (score s) (lines s)
        (level s) (dropInterval s) (lastDropTime s) (isDirty s)
  | nextPieces_ v =>
      mkGameState (status s) (board s) (currentPiece s) (currentX s)
        (currentY s) (holdPiece s) (canHold s) v (score s) (lines s)
        (level s) (dropInterval s) (lastDropTime s) (isDirty s)
  | score_ v =>
      mkGameState (status s) (board s) (currentPiece s) (currentX s)
        (currentY s) (holdPiece s) (canHold s) (nextPieces s) v (lines s)
        (level s) (dropInterval s) (lastDropTime s) (isDirty s)
  | lines_ v =>
      mkGameState (status s) (board s) (currentPiece s) (currentX s)
        (currentY s) (holdPiece s) (canHold s) (nextPieces s) (score s) v
        (level s) (dropInterval s) (lastDropTime s) (isDirty s)
  | level_ v =>
      mkGameState (status s) (board s) (currentPiece s) (currentX s)
        (currentY s) (holdPiece s) (canHold s) (nextPieces s) (score s)
        (lines s) v (dropInterval s) (lastDropTime s) (isDirty s)
  | dropInterval_ v =>
      mkGameState (status s) (board s) (currentPiece s) (currentX s)
        (currentY s) (holdPiece s) (canHold s) (nextPieces s) (score s)
        (lines s) (level s) v (lastDropTime s) (isDirty s)
  | lastDropTime_ v =>
      mkGameState (status s) (board s) (currentPiece s) (currentX s)
        (currentY s) (holdPiece s) (canHold s) (nextPieces s) (score s)
        (lines s) (level s) (dropInterval s) v (isDirty s)
  | isDirty_ v =>
      mkGameState (status s) (board s) (currentPiece s) (currentX s)
        (currentY s) (holdPiece s) (canHold s) (nextPieces s) (score s)
        (lines s) (level s) (dropInterval s) (lastDropTime s) v
  end.

(** [{ ...this.state, ...partialState }] *)
Definition merge (s : GameState) (partialState : list Field) : GameState :=
  foldl assign s partialState.

(** Everything the action layer reads or writes:
    - [store]: the state object the [Store] holds;
    - [notifications]: how many times the subscribers were notified, that
      is, how many times the state was replaced;
    - [events]: what the event bus was asked to emit, oldest first;
    - [generator]: the piece supply;
    - [random]: the [Math.random] oracle;
    - [now]: what [Date.now()] returns. *)
Record World : Type := mkWorld {
  store : GameState;
  notifications : nat;
  events : list GameEvent.t;
  generator : PieceGenerator;
  random : Random;
  now : Z
}.

(** [store.getState()] *)
Definition getState (w : World) : GameState := store w.

(** [store.setState(partialState)] *)
Definition setState (partialState : list Field) (w : World) : World :=
  mkWorld (merge (store w) partialState) (S (notifications w)) (events w)
          (generator w) (random w) (now w).

(** [eventBus.emit(event, data)] *)
Definition emit (e : GameEvent.t) (w : World) : World :=
  mkWorld (store w) (notifications w) (events w ++ [e])
          (generator w) (random w) (now w).

(** A method call on [state.board]: the board object changes in place; the
    state is not replaced and nobody is notified. *)
Definition onBoard (f : Board -> Board) (w : World) : World :=
  let s := store w in
  mkWorld
    (mkGameState (status s) (f (board s)) (currentPiece s) (currentX s)
       (currentY s) (holdPiece s) (canHold s) (nextPieces s) (score s)
       (lines s) (level s) (dropInterval s) (lastDropTime s) (isDirty s))
    (notifications w) (events w) (generator w) (random w) (now w).

(** [state.currentPiece!.rotate(direction)]: likewise in place. *)
Definition onCurrentPiece (f : Piece -> Piece) (w : World) : World :=
  let s := store w in
  mkWorld
    (mkGameState (status s) (board s) (f <$> currentPiece s) (currentX s)
       (currentY s) (holdPiece s) (canHold s) (nextPieces s) (score s)
       (lines s) (level s) (dropInterval s) (lastDropTime s) (isDirty s))
    (notifications w) (events w) (generator w) (random w) (now w).

(** [pieceGenerator.next()] followed by [pieceGenerator.getPreview()]. *)
Definition drawNext (w : World) : Piece * list Piece * World :=
  let '(piece, g, r) := next (generator w) (random w) in
  (piece, getPreview g,
   mkWorld (store w) (notifications w) (events w) g r (now w)).

(* ================================================================== *)
(** * GameActions.ts *)
(* ================================================================== *)

(** [canMove(state)] *)
Definition canMove (state : GameState) : bool :=
  bool_decide (status state = GameStatus.PLAYING)
  && bool_decide (currentPiece state <> None).

(** [calculateLineScore(lines, level)]: [SCORE_VALUES[lines] * level];
    [undefined * level] is [NaN]. *)
Definition calculateLineScore (lines level : Z) : number :=
  match SCORE_VALUES lines with
  | Some v => Int (v * level)
  | None => NaN
  end.

(** [calculateDropInterval(level)] *)
Definition calculateDropInterval (level : Z) : Z :=
  let interval :=
    INITIAL_DROP_INTERVAL - (level - 1) * DROP_INTERVAL_DECREASE in
  Z.max interval MIN_DROP_INTERVAL.

(** [gameOver()] *)
Definition gameOver (w : World) : World :=
  emit GameEvent.GAME_OVER
    (setState [status_ GameStatus.GAME_OVER; currentPiece_ None;
               isDirty_ true] w).

(** [spawnNextPiece()] *)
Definition spawnNextPiece (w : World) : World :=
  let state := getState w in
  let '(nextPiece, nextPieces, w1) := drawNext w in
  if negb (isValidPosition (board state) nextPiece SPAWN_X SPAWN_Y)
  then gameOver w1
  else
    emit (GameEvent.PIECE_SPAWN nextPiece)
      (setState [currentPiece_ (Some nextPiece); currentX_ SPAWN_X;
                 currentY_ SPAWN_Y; canHold_ true; nextPieces_ nextPieces;
                 lastDropTime_ (now w1); isDirty_ true] w1).

(** The [if (linesCleared > 0)] block of [lockPiece]; [state] is the
    snapshot taken on entry. *)
Definition scoreLines (state : GameState) (linesCleared : Z) (w : World)
  : World :=
  if linesCleared >? 0 then
    let lineScore := calculateLineScore linesCleared (level state) in
    let newLines := lines state + linesCleared in
    let newLevel := newLines / LINES_PER_LEVEL + 1 in
    let leveledUp := newLevel >? level state in
    let w1 :=
      setState [score_ (num_add (score state) lineScore); lines_ newLines;
                level_ newLevel;
                dropInterval_ (calculateDropInterval newLevel)] w in
    let w2 := emit (GameEvent.LINE_CLEARED linesCleared) w1 in
    let w3 :=
      emit (GameEvent.SCORE_UPDATE (num_add (score state) lineScore)) w2 in
    if leveledUp then emit (GameEvent.LEVEL_UP newLevel) w3 else w3
  else w.

(** [lockPiece()] from the placement to the scoring, that is, all of its
    body but the closing [this.spawnNextPiece()]; [piece] is
    [state.currentPiece]. *)
Definition placeAndScore (w : World) (piece : Piece) : World :=
  let state := getState w in
  let w1 :=
    onBoard (fun b => placePiece b piece (currentX state) (currentY state))
            w in
  let w2 := emit (GameEvent.PIECE_LOCK piece) w1 in
  let linesCleared := snd (clearLines (board (getState w2))) in
  let w3 := onBoard (fun b => fst (clearLines b)) w2 in
  scoreLines state linesCleared w3.

(** [lockPiece()] *)
Definition lockPiece (w : World) : World :=
  match currentPiece (getState w) with
  | None => w
  | Some piece => spawnNextPiece (placeAndScore w piece)
  end.

(** [startGame()] *)
Definition startGame (w : World) : World :=
  let state := getState w in
  if bool_decide (status state = GameStatus.PLAYING) then w
  else
    let '(g, r) := resetGenerator (generator w) (random w) in
    let w1 :=
      mkWorld (store w) (notifications w) (events w) g r (now w) in
    let w2 := onBoard clearBoard w1 in
    let '(firstPiece, nextPieces, w3) := drawNext w2 in
    let w4 :=
      setState [status_ GameStatus.PLAYING; currentPiece_ (Some firstPiece);
                currentX_ SPAWN_X; currentY_ SPAWN_Y; holdPiece_ None;
                canHold_ true; nextPieces_ nextPieces; score_ (Int 0);
                lines_ 0; level_ 1; dropInterval_ INITIAL_DROP_INTERVAL;
                lastDropTime_ (now w3); isDirty_ true] w3 in
    emit (GameEvent.PIECE_SPAWN firstPiece) (emit GameEvent.GAME_START w4).

(** [pause()] *)
Definition pause (w : World) : World :=
  let state := getState w in
  if bool_decide (status state = GameStatus.PLAYING)
  then emit GameEvent.GAME_PAUSE
         (setState [status_ GameStatus.PAUSED; isDirty_ true] w)
  else w.

(** [resume()] *)
Definition resume (w : World) : World :=
  let state := getState w in
  if bool_decide (status state = GameStatus.PAUSED)
  then emit GameEvent.GAME_RESUME
         (setState [status_ GameStatus.PLAYING; lastDropTime_ (now w);
                    isDirty_ true] w)
  else w.

(** [moveLeft()] *)
Definition moveLeft (w : World) : World :=
  let state := getState w in
  if negb (canMove state) then w
  else
    match currentPiece state with
    | None => w
    | Some piece =>
        let newX := currentX state - 1 in
        if isValidPosition (board state) piece newX (currentY state)
        then emit (GameEvent.PIECE_MOVE Direction.left)
               (setState [currentX_ newX; isDirty_ true] w)
        else w
    end.

(** [moveRight()] *)
Definition moveRight (w : World) : World :=
  let state := getState w in
  if negb (canMove state) then w
  else
    match currentPiece state with
    | None => w
    | Some piece =>
        let newX := currentX state + 1 in
        if isValidPosition (board state) piece newX (currentY state)
        then emit (GameEvent.PIECE_MOVE Direction.right)
               (setState [currentX_ newX; isDirty_ true] w)
        else w
    end.

(** [moveDown()]: the value returned and the world after. *)
Definition moveDown (w : World) : bool * World :=
  let state := getState w in
  if negb (canMove state) then (false, w)
  else
    match currentPiece state with
    | None => (false, w)
    | Some piece =>
        let newY := currentY state + 1 in
        if isValidPosition (board state) piece (currentX state) newY
        then (true,
              emit (GameEvent.PIECE_MOVE Direction.down)
                (setState [currentY_ newY; lastDropTime_ (now w);
                           isDirty_ true] w))
        else (false, lockPiece w)
    end.

(** [softDrop()]; [state] is read before [moveDown] runs. *)
Definition softDrop (w : World) : World :=
  let state := getState w in
  if negb (canMove state) then w
  else
    let '(moved, w1) := moveDown w in
    if moved then
      let newScore := num_add (score state) (Int SOFT_DROP_SCORE) in
      emit (GameEvent.SCORE_UPDATE newScore) (setState [score_ newScore] w1)
    else w1.

(** [hardDrop()] *)
Definition hardDrop (w : World) : World :=
  let state := getState w in
  if negb (canMove state) then w
  else
    match currentPiece state with
    | None => w
    | Some piece =>
        let distance :=
          getHardDropDistance (board state) piece (currentX state)
                              (currentY state) in
        let w1 :=
          if distance >? 0 then
            let newY := currentY state + distance in
            let dropScore := distance * HARD_DROP_SCORE in
            emit (GameEvent.SCORE_UPDATE
                    (num_add (score state) (Int dropScore)))
              (setState [currentY_ newY;
                         score_ (num_add (score state) (Int dropScore));
                         isDirty_ true] w)
          else w in
        lockPiece w1
    end.

(** [wallKickOffsets] *)
Definition wallKickOffsets : list (Z * Z) :=
  [(-1, 0); (1, 0); (0, -1); (-2, 0); (2, 0)].

(** The [for (const offset of wallKickOffsets)] loop of [rotate], from the
    offsets still to try; [piece] is the rotated clone. *)
Fixpoint tryWallKicks (state : GameState) (piece : Piece)
    (direction : RotationDirection) (offsets : list (Z * Z)) (w : World)
  : World :=
  match offsets with
  | [] => w
  | (offset_x, offset_y) :: offsets' =>
      let newX := currentX state + offset_x in
      let newY := currentY state + offset_y in
      if isValidPosition (board state) piece newX newY
      then emit (GameEvent.PIECE_ROTATE direction)
             (setState [currentX_ newX; currentY_ newY; isDirty_ true]
                (onCurrentPiece (rotatePiece direction) w))
      else tryWallKicks state piece direction offsets' w
  end.

(** [rotate(direction)] *)
Definition rotate (direction : RotationDirection) (w : World) : World :=
  let state := getState w in
  if negb (canMove state) then w
  else
    match currentPiece state with
    | None => w
    | Some current =>
        let piece := rotatePiece direction (clonePiece current) in
        if isValidPosition (board state) piece (currentX state)
                           (currentY state)
        then emit (GameEvent.PIECE_ROTATE direction)
               (setState [isDirty_ true]
                  (onCurrentPiece (rotatePiece direction) w))
        else tryWallKicks state piece direction wallKickOffsets w
    end.

(** [hold()] *)
Definition hold (w : World) : World :=
  let state := getState w in
  if negb (canMove state) || negb (canHold state) then w
  else
    match currentPiece state with
    | None => w
    | Some current =>
        let w1 :=
          match holdPiece state with
          | None =>
              let '(nextPiece, nextPieces, w0) := drawNext w in
              setState [currentPiece_ (Some nextPiece); currentX_ SPAWN_X;
                        currentY_ SPAWN_Y;
                        holdPiece_ (Some (newPiece (ptype current)));
                        canHold_ false; nextPieces_ nextPieces;
                        isDirty_ true] w0
          | Some held =>
              setState [currentPiece_ (Some (newPiece (ptype held)));
                        currentX_ SPAWN_X; currentY_ SPAWN_Y;
                        holdPiece_ (Some (newPiece (ptype current)));
                        canHold_ false; isDirty_ true] w
          end in
        emit GameEvent.HOLD_PIECE w1
    end.

(* ================================================================== *)
(** * GameController.ts: the world at process start, and runs *)
(* ================================================================== *)

(** The constructor: [new PieceGenerator(1)], then the MENU state over an
    empty board. *)
Definition initialWorld (r : Random) (t : Z) : World :=
  let '(g, r') := newPieceGenerator 0 r in
  mkWorld
    (mkGameState GameStatus.MENU (newBoard BOARD_WIDTH BOARD_HEIGHT) None 0 0
                 None true [] (Int 0) 0 1 INITIAL_DROP_INTERVAL t true)
    0 [] g r' t.

(** The entry points of the action layer ([moveDown] is the one the
    gravity tick calls). *)
Inductive Action : Type :=
  | StartGame | Pause | Resume
  | MoveLeft | MoveRight | MoveDown | SoftDrop | HardDrop
  | Rotate (direction : RotationDirection)
  | Hold.

Definition perform (a : Action) (w : World) : World :=
  match a with
  | StartGame => startGame w
  | Pause => pause w
  | Resume => resume w
  | MoveLeft => moveLeft w
  | MoveRight => moveRight w
  | MoveDown => snd (moveDown w)
  | SoftDrop => softDrop w
  | HardDrop => hardDrop w
  | Rotate direction => rotate direction w
  | Hold => hold w
  end.

(** A sequence of actions, first to last. *)
Definition run (actions : list Action) (w : World) : World :=
  foldl (fun w' a => perform a w') w actions.

(* ================================================================== *)
(** * GameLoop.ts, GameController.ts, InputHandler.ts: pause and render *)
(* ================================================================== *)

(** [GameLoop.render()]: whether [renderCallback] ran, and the world
    after. *)
Definition render (w : World) : bool * World :=
  let state := getState w in
  if isDirty state then (true, setState [isDirty_ false] w) else (false, w).

(** [GameController.pause()] *)
Definition controllerPause (w : World) : World :=
  if bool_decide (status (getState w) = GameStatus.PLAYING)
  then pause w else w.

(** [GameController.resume()]; [gameLoop.reset()], which it calls last,
    restarts the loop's timers and touches nothing the world holds. *)
Definition controllerResume (w : World) : World :=
  if bool_decide (status (getState w) = GameStatus.PAUSED)
  then resume w else w.

(** [GameController.togglePause()] *)
Definition togglePause (w : World) : World :=
  if bool_decide (status (getState w) = GameStatus.PLAYING)
  then controllerPause w
  else if bool_decide (status (getState w) = GameStatus.PAUSED)
  then controllerResume w
  else w.

(** [InputHandler.handlePauseToggle()]: [pause()], then [resume()]. *)
Definition handlePauseToggle (w : World) : World := resume (pause w).

(* ================================================================== *)
(** * InputHandler.ts *)
(* ================================================================== *)

(** [DAS_DELAY], [ARR_INTERVAL] (milliseconds) *)
Definition DAS_DELAY : Z := 170.
Definition ARR_INTERVAL : Z := 50.

(** [enum KeyCode]: the [KeyboardEvent.code] strings. *)
Module KeyCode.
Definition LEFT : string := "ArrowLeft".
Definition RIGHT : string := "ArrowRight".
Definition DOWN : string := "ArrowDown".
Definition UP : string := "ArrowUp".
Definition SPACE : string := "Space".
Definition Z : string := "KeyZ".
Definition X : string := "KeyX".
Definition C : string := "KeyC".
Definition P : string := "KeyP".
Definition ESCAPE : string := "Escape".
Definition A : string := "KeyA".
Definition D : string := "KeyD".
Definition S : string := "KeyS".
Definition W : string := "KeyW".
Definition SHIFT : string := "ShiftLeft".
Definition CTRL : string := "ControlLeft".
End KeyCode.

(** [interface KeyState] *)
Record KeyState : Type := mkKeyState {
  isPressed : bool;
  lastPressTime : Z;
  repeatTime : Z
}.

(** [Map<string, KeyState>]: the entries in insertion order, which is the
    order [forEach] visits them in. *)
Definition KeyStates : Type := list (string * KeyState).

(** [keyStates.get(key)] *)
Fixpoint mapGet (key : string) (m : KeyStates) : option KeyState :=
  match m with
  | [] => None
  | (k, v) :: m' => if String.eqb k key then Some v else mapGet key m'
  end.

(** [keyStates.set(key, value)]: a key already present keeps its place. *)
Fixpoint mapSet (key : string) (value : KeyState) (m : KeyStates)
  : KeyStates :=
  match m with
  | [] => [(key, value)]
  | (k, v) :: m' =>
      if String.eqb k key then (k, value) :: m'
      else (k, v) :: mapSet key value m'
  end.

(** [keyStates.delete(key)] *)
Fixpoint mapDelete (key : string) (m : KeyStates) : KeyStates :=
  match m with
  | [] => []
  | (k, v) :: m' =>
      if String.eqb k key then m' else (k, v) :: mapDelete key m'
  end.

(** [isGameKey(key)] *)
Definition isGameKey (key : string) : bool :=
  let gameKeys :=
    [KeyCode.LEFT; KeyCode.RIGHT; KeyCode.DOWN; KeyCode.UP; KeyCode.SPACE;
     KeyCode.Z; KeyCode.X; KeyCode.C; KeyCode.P; KeyCode.ESCAPE; KeyCode.A;
     KeyCode.D; KeyCode.S; KeyCode.W; KeyCode.SHIFT; KeyCode.CTRL] in
  existsb (String.eqb key) gameKeys.

(** [isFirstPress(key)]; [Date.now()] is [now w]. *)
Definition isFirstPress (key : string) (m : KeyStates) (w : World) : bool :=
  match mapGet key m with
  | None => false
  | Some state => now w <? repeatTime state
  end.

(** [case a: case b: ...]: the [switch] value is one of the labels. *)
Definition oneOf (key : string) (labels : list string) : bool :=
  existsb (String.eqb key) labels.

(** [handleKeyAction(key)] *)
Definition handleKeyAction (key : string) (m : KeyStates) (w : World)
  : World :=
  if oneOf key [KeyCode.LEFT; KeyCode.A] then moveLeft w
  else if oneOf key [KeyCode.RIGHT; KeyCode.D] then moveRight w
  else if oneOf key [KeyCode.DOWN; KeyCode.S] then softDrop w
  else if oneOf key [KeyCode.UP; KeyCode.W; KeyCode.X] then
    if isFirstPress key m w then rotate clockwise w else w
  else if oneOf key [KeyCode.Z; KeyCode.CTRL] then
    if isFirstPress key m w then rotate counterclockwise w else w
  else if oneOf key [KeyCode.SPACE] then
    if isFirstPress key m w then hardDrop w else w
  else if oneOf key [KeyCode.C; KeyCode.SHIFT] then
    if isFirstPress key m w then hold w else w
  else if oneOf key [KeyCode.P; KeyCode.ESCAPE] then
    if isFirstPress key m w then handlePauseToggle w else w
  else w.

(** [handleKeyDown(event)] with [event.code = key]: whether
    [event.preventDefault()] was called, the map and the world after.
    Every [Date.now()] of one handler call reads the same [now w]. *)
Definition handleKeyDown (key : string) (m : KeyStates) (w : World)
  : bool * KeyStates * World :=
  let prevented := isGameKey key in
  let keyState := mapGet key m in
  let now := now w in
  if match keyState with
     | None => true
     | Some state => negb (isPressed state)
     end
  then
    let m' := mapSet key (mkKeyState true now (now + DAS_DELAY)) m in
    (prevented, m', handleKeyAction key m' w)
  else (prevented, m, w).

(** [handleKeyUp(event)] *)
Definition handleKeyUp (key : string) (m : KeyStates) : KeyStates :=
  mapDelete key m.

(** The [forEach] of [update]: [visited] are the entries already seen
    (with their [repeatTime] as left by the visit), [m] those still to
    see; [now] was read on entry. *)
Fixpoint updateLoop (now : Z) (visited m : KeyStates) (w : World)
  : KeyStates * World :=
  match m with
  | [] => (visited, w)
  | (key, state) :: m' =>
      if negb (isPressed state)
      then updateLoop now (visited ++ [(key, state)]) m' w
      else if now >=? repeatTime state then
        let w' := handleKeyAction key (visited ++ (key, state) :: m') w in
        let state' :=
          mkKeyState (isPressed state) (lastPressTime state)
                     (now + ARR_INTERVAL) in
        updateLoop now (visited ++ [(key, state')]) m' w'
      else updateLoop now (visited ++ [(key, state)]) m' w
  end.

(** [update()]; the clock is read once, on entry, and [isFirstPress]
    reads the same value during the call. *)
Definition update (m : KeyStates) (w : World) : KeyStates * World :=
  updateLoop (now w) [] m w.

(** The clock moves on to [t] between two handler calls. *)
Definition atTime (t : Z) (w : World) : World :=
  mkWorld (store w) (notifications w) (events w) (generator w) (random w) t.

(* ================================================================== *)
(** * Piece.ts and PieceGenerator.ts: the remaining methods *)
(* ================================================================== *)

(** [getShapeAfterRotation(direction)]: [this.shapes[nextRotation]], which
    is [undefined] ([None]) when [nextRotation] is negative (the [%] of a
    negative index) or past the end of the array. *)
Definition getShapeAfterRotation
    (direction : RotationDirection) (p : Piece) : option Shape :=
  let nextRotation :=
    match direction with
    | clockwise => Z.rem (rotation p + 1) 4
    | counterclockwise => Z.rem (rotation p + 3) 4
    end in
  if nextRotation <? 0 then None
  else PIECE_SHAPES (ptype p) !! Z.to_nat nextRotation.

(** The loops of [getFilledCells]: the [{ row, col }] objects pushed, in
    the order pushed. *)
Fixpoint filledCols (row col : Z) (cells : list Z) : list (Z * Z) :=
  match cells with
  | [] => []
  | c :: cells' =>
      if negb (c =? 0)
      then (row, col) :: filledCols row (col + 1) cells'
      else filledCols row (col + 1) cells'
  end.

Fixpoint filledRows (row : Z) (rows : Shape) : list (Z * Z) :=
  match rows with
  | [] => []
  | r :: rows' => filledCols row 0 r ++ filledRows (row + 1) rows'
  end.

(** [getFilledCells()] *)
Definition getFilledCells (p : Piece) : list (Z * Z) :=
  filledRows 0 (getShape p).

(** [n] successive [next()] calls: the pieces returned, in order. *)
Fixpoint nextN (n : nat) (g : PieceGenerator) (r : Random)
  : list Piece * PieceGenerator * Random :=
  match n with
  | O => ([], g, r)
  | S n' =>
      let '(p, g1, r1) := next g r in
      let '(ps, g2, r2) := nextN n' g1 r1 in
      (p :: ps, g2, r2)
  end.

(* ================================================================== *)
(** * Matrix.ts *)
(* ================================================================== *)

(** A matrix cell: a number, or [undefined] ([None]), which is what an
    index past the end of a row reads. *)
Abbreviation Cell := (option Z).
Abbreviation Matrix := (list (list Cell)).

(** [matrix[row][col]], for [row < matrix.length]. *)
Definition cellAt (matrix : Matrix) (row col : nat) : Cell :=
  match matrix !! row with
  | Some cells => default None (cells !! col)
  | None => None
  end.

(** [rotateMatrix(matrix)]; [None] is the [TypeError] that reading
    [matrix[0].length] throws on an empty matrix. *)
Definition rotateMatrix (matrix : Matrix) : option Matrix :=
  match matrix with
  | [] => None
  | first :: _ =>
      let rows := length matrix in
      let cols := length first in
      Some ((fun col =>
               (fun row => cellAt matrix row col) <$> reverse (seq 0 rows))
            <$> seq 0 cols)
  end.

(** [rotateMatrixCCW(matrix)]: [rotated[cols - 1 - col]] is filled for
    [col = cols - 1, ..., 0], that is, from index 0 up. *)
Definition rotateMatrixCCW (matrix : Matrix) : option Matrix :=
  match matrix with
  | [] => None
  | first :: _ =>
      let rows := length matrix in
      let cols := length first in
      Some ((fun col => (fun row => cellAt matrix row col) <$> seq 0 rows)
            <$> reverse (seq 0 cols))
  end.

(** [cloneMatrix(matrix)] *)
Definition cloneMatrix (matrix : Matrix) : Matrix :=
  (fun row => row) <$> matrix.

(** [createEmptyMatrix(rows, cols)] *)
Definition createEmptyMatrix (rows cols : nat) : Matrix :=
  replicate rows (replicate cols (Some 0)).

(** [{ minRow, maxRow, minCol, maxCol }] *)
Record BoundingBox : Type := mkBox {
  minRow : Z; maxRow : Z; minCol : Z; maxCol : Z
}.

(** The loops of [getBoundingBox]; [undefined !== 0] holds. *)
Fixpoint boxCols (row col : Z) (cells : list Cell) (box : BoundingBox)
  : BoundingBox :=
  match cells with
  | [] => box
  | c :: cells' =>
      let box' :=
        if bool_decide (c <> Some 0)
        then mkBox (Z.min (minRow box) row) (Z.max (maxRow box) row)
                   (Z.min (minCol box) col) (Z.max (maxCol box) col)
        else box in
      boxCols row (col + 1) cells' box'
  end.

Fixpoint boxRows (row : Z) (rows : Matrix) (box : BoundingBox)
  : BoundingBox :=
  match rows with
  | [] => box
  | cells :: rows' => boxRows (row + 1) rows' (boxCols row 0 cells box)
  end.

(** [getBoundingBox(matrix)]; [None] is the [TypeError] on an empty
    matrix. *)
Definition getBoundingBox (matrix : Matrix) : option BoundingBox :=
  match matrix with
  | [] => None
  | first :: _ =>
      Some (boxRows 0 matrix
              (mkBox (Z.of_nat (length matrix)) (-1)
                     (Z.of_nat (length first)) (-1)))
  end.

(* ================================================================== *)
(** * Vocabulary of the properties *)
(* ================================================================== *)

(** The cell [(row, col)] of a shape is occupied. *)
Definition occupied (shape : Shape) (row col : nat) : Prop :=
  exists cells c,
    shape !! row = Some cells /\ cells !! col = Some c /\ c <> 0.

(** The cell of the board under the shape's cell [(row, col)] is acceptable:
    inside the walls, above the floor, and free unless above the top. *)
Definition cellFits (b : Board) (bx by' : Z) : Prop :=
  0 <= bx < width b /\ by' < height b /\ (0 <= by' -> getCell b bx by' = 0).

(** A piece of the catalogue: its rotation index is one of 0..3, as
    [new Piece] and [rotate] keep it. *)
Definition cataloguePiece (p : Piece) : Prop := 0 <= rotation p < 4.

(** A shape is a 4 x 4 grid with at least one occupied cell. *)
Definition properShape (shape : Shape) : bool :=
  (length shape =? 4)%nat
  && forallb (fun cells => (length cells =? 4)%nat) shape
  && existsb (existsb (fun c => negb (c =? 0))) shape.

(** The board has the size the controller gives it. *)
Definition standardBoard (w : World) : Prop :=
  width (board (getState w)) = BOARD_WIDTH
  /\ height (board (getState w)) = BOARD_HEIGHT.

(** A board as [new Board] allocates it and [setCell] keeps it: an array of
    [width * height] bytes. *)
Definition wellFormedBoard (b : Board) : Prop :=
  0 <= width b /\ 0 <= height b
  /\ length (grid b) = Z.to_nat (width b * height b)
  /\ Forall (fun v => 0 <= v < 256) (grid b).

(** The cell [(cx, cy)] lies on the board and in its array. *)
Definition cellRoomy (cx cy : Z) (b : Board) : Prop :=
  length (grid b) = Z.to_nat (width b * height b)
  /\ 0 <= cx < width b /\ 0 <= cy < height b.

(** ... and holds the byte of [tag]. *)
Definition cellTagged (tag cx cy : Z) (b : Board) : Prop :=
  length (grid b) = Z.to_nat (width b * height b)
  /\ 0 <= cx < width b /\ 0 <= cy < height b
  /\ getCell b cx cy = tag mod 256.

(** [wellFormedBoard], decided. *)
Definition checkWellFormed (b : Board) : bool :=
  (0 <=? width b) && (0 <=? height b)
  && (length (grid b) =? Z.to_nat (width b * height b))%nat
  && forallb (fun v => (0 <=? v) && (v <? 256)) (grid b).

(** The falling piece, if there is one, sits in a valid position. *)
Definition pieceInValidPosition (w : World) : bool :=
  match currentPiece (getState w) with
  | None => true
  | Some piece =>
      isValidPosition (board (getState w)) piece (currentX (getState w))
                      (currentY (getState w))
  end.

(** Row [y] of the board, left to right. *)
Definition boardRow (b : Board) (y : Z) : list Z :=
  map (fun x => getCell b x y) (seqZ 0 (width b)).

Definition isGameOverEvent (e : GameEvent.t) : bool :=
  match e with
  | GameEvent.GAME_OVER => true
  | _ => false
  end.

(** How many game-over events a log holds. *)
Definition gameOverCount (log : list GameEvent.t) : nat :=
  length (filter (fun e => isGameOverEvent e = true) log).

(** Every piece waiting in the supply is as [new Piece] made it. *)
Definition freshSupply (g : PieceGenerator) : Prop :=
  Forall (fun p => rotation p = 0) (getPreview g).

(** What the states the actions build have in common: a piece falls
    exactly when the game is neither in the menu nor over; the falling
    piece has a rotation index in 0..3 and the held piece is unrotated; the
    preview shown during play is the generator's queue; the level and the
    gravity interval are the ones the line total gives; and the supply
    holds fresh pieces. *)
Definition coherent (w : World) : Prop :=
  let s := getState w in
  (currentPiece s = None
   <-> status s = GameStatus.MENU \/ status s = GameStatus.GAME_OVER)
  /\ (forall p, currentPiece s = Some p -> cataloguePiece p)
  /\ (forall p, holdPiece s = Some p -> rotation p = 0)
  /\ (status s = GameStatus.PLAYING \/ status s = GameStatus.PAUSED ->
      nextPieces s = getPreview (generator w))
  /\ 0 <= lines s
  /\ level s = lines s / LINES_PER_LEVEL + 1
  /\ dropInterval s = calculateDropInterval (level s)
  /\ freshSupply (generator w).

(** A cell value the game writes: 0, or the code of a piece letter. *)
Definition pieceCell (v : Z) : Prop :=
  v = 0 \/ exists t : PieceType.t, v = charCodeAt0 t.

(** A well-formed board whose cells are all such values. *)
Definition boardOfPieces (b : Board) : Prop :=
  wellFormedBoard b /\ Forall pieceCell (grid b).

(** An action that can leave a state that is not PLAYING. *)
Definition wakes (a : Action) (s : GameState) : bool :=
  match a with
  | StartGame => true
  | Resume => bool_decide (status s = GameStatus.PAUSED)
  | _ => false
  end.

(** [w'] shows that something was done in [w]: the dirty flag is set, the
    subscribers of the store were notified and the event log grew. *)
Definition advanced (w w' : World) : Prop :=
  isDirty (getState w') = true
  /\ (notifications w < notifications w')%nat
  /\ exists e es, events w' = events w ++ e :: es.

(** The action a key repeats while it is held, if it repeats. *)
Definition repeatedAction (key : string) : option Action :=
  if oneOf key [KeyCode.LEFT; KeyCode.A] then Some MoveLeft
  else if oneOf key [KeyCode.RIGHT; KeyCode.D] then Some MoveRight
  else if oneOf key [KeyCode.DOWN; KeyCode.S] then Some SoftDrop
  else None.

(** What a key does when it goes down. *)
Definition pressed (key : string) (w : World) : World :=
  if oneOf key [KeyCode.LEFT; KeyCode.A] then moveLeft w
  else if oneOf key [KeyCode.RIGHT; KeyCode.D] then moveRight w
  else if oneOf key [KeyCode.DOWN; KeyCode.S] then softDrop w
  else if oneOf key [KeyCode.UP; KeyCode.W; KeyCode.X]
  then rotate clockwise w
  else if oneOf key [KeyCode.Z; KeyCode.CTRL]
  then rotate counterclockwise w
  else if oneOf key [KeyCode.SPACE] then hardDrop w
  else if oneOf key [KeyCode.C; KeyCode.SHIFT] then hold w
  else if oneOf key [KeyCode.P; KeyCode.ESCAPE] then handlePauseToggle w
  else w.

(** An entry of the map is due at [now]. *)
Definition due (now : Z) (entry : string * KeyState) : bool :=
  isPressed (snd entry) && (now >=? repeatTime (snd entry)).

(** The entry after [update] visited it at [now]. *)
Definition visit (now : Z) (entry : string * KeyState) : string * KeyState :=
  if due now entry
  then (fst entry,
        mkKeyState (isPressed (snd entry)) (lastPressTime (snd entry))
                   (now + ARR_INTERVAL))
  else entry.

(** The keys of a map are distinct. *)
Definition distinctKeys (m : KeyStates) : Prop := NoDup (map fst m).

(** A matrix of [rows] rows of [cols] cells each. *)
Definition rectangular (rows cols : nat) (matrix : Matrix) : Prop :=
  length matrix = rows /\ Forall (fun cells => length cells = cols) matrix.

(** The cell at [(row, col)] exists and is not 0. *)
Definition nonZeroAt (matrix : Matrix) (row col : nat) : Prop :=
  exists cells x,
    matrix !! row = Some cells /\ cells !! col = Some x /\ x <> Some 0.

(** The cell [(row, col)] lies in the box. *)
Definition inBox (box : BoundingBox) (row col : Z) : Prop :=
  minRow box <= row <= maxRow box /\ minCol box <= col <= maxCol box.

(** Each side of [box] is where it was in [box0] or touches a cell that
    satisfies [P]. *)
Definition tightOn (P : Z -> Z -> Prop) (box0 box : BoundingBox) : Prop :=
  (minRow box = minRow box0 \/ exists c, P (minRow box) c)
  /\ (maxRow box = maxRow box0 \/ exists c, P (maxRow box) c)
  /\ (minCol box = minCol box0 \/ exists r, P r (minCol box))
  /\ (maxCol box = maxCol box0 \/ exists r, P r (maxCol box)).

(** [box] is [box0] grown. *)
Definition grownFrom (box0 box : BoundingBox) : Prop :=
  minRow box <= minRow box0 /\ maxRow box0 <= maxRow box
  /\ minCol box <= minCol box0 /\ maxCol box0 <= maxCol box.

(** Performing [a] in [w] ends a piece's life: a lock (followed by the
    spawn sequence) or a new game. *)
Definition endsPiece (a : Action) (w : World) : bool :=
  let state := getState w in
  match a with
  | StartGame => negb (bool_decide (status state = GameStatus.PLAYING))
  | MoveDown | SoftDrop =>
      canMove state
      && match currentPiece state with
         | Some piece =>
             negb (isValidPosition (board state) piece (currentX state)
                                   (currentY state + 1))
         | None => false
         end
  | HardDrop => canMove state
  | _ => false
  end.

(** No action of the sequence, run from [w], ends the piece's life. *)
Fixpoint samePiece (actions : list Action) (w : World) : bool :=
  match actions with
  | [] => true
  | a :: actions' => negb (endsPiece a w) && samePiece actions' (perform a w)
  end.

(* ================================================================== *)
(** * Concrete boards and games *)
(* ================================================================== *)

(** Row [y] filled with [tag], by [setCell]. *)
Definition fillRow (y tag : Z) (b : Board) : Board :=
  foldl (fun b' x => setCell b' x y tag) b (seqZ 0 (width b)).

(** A 12 x 20 board: rows 19 and 18 full, row 17 with the three cells of a
    T piece's bar, everything above empty. *)
Definition twoFullRows : Board :=
  setCell (setCell (setCell
    (fillRow 18 79 (fillRow 19 73 (newBoard BOARD_WIDTH BOARD_HEIGHT)))
    3 17 84) 4 17 84) 5 17 84.

(** A 12 x 20 board: row 19 full, one cell of row 18 set. *)
Definition oneFullRow : Board :=
  fillRow 19 73 (setCell (newBoard BOARD_WIDTH BOARD_HEIGHT) 3 18 84).

(** A 12 x 20 board whose bottom row lacks only the columns 4 to 7. *)
Definition almostFullRow : Board :=
  foldl (fun b' x => setCell b' x 19 79)
        (newBoard BOARD_WIDTH BOARD_HEIGHT) [0; 1; 2; 3; 8; 9; 10; 11].

(** An oracle that answers from a finite tape, then 0 for ever. *)
Definition tapeOf (l : list nat) : Random :=
  mkRandom (fun n => nth n l O) O.

(** The oracle of a game in which the stack under the spawn cell reaches
    row 2 just as an I piece spawns with a J piece next in the queue.  The
    first six answers go to the shuffle the constructor makes; the next six
    shuffle the bag of [startGame] into Z J S O I T L (popped from the
    end: L T I O S J Z), the last six shuffle the bag after it into
    L O J I T Z S (popped: S Z T I J O L). *)
Definition towerTape : Random :=
  tapeOf [0; 0; 0; 0; 0; 0;  6; 2; 0; 1; 1; 1;  3; 4; 2; 0; 2; 1]%nat.

(** A game just started: an I piece at the spawn cell of an empty board. *)
Definition startedWorld : World := startGame (initialWorld (tapeOf []) 0).

(** A game just started (the first piece is an I), the board replaced by
    [almostFullRow] and the piece lowered onto the gap. *)
Definition oneLineWorld : World :=
  setState [currentY_ 18]
    (onBoard (fun _ => almostFullRow)
       (startGame (initialWorld (tapeOf []) 0))).

(** A game just started, its I piece turned upright and moved against the
    right wall (x = 9, the piece in column 11). *)
Definition kickWorld : World :=
  run (StartGame :: Rotate clockwise :: replicate 5 MoveRight)
      (initialWorld (tapeOf []) 0).

(** A game paused after its first piece was dropped (score 36). *)
Definition pausedWorld : World :=
  run [StartGame; HardDrop; Pause] (initialWorld (tapeOf []) 0).

(** A 12 x 20 board: row 19 full, rows 15 to 18 lacking column 6 only. *)
Definition fiveRowsBoard : Board :=
  foldl (fun b y =>
           foldl (fun b' x => setCell b' x y 79) b
                 [0; 1; 2; 3; 4; 5; 7; 8; 9; 10; 11])
        (fillRow 19 73 (newBoard BOARD_WIDTH BOARD_HEIGHT))
        [15; 16; 17; 18].

(** A game just started, the board replaced by [fiveRowsBoard] and the I
    piece, upright, lowered into the gap. *)
Definition fiveLineWorld : World :=
  setState [currentPiece_ (Some (mkPiece PieceType.I 1)); currentY_ 15]
    (onBoard (fun _ => fiveRowsBoard) startedWorld).

(** A game in which the first piece is held, then paused and started
    anew: no piece locks in it. *)
Definition heldWorld : World := hold (startGame (initialWorld (tapeOf []) 0)).

Definition restartedWorld : World := run [Pause; StartGame] heldWorld.

(** The first seven draws of a process that starts a game: the one the
    constructor makes (from a bag it has just refilled), then, after the
    [reset()] of [startGame] has emptied the bag, the one [reset()] makes
    and five more through [next()]. *)
Definition restartWindow : list Piece :=
  let '(g0, r0) := newPieceGenerator 0 (tapeOf []) in
  let '(g1, r1) := resetGenerator g0 r0 in
  let '(handed, g2, r2) := nextN 5 g1 r1 in
  previewHead g0 :: handed ++ getPreview g2.

(** Start, then drop ten pieces straight down from the spawn cell. *)
Definition towerActions : list Action :=
  StartGame :: replicate 10 HardDrop.

(** The game of [towerTape] after [towerActions]. *)
Definition towerWorld : World := run towerActions (initialWorld towerTape 0).

(* ================================================================== *)
(** * The guard of the piece-mutating actions *)
(* ================================================================== *)

Lemma canMove_false (state : GameState) :
  status state <> GameStatus.PLAYING \/ currentPiece state = None ->
  canMove state = false.
Proof.
  intros [Hs | Hp]; unfold canMove.
  - rewrite bool_decide_eq_false_2 by assumption. reflexivity.
  - rewrite (bool_decide_eq_false_2 (currentPiece state <> None)).
    + apply andb_false_r.
    + intros Hne. apply Hne, Hp.
Qed.

Lemma canMove_true (state : GameState) :
  canMove state = true ->
  status state = GameStatus.PLAYING
  /\ exists piece, currentPiece state = Some piece.
Proof.
  unfold canMove. intros H. apply andb_true_iff in H as [Hs Hp].
  apply bool_decide_eq_true_1 in Hs. apply bool_decide_eq_true_1 in Hp.
  split; [assumption |].
  destruct (currentPiece state) as [piece |]; [eauto | congruence].
Qed.

(** C1. In a state whose status is not PLAYING, or whose current piece is
    null, every piece-mutating action returns the world it was given: the
    state object is the same (no [setState], so no notification and the
    dirty flag as it was), the event log is the same, and neither the piece
    supply nor the random oracle was touched.  [moveDown] answers [false]. *)
Theorem C1_guarded_actions_are_noops
    (w : World) (direction : RotationDirection) :
  status (getState w) <> GameStatus.PLAYING
  \/ currentPiece (getState w) = None ->
  moveLeft w = w /\ moveRight w = w /\ moveDown w = (false, w)
  /\ softDrop w = w /\ hardDrop w = w /\ rotate direction w = w
  /\ hold w = w.
Proof.
  intros Hguard. apply canMove_false in Hguard.
  unfold moveLeft, moveRight, moveDown, softDrop, hardDrop, rotate, hold.
  rewrite Hguard. simpl. repeat split; reflexivity.
Qed.

(** C1 at work: the paused game after the first piece has spawned. *)
Lemma C1_guarded_actions_witness :
  let w := pause (startGame (initialWorld (mkRandom (fun _ => O) O) 0)) in
  moveLeft w = w /\ moveRight w = w /\ moveDown w = (false, w)
  /\ softDrop w = w /\ hardDrop w = w /\ rotate clockwise w = w
  /\ hold w = w.
Proof.
  intros w. apply (C1_guarded_actions_are_noops w clockwise).
  left. vm_compute. discriminate.
Defined.

(* ================================================================== *)
(** * Board: cell access *)
(* ================================================================== *)

Section BoardAccess.

Variable b : Board.

Lemma inBounds_dec (x y : Z) :
  (x >=? 0) && (x <? width b) && (y >=? 0) && (y <? height b) = true
  <-> (0 <= x < width b /\ 0 <= y < height b).
Proof. rewrite !andb_true_iff. lia. Qed.

Lemma outOfBounds_dec (x y : Z) :
  (x <? 0) || (x >=? width b) || (y <? 0) || (y >=? height b) = false
  <-> (0 <= x < width b /\ 0 <= y < height b).
Proof. rewrite !orb_false_iff. lia. Qed.

Lemma getCell_outside (x y : Z) :
  ~ (0 <= x < width b /\ 0 <= y < height b) -> getCell b x y = 0.
Proof.
  intros Hout. unfold getCell.
  destruct ((x <? 0) || (x >=? width b) || (y <? 0) || (y >=? height b))
    eqn:E; [reflexivity |].
  apply outOfBounds_dec in E. contradiction.
Qed.

Lemma setCell_outside (x y v : Z) :
  ~ (0 <= x < width b /\ 0 <= y < height b) -> setCell b x y v = b.
Proof.
  intros Hout. unfold setCell.
  destruct ((x >=? 0) && (x <? width b) && (y >=? 0) && (y <? height b))
    eqn:E; [| reflexivity].
  apply inBounds_dec in E. contradiction.
Qed.

Lemma setCell_width (x y v : Z) : width (setCell b x y v) = width b.
Proof. unfold setCell. destruct (_ && _); reflexivity. Qed.

Lemma setCell_height (x y v : Z) : height (setCell b x y v) = height b.
Proof. unfold setCell. destruct (_ && _); reflexivity. Qed.

Lemma setCell_length (x y v : Z) :
  length (grid (setCell b x y v)) = length (grid b).
Proof.
  unfold setCell. destruct (_ && _); [| reflexivity].
  simpl. apply length_insert.
Qed.

(** Two cells of the board never share an index of the flat array. *)
Lemma getIndex_inj (x y x' y' : Z) :
  0 <= x < width b -> 0 <= y -> 0 <= x' < width b -> 0 <= y' ->
  Z.to_nat (getIndex b x y) = Z.to_nat (getIndex b x' y') ->
  x = x' /\ y = y'.
Proof.
  unfold getIndex. intros Hx Hy Hx' Hy' Heq.
  apply Z2Nat.inj in Heq; [| nia | nia].
  assert (y = y') by nia. subst y'. lia.
Qed.

(** A write is seen at no other cell. *)
Lemma getCell_setCell_other (x y v cx cy : Z) :
  (cx <> x \/ cy <> y) ->
  getCell (setCell b x y v) cx cy = getCell b cx cy.
Proof.
  intros Hne. unfold setCell.
  destruct ((x >=? 0) && (x <? width b) && (y >=? 0) && (y <? height b))
    eqn:E; [| reflexivity].
  apply inBounds_dec in E. unfold getCell. simpl.
  destruct ((cx <? 0) || (cx >=? width b) || (cy <? 0) || (cy >=? height b))
    eqn:E'; [reflexivity |].
  apply outOfBounds_dec in E'.
  unfold getIndex at 1 2. simpl.
  rewrite list_lookup_insert_ne; [reflexivity |].
  intros Heq.
  destruct (getIndex_inj x y cx cy) as [-> ->]; [lia .. | exact Heq |].
  destruct Hne; congruence.
Qed.

(** A write of a byte is read back at its cell, on a grid that has the
    cell ([width * height] bytes, as [new Board] allocates). *)
Lemma getCell_setCell_same (x y v : Z) :
  0 <= x < width b -> 0 <= y < height b ->
  length (grid b) = Z.to_nat (width b * height b) ->
  getCell (setCell b x y v) x y = v mod 256.
Proof.
  intros Hx Hy Hlen. unfold setCell.
  destruct ((x >=? 0) && (x <? width b) && (y >=? 0) && (y <? height b))
    eqn:E.
  - unfold getCell. simpl.
    destruct ((x <? 0) || (x >=? width b) || (y <? 0) || (y >=? height b))
      eqn:E'.
    + apply orb_true_iff in E'. rewrite !orb_true_iff in E'. lia.
    + unfold getIndex. simpl. rewrite list_lookup_insert_eq; [reflexivity |].
      rewrite Hlen. apply Z2Nat.inj_lt; nia.
  - apply not_true_iff_false in E. exfalso. apply E. apply inBounds_dec. lia.
Qed.

End BoardAccess.

(* ================================================================== *)
(** * Board: placement writes the piece's cells and nothing else *)
(* ================================================================== *)

Section Placement.

Variables (tag x cx cy : Z).

Lemma placeCols_dims (boardY : Z) (cells : list Z) :
  forall (col : Z) (b : Board),
    width (placeCols tag x boardY col cells b) = width b
    /\ height (placeCols tag x boardY col cells b) = height b
    /\ length (grid (placeCols tag x boardY col cells b)) = length (grid b).
Proof.
  induction cells as [| c cells' IH]; intros col b; simpl; [tauto |].
  destruct (IH (col + 1)
              (if negb (c =? 0)
               then if boardY >=? 0 then setCell b (x + col) boardY tag else b
               else b)) as (Hw & Hh & Hl).
  rewrite Hw, Hh, Hl.
  destruct (negb (c =? 0)), (boardY >=? 0);
    rewrite ?setCell_width, ?setCell_height, ?setCell_length; tauto.
Qed.

Lemma placeCols_other (boardY : Z) (cells : list Z) :
  forall (col : Z) (b : Board),
    (forall (j : nat) (c : Z),
        cells !! j = Some c -> c <> 0 ->
        ~ (cx = x + col + Z.of_nat j /\ cy = boardY /\ 0 <= boardY)) ->
    getCell (placeCols tag x boardY col cells b) cx cy = getCell b cx cy.
Proof.
  induction cells as [| c cells' IH]; intros col b Hfree; simpl;
    [reflexivity |].
  rewrite IH.
  - destruct (c =? 0) eqn:Ec; simpl; [reflexivity |].
    destruct (boardY >=? 0) eqn:Ey; [| reflexivity].
    apply getCell_setCell_other.
    specialize (Hfree O c eq_refl). simpl in Hfree.
    assert (c <> 0) as Hc by (apply Z.eqb_neq; exact Ec).
    specialize (Hfree Hc). lia.
  - intros j c' Hj Hc' Hhit.
    apply (Hfree (S j) c' Hj Hc'). lia.
Qed.

Lemma placeRows_dims (y : Z) (rows : Shape) :
  forall (row : Z) (b : Board),
    width (placeRows tag x y row rows b) = width b
    /\ height (placeRows tag x y row rows b) = height b
    /\ length (grid (placeRows tag x y row rows b)) = length (grid b).
Proof.
  induction rows as [| r rows' IH]; intros row b; simpl; [tauto |].
  destruct (IH (row + 1) (placeCols tag x (y + row) 0 r b)) as (Hw & Hh & Hl).
  destruct (placeCols_dims (y + row) r 0 b) as (Hw' & Hh' & Hl').
  rewrite Hw, Hh, Hl. tauto.
Qed.

Lemma placeRows_other (y : Z) (rows : Shape) :
  forall (row : Z) (b : Board),
    (forall (i j : nat) (cells : list Z) (c : Z),
        rows !! i = Some cells -> cells !! j = Some c -> c <> 0 ->
        ~ (cx = x + Z.of_nat j /\ cy = y + row + Z.of_nat i /\ 0 <= cy)) ->
    getCell (placeRows tag x y row rows b) cx cy = getCell b cx cy.
Proof.
  induction rows as [| r rows' IH]; intros row b Hfree; simpl;
    [reflexivity |].
  rewrite IH.
  - apply placeCols_other. intros j c Hj Hc Hhit.
    apply (Hfree O j r c eq_refl Hj Hc). lia.
  - intros i j cells c Hi Hj Hc Hhit.
    apply (Hfree (S i) j cells c Hi Hj Hc). lia.
Qed.

End Placement.

(** C10. Cell access is total and bounds-safe: outside the board [getCell]
    answers 0 and [setCell] returns the board as it was; and [placePiece],
    whatever the coordinates, leaves every cell alone that is not an
    occupied cell of the piece with [y + row >= 0] (the size of the board
    and of its array stay as they were). *)
Theorem C10_board_access_is_bounds_safe
    (b : Board) (piece : Piece) (x y cx cy value : Z) :
  (~ (0 <= cx < width b /\ 0 <= cy < height b) ->
     getCell b cx cy = 0 /\ setCell b cx cy value = b)
  /\ ((forall row col : nat,
          occupied (getShape piece) row col ->
          ~ (cx = x + Z.of_nat col /\ cy = y + Z.of_nat row /\ 0 <= cy)) ->
      getCell (placePiece b piece x y) cx cy = getCell b cx cy)
  /\ width (placePiece b piece x y) = width b
  /\ height (placePiece b piece x y) = height b
  /\ length (grid (placePiece b piece x y)) = length (grid b).
Proof.
  split; [| split].
  - intros Hout. split; [apply getCell_outside | apply setCell_outside];
      exact Hout.
  - intros Hfree. unfold placePiece. apply placeRows_other.
    intros i j cells c Hi Hj Hc Hhit.
    apply (Hfree i j); [exists cells, c; tauto | lia].
  - unfold placePiece. apply placeRows_dims.
Qed.

(** C10 at work: a T piece placed half outside the top-right corner of an
    empty board; cell (3, 5) is not one of its cells, cell (12, 0) is
    outside. *)
Lemma C10_board_access_witness :
  let b := newBoard BOARD_WIDTH BOARD_HEIGHT in
  let piece := newPiece PieceType.T in
  (getCell b 12 0 = 0 /\ setCell b 12 0 7 = b)
  /\ getCell (placePiece b piece 10 (-2)) 3 5 = getCell b 3 5.
Proof.
  intros b piece.
  pose proof (C10_board_access_is_bounds_safe b piece 10 (-2) 12 0 7)
    as (Hout & _).
  pose proof (C10_board_access_is_bounds_safe b piece 10 (-2) 3 5 7)
    as (_ & Hin & _).
  split.
  - apply Hout. vm_compute. intros [[_ H] _]. discriminate H.
  - apply Hin. intros row col _. lia.
Defined.

(* ================================================================== *)
(** * Board: what a valid position is *)
(* ================================================================== *)

Lemma validCols_spec (b : Board) (x boardY : Z) (cells : list Z) :
  forall col : Z,
    validCols b x boardY col cells = true
    <-> (forall (j : nat) (c : Z),
            cells !! j = Some c -> c <> 0 ->
            cellFits b (x + col + Z.of_nat j) boardY).
Proof.
  unfold cellFits.
  induction cells as [| c cells' IH]; intros col; simpl.
  - split; [intros _ j c Hj; discriminate Hj | reflexivity].
  - destruct (c =? 0) eqn:Ec; simpl.
    + rewrite IH. apply Z.eqb_eq in Ec. split.
      * intros H [| j] c' Hj Hc'; simpl in Hj.
        -- congruence.
        -- replace (x + col + Z.of_nat (S j)) with (x + (col + 1) + Z.of_nat j)
             by lia.
           eauto.
      * intros H j c' Hj Hc'.
        replace (x + (col + 1) + Z.of_nat j) with (x + col + Z.of_nat (S j))
          by lia.
        apply (H (S j) c' Hj Hc').
    + apply Z.eqb_neq in Ec.
      destruct ((x + col <? 0) || (x + col >=? width b)
                || (boardY >=? height b)) eqn:Ewall.
      * split; [discriminate |]. intros H.
        specialize (H O c eq_refl Ec). simpl in H.
        rewrite !orb_true_iff in Ewall. destruct H as (H1 & H2 & _). lia.
      * rewrite !orb_false_iff in Ewall.
        destruct ((boardY >=? 0) && negb (getCell b (x + col) boardY =? 0))
          eqn:Ehit.
        -- split; [discriminate |]. intros H.
           specialize (H O c eq_refl Ec). simpl in H.
           apply andb_true_iff in Ehit as [Hy Hcell].
           apply negb_true_iff, Z.eqb_neq in Hcell.
           destruct H as (_ & _ & H). rewrite Z.add_0_r in H.
           apply Z.geb_le in Hy. specialize (H Hy). congruence.
        -- rewrite IH. split.
           ++ intros H [| j] c' Hj Hc'; simpl in Hj.
              ** replace (x + col + Z.of_nat 0) with (x + col) by lia.
                 split; [lia | split; [lia |]].
                 intros Hy. apply andb_false_iff in Ehit as [Hy' | Hcell].
                 --- apply Z.geb_le in Hy. congruence.
                 --- apply negb_false_iff, Z.eqb_eq in Hcell. exact Hcell.
              ** replace (x + col + Z.of_nat (S j))
                   with (x + (col + 1) + Z.of_nat j) by lia.
                 eauto.
           ++ intros H j c' Hj Hc'.
              replace (x + (col + 1) + Z.of_nat j)
                with (x + col + Z.of_nat (S j)) by lia.
              apply (H (S j) c' Hj Hc').
Qed.

Lemma validRows_spec (b : Board) (x y : Z) (rows : Shape) :
  forall row : Z,
    validRows b x y row rows = true
    <-> (forall (i j : nat) (cells : list Z) (c : Z),
            rows !! i = Some cells -> cells !! j = Some c -> c <> 0 ->
            cellFits b (x + Z.of_nat j) (y + row + Z.of_nat i)).
Proof.
  induction rows as [| r rows' IH]; intros row; simpl.
  - split; [intros _ i j cells c Hi; discriminate Hi | reflexivity].
  - destruct (validCols b x (y + row) 0 r) eqn:Er.
    + rewrite IH. rewrite validCols_spec in Er. split.
      * intros H [| i] j cells c Hi Hj Hc; simpl in Hi.
        -- injection Hi as <-.
           replace (y + row + Z.of_nat 0) with (y + row) by lia.
           replace (x + Z.of_nat j) with (x + 0 + Z.of_nat j) by lia.
           eauto.
        -- replace (y + row + Z.of_nat (S i))
             with (y + (row + 1) + Z.of_nat i) by lia.
           eauto.
      * intros H i j cells c Hi Hj Hc.
        replace (y + (row + 1) + Z.of_nat i)
          with (y + row + Z.of_nat (S i)) by lia.
        apply (H (S i) j cells c Hi Hj Hc).
    + split; [discriminate |]. intros H.
      assert (validCols b x (y + row) 0 r = true) as Hr; [| congruence].
      apply validCols_spec. intros j c Hj Hc.
      specialize (H O j r c eq_refl Hj Hc).
      replace (y + row + Z.of_nat 0) with (y + row) in H by lia.
      replace (x + 0 + Z.of_nat j) with (x + Z.of_nat j) by lia.
      exact H.
Qed.

(** [isValidPosition] says exactly that every occupied cell of the piece
    fits: no wall, no floor, no locked cell below the top edge. *)
Lemma isValidPosition_spec (b : Board) (piece : Piece) (x y : Z) :
  isValidPosition b piece x y = true
  <-> (forall row col : nat,
          occupied (getShape piece) row col ->
          cellFits b (x + Z.of_nat col) (y + Z.of_nat row)).
Proof.
  unfold isValidPosition. rewrite validRows_spec. unfold occupied. split.
  - intros H row col (cells & c & Hrow & Hcol & Hc).
    specialize (H row col cells c Hrow Hcol Hc).
    replace (y + 0 + Z.of_nat row) with (y + Z.of_nat row) in H by lia.
    exact H.
  - intros H i j cells c Hi Hj Hc.
    replace (y + 0 + Z.of_nat i) with (y + Z.of_nat i) by lia.
    apply H. exists cells, c. tauto.
Qed.

(* ================================================================== *)
(** * Board: line clearing *)
(* ================================================================== *)

(** C3 (the code departs from the claim). On [twoFullRows], [clearLines]
    does return 2, but the board it leaves is not the one claimed: row 19
    holds the former row 18 and is still full, the contents of the former
    row 17 are nowhere on the board, and a further [clearLines] would find
    row 19 to clear.  Each pass shifts the rows above the cleared one down,
    so the second full row has moved to row 19 by the time row 18 is
    processed, and the partial row that took its place is overwritten. *)
Theorem C3_clearLines_keeps_a_full_row :
  let b := twoFullRows in
  let b' := fst (clearLines b) in
  isFilled b 19 = true /\ isFilled b 18 = true /\ isFilled b 17 = false
  /\ boardRow b 17 = [0; 0; 0; 84; 84; 84; 0; 0; 0; 0; 0; 0]
  /\ snd (clearLines b) = 2
  /\ boardRow b' 19 = boardRow b 18
  /\ isFilled b' 19 = true
  /\ linesToClear b' = [19]
  /\ boardRow b' 18 = replicate 12 0
  /\ Forall (fun y => boardRow b' y <> boardRow b 17) (seqZ 0 20).
Proof.
  repeat split; try (vm_compute; reflexivity).
  vm_compute seqZ.
  repeat (constructor; [vm_compute; discriminate |]).
  constructor.
Qed.

(* ================================================================== *)
(** * Lock and spawn *)
(* ================================================================== *)

(** Drawing from the supply leaves the state, the log and the clock alone;
    the piece drawn is the head of the queue. *)
Lemma drawNext_frame (w w1 : World) (piece : Piece) (queue : list Piece) :
  drawNext w = (piece, queue, w1) ->
  store w1 = store w /\ events w1 = events w
  /\ notifications w1 = notifications w /\ now w1 = now w
  /\ piece = previewHead (generator w)
  /\ queue = getPreview (generator w1).
Proof.
  unfold drawNext, next.
  destruct (generatePiece (bag (generator w)) (random w)) as [[fresh bg] r'].
  destruct (previewTail (generator w)) as [| q qs]; intros H;
    injection H as <- <- <-; simpl; tauto.
Qed.

(** The two ways out of [spawnNextPiece]. *)
Lemma spawnNextPiece_cases (w w1 : World) (piece : Piece) (queue : list Piece) :
  drawNext w = (piece, queue, w1) ->
  spawnNextPiece w =
    if isValidPosition (board (getState w)) piece SPAWN_X SPAWN_Y
    then emit (GameEvent.PIECE_SPAWN piece)
           (setState [currentPiece_ (Some piece); currentX_ SPAWN_X;
                      currentY_ SPAWN_Y; canHold_ true; nextPieces_ queue;
                      lastDropTime_ (now w1); isDirty_ true] w1)
    else gameOver w1.
Proof.
  intros Hdraw. unfold spawnNextPiece. rewrite Hdraw.
  destruct (isValidPosition _ _ _ _); reflexivity.
Qed.

(** The spawn sequence touches neither the board, nor the score, the line
    total, the level, the gravity interval or the held piece. *)
Lemma spawnNextPiece_keeps (w : World) :
  let s := getState w in
  let s' := getState (spawnNextPiece w) in
  board s' = board s /\ score s' = score s /\ lines s' = lines s
  /\ level s' = level s /\ dropInterval s' = dropInterval s
  /\ holdPiece s' = holdPiece s.
Proof.
  destruct (drawNext w) as [[piece queue] w1] eqn:Hdraw.
  rewrite (spawnNextPiece_cases _ _ _ _ Hdraw).
  apply drawNext_frame in Hdraw as (Hs & _).
  unfold getState.
  destruct (isValidPosition _ _ _ _); simpl; rewrite Hs; tauto.
Qed.

(** Scoring changes the score, the line total, the level and the gravity
    interval, and nothing else of the state. *)
Lemma scoreLines_keeps (state : GameState) (k : Z) (w : World) :
  let s := getState w in
  let s' := getState (scoreLines state k w) in
  status s' = status s /\ board s' = board s
  /\ currentPiece s' = currentPiece s /\ currentX s' = currentX s
  /\ currentY s' = currentY s /\ holdPiece s' = holdPiece s
  /\ canHold s' = canHold s.
Proof.
  unfold scoreLines.
  destruct (k >? 0); [| tauto].
  destruct (_ >? level state); simpl; tauto.
Qed.

Lemma gameOverCount_app (l1 l2 : list GameEvent.t) :
  gameOverCount (l1 ++ l2) = (gameOverCount l1 + gameOverCount l2)%nat.
Proof. unfold gameOverCount. rewrite filter_app. apply length_app. Qed.

Lemma gameOverCount_snoc (l : list GameEvent.t) (e : GameEvent.t) :
  gameOverCount (l ++ [e]) =
    (gameOverCount l + if isGameOverEvent e then 1 else 0)%nat.
Proof. rewrite gameOverCount_app. destruct e; reflexivity. Qed.

Lemma scoreLines_events (state : GameState) (k : Z) (w : World) :
  gameOverCount (events (scoreLines state k w)) = gameOverCount (events w).
Proof.
  unfold scoreLines.
  destruct (k >? 0); [| reflexivity].
  destruct (_ >? level state); simpl;
    rewrite !gameOverCount_snoc; simpl; lia.
Qed.

(** What [lockPiece] has done when it reaches the spawn sequence. *)
Lemma placeAndScore_keeps (w : World) (piece : Piece) :
  let s := getState w in
  let s' := getState (placeAndScore w piece) in
  status s' = status s /\ currentPiece s' = currentPiece s
  /\ currentX s' = currentX s /\ currentY s' = currentY s
  /\ holdPiece s' = holdPiece s /\ canHold s' = canHold s
  /\ board s' =
       fst (clearLines (placePiece (board s) piece (currentX s) (currentY s)))
  /\ gameOverCount (events (placeAndScore w piece)) = gameOverCount (events w).
Proof.
  unfold placeAndScore.
  match goal with
  | |- context [scoreLines ?st ?k ?w3] =>
      pose proof (scoreLines_keeps st k w3)
        as (H1 & H2 & H3 & H4 & H5 & H6 & H7);
      pose proof (scoreLines_events st k w3) as H8
  end.
  cbv zeta. rewrite H1, H2, H3, H4, H5, H6, H7, H8. simpl.
  rewrite gameOverCount_snoc. simpl. repeat split; first [reflexivity | lia].
Qed.

(* ================================================================== *)
(** * Scoring and levels *)
(* ================================================================== *)

Lemma calculateDropInterval_floor (l : Z) :
  MIN_DROP_INTERVAL <= calculateDropInterval l.
Proof. unfold calculateDropInterval. cbv zeta. lia. Qed.

Lemma calculateDropInterval_decreasing (l1 l2 : Z) :
  l1 <= l2 -> calculateDropInterval l2 <= calculateDropInterval l1.
Proof.
  unfold calculateDropInterval, INITIAL_DROP_INTERVAL, MIN_DROP_INTERVAL,
    DROP_INTERVAL_DECREASE.
  cbv zeta. lia.
Qed.

(** What the [if (linesCleared > 0)] block stores, for a count that is in
    the table. *)
Lemma scoreLines_values (state : GameState) (k : Z) (w : World) :
  0 < k ->
  let s' := getState (scoreLines state k w) in
  score s' = num_add (score state) (calculateLineScore k (level state))
  /\ lines s' = lines state + k
  /\ level s' = (lines state + k) / LINES_PER_LEVEL + 1
  /\ dropInterval s' =
       calculateDropInterval ((lines state + k) / LINES_PER_LEVEL + 1).
Proof.
  intros Hk. unfold scoreLines.
  destruct (k >? 0) eqn:E; [| lia].
  destruct (_ >? level state); simpl; tauto.
Qed.

(** C6. A lock that clears [k] rows, [1 <= k <= 4], adds
    [table[k] * level] to the score (the level as it was when the piece
    locked; table 100, 300, 500, 800), adds [k] to the line total, sets the
    level to [floor (new total / 10) + 1] and the gravity interval to
    [max (1000 - (new level - 1) * 50, 100)].  The interval never increases
    with the level and never drops below 100.  One line at level 1 is worth
    100, four lines at level 3 are worth 2400. *)
Theorem C6_line_clear_scoring (w : World) (piece : Piece) (k : Z) :
  currentPiece (getState w) = Some piece ->
  snd (clearLines (placePiece (board (getState w)) piece
                              (currentX (getState w))
                              (currentY (getState w)))) = k ->
  1 <= k <= 4 ->
  let s := getState w in
  let s' := getState (lockPiece w) in
  let table :=
    if k =? 1 then 100 else if k =? 2 then 300
    else if k =? 3 then 500 else 800 in
  score s' = num_add (score s) (Int (table * level s))
  /\ lines s' = lines s + k
  /\ level s' = (lines s + k) / 10 + 1
  /\ dropInterval s' = Z.max (1000 - (level s' - 1) * 50) 100
  /\ (forall l1 l2 : Z,
         l1 <= l2 -> calculateDropInterval l2 <= calculateDropInterval l1)
  /\ (forall l : Z, 100 <= calculateDropInterval l)
  /\ calculateLineScore 1 1 = Int 100
  /\ calculateLineScore 4 3 = Int 2400.
Proof.
  intros Hcur Hk Hrange s s' table.
  assert (score s' = num_add (score s) (calculateLineScore k (level s))
          /\ lines s' = lines s + k
          /\ level s' = (lines s + k) / LINES_PER_LEVEL + 1
          /\ dropInterval s' =
               calculateDropInterval ((lines s + k) / LINES_PER_LEVEL + 1))
    as (Hscore & Hlines & Hlevel & Hint).
  { subst s'. unfold lockPiece. rewrite Hcur.
    pose proof (spawnNextPiece_keeps (placeAndScore w piece))
      as (_ & -> & -> & -> & -> & _).
    unfold placeAndScore. simpl board. unfold getState in *. rewrite Hk.
    apply (scoreLines_values (store w)). lia. }
  repeat split.
  - rewrite Hscore. unfold calculateLineScore, SCORE_VALUES. subst table.
    assert (k = 1 \/ k = 2 \/ k = 3 \/ k = 4) as [-> | [-> | [-> | ->]]]
      by lia; reflexivity.
  - exact Hlines.
  - exact Hlevel.
  - rewrite Hint, Hlevel. reflexivity.
  - apply calculateDropInterval_decreasing.
  - apply calculateDropInterval_floor.
Qed.

(** C6 at work: the I piece closes the bottom row at level 1. *)
Lemma C6_line_clear_scoring_witness :
  score (getState (lockPiece oneLineWorld)) = Int 100
  /\ lines (getState (lockPiece oneLineWorld)) = 1
  /\ level (getState (lockPiece oneLineWorld)) = 1
  /\ dropInterval (getState (lockPiece oneLineWorld)) = 1000.
Proof.
  destruct (C6_line_clear_scoring oneLineWorld (newPiece PieceType.I) 1)
    as (Hs & Hl & Hv & Hd & _).
  - reflexivity.
  - vm_compute. reflexivity.
  - lia.
  - rewrite Hd, Hv, Hl, Hs. repeat split; reflexivity.
Defined.

(* ================================================================== *)
(** * What each action does to the status *)
(* ================================================================== *)

Lemma gameOver_state (w : World) :
  status (getState (gameOver w)) = GameStatus.GAME_OVER
  /\ currentPiece (getState (gameOver w)) = None
  /\ events (gameOver w) = events w ++ [GameEvent.GAME_OVER].
Proof. repeat split. Qed.

(** A lock ends in the spawn check: the game goes on with the piece drawn,
    or it is over. *)
Lemma lockPiece_cases
    (w w2 : World) (piece nextPiece : Piece) (queue : list Piece) :
  currentPiece (getState w) = Some piece ->
  drawNext (placeAndScore w piece) = (nextPiece, queue, w2) ->
  let locked := placeAndScore w piece in
  let s' := getState (lockPiece w) in
  if isValidPosition (board (getState locked)) nextPiece SPAWN_X SPAWN_Y
  then status s' = status (getState w)
       /\ currentPiece s' = Some nextPiece
       /\ currentX s' = SPAWN_X /\ currentY s' = SPAWN_Y
       /\ canHold s' = true
       /\ events (lockPiece w) =
            events locked ++ [GameEvent.PIECE_SPAWN nextPiece]
  else status s' = GameStatus.GAME_OVER
       /\ currentPiece s' = None
       /\ events (lockPiece w) = events locked ++ [GameEvent.GAME_OVER].
Proof.
  intros Hcur Hdraw locked s'. subst s'. unfold lockPiece. rewrite Hcur.
  rewrite (spawnNextPiece_cases _ _ _ _ Hdraw). fold locked.
  apply drawNext_frame in Hdraw as (Hs & He & _). fold locked in Hs, He.
  pose proof (placeAndScore_keeps w piece) as (Hst & _). fold locked in Hst.
  destruct (isValidPosition _ _ _ _).
  - simpl. unfold getState in *. rewrite Hs, He, Hst. tauto.
  - simpl. rewrite He. tauto.
Qed.

Lemma moveLeft_status (w : World) :
  status (getState (moveLeft w)) = status (getState w).
Proof.
  unfold moveLeft. destruct (negb _); [reflexivity |].
  destruct (currentPiece _); [| reflexivity].
  destruct (isValidPosition _ _ _ _); reflexivity.
Qed.

Lemma moveRight_status (w : World) :
  status (getState (moveRight w)) = status (getState w).
Proof.
  unfold moveRight. destruct (negb _); [reflexivity |].
  destruct (currentPiece _); [| reflexivity].
  destruct (isValidPosition _ _ _ _); reflexivity.
Qed.

Lemma tryWallKicks_status
    (state : GameState) (piece : Piece) (direction : RotationDirection)
    (offsets : list (Z * Z)) (w : World) :
  status (getState (tryWallKicks state piece direction offsets w))
  = status (getState w).
Proof.
  induction offsets as [| [ox oy] offsets' IH]; simpl; [reflexivity |].
  destruct (isValidPosition _ _ _ _); [reflexivity | exact IH].
Qed.

Lemma rotate_status (direction : RotationDirection) (w : World) :
  status (getState (rotate direction w)) = status (getState w).
Proof.
  unfold rotate. destruct (negb _); [reflexivity |].
  destruct (currentPiece _); [| reflexivity].
  destruct (isValidPosition _ _ _ _); [reflexivity |].
  apply tryWallKicks_status.
Qed.

Lemma hold_status (w : World) :
  status (getState (hold w)) = status (getState w).
Proof.
  unfold hold. destruct (_ || _); [reflexivity |].
  destruct (currentPiece _) as [current |]; [| reflexivity].
  destruct (holdPiece _) as [held |]; [reflexivity |].
  destruct (drawNext w) as [[p q] w0] eqn:Hdraw.
  apply drawNext_frame in Hdraw as (Hs & _).
  simpl. unfold getState. rewrite Hs. reflexivity.
Qed.

Lemma startGame_cases (w : World) :
  (status (getState w) = GameStatus.PLAYING /\ startGame w = w)
  \/ (status (getState w) <> GameStatus.PLAYING
      /\ status (getState (startGame w)) = GameStatus.PLAYING).
Proof.
  unfold startGame.
  destruct (bool_decide (status (getState w) = GameStatus.PLAYING)) eqn:E.
  - left. apply bool_decide_eq_true_1 in E. tauto.
  - right. apply bool_decide_eq_false_1 in E. split; [exact E |].
    destruct (resetGenerator _ _) as [g r].
    destruct (drawNext _) as [[p q] w3]. reflexivity.
Qed.

Lemma pause_cases (w : World) :
  (status (getState w) = GameStatus.PLAYING
   /\ status (getState (pause w)) = GameStatus.PAUSED)
  \/ (status (getState w) <> GameStatus.PLAYING /\ pause w = w).
Proof.
  unfold pause.
  destruct (bool_decide (status (getState w) = GameStatus.PLAYING)) eqn:E.
  - left. apply bool_decide_eq_true_1 in E. tauto.
  - right. apply bool_decide_eq_false_1 in E. tauto.
Qed.

Lemma resume_cases (w : World) :
  (status (getState w) = GameStatus.PAUSED
   /\ status (getState (resume w)) = GameStatus.PLAYING)
  \/ (status (getState w) <> GameStatus.PAUSED /\ resume w = w).
Proof.
  unfold resume.
  destruct (bool_decide (status (getState w) = GameStatus.PAUSED)) eqn:E.
  - left. apply bool_decide_eq_true_1 in E. tauto.
  - right. apply bool_decide_eq_false_1 in E. tauto.
Qed.

(** [moveDown]: refused by the guard, moved, or locked. *)
Lemma moveDown_cases (w : World) :
  (canMove (getState w) = false /\ moveDown w = (false, w))
  \/ (exists piece,
        canMove (getState w) = true
        /\ currentPiece (getState w) = Some piece
        /\ isValidPosition (board (getState w)) piece (currentX (getState w))
                           (currentY (getState w) + 1) = true
        /\ moveDown w =
             (true,
              emit (GameEvent.PIECE_MOVE Direction.down)
                (setState [currentY_ (currentY (getState w) + 1);
                           lastDropTime_ (now w); isDirty_ true] w)))
  \/ (exists piece,
        canMove (getState w) = true
        /\ currentPiece (getState w) = Some piece
        /\ isValidPosition (board (getState w)) piece (currentX (getState w))
                           (currentY (getState w) + 1) = false
        /\ moveDown w = (false, lockPiece w)).
Proof.
  unfold moveDown.
  destruct (canMove (getState w)) eqn:Hguard; simpl; [| tauto].
  right. apply canMove_true in Hguard as [_ [piece Hcur]]. rewrite Hcur.
  destruct (isValidPosition _ _ _ _) eqn:Hvalid.
  - left. exists piece. tauto.
  - right. exists piece. tauto.
Qed.

(** [hardDrop]: refused by the guard, or a lock of the piece lowered. *)
Lemma hardDrop_cases (w : World) :
  (canMove (getState w) = false /\ hardDrop w = w)
  \/ (exists (piece : Piece) (w1 : World),
        canMove (getState w) = true
        /\ currentPiece (getState w) = Some piece
        /\ currentPiece (getState w1) = Some piece
        /\ status (getState w1) = status (getState w)
        /\ board (getState w1) = board (getState w)
        /\ currentX (getState w1) = currentX (getState w)
        /\ currentY (getState w1) =
             currentY (getState w)
             + getHardDropDistance (board (getState w)) piece
                 (currentX (getState w)) (currentY (getState w))
        /\ holdPiece (getState w1) = holdPiece (getState w)
        /\ gameOverCount (events w1) = gameOverCount (events w)
        /\ hardDrop w = lockPiece w1).
Proof.
  unfold hardDrop.
  destruct (canMove (getState w)) eqn:Hguard; simpl; [| tauto].
  right. apply canMove_true in Hguard as [_ [piece Hcur]]. rewrite Hcur.
  exists piece.
  destruct (getHardDropDistance _ _ _ _ >? 0) eqn:Hd.
  - match goal with
    | |- context [lockPiece (emit ?e ?w0)] => exists (emit e w0)
    end.
    repeat split; try assumption.
    simpl. rewrite gameOverCount_snoc. simpl. lia.
  - exists w. repeat split; try assumption.
    assert (0 <= getHardDropDistance (board (getState w)) piece
                   (currentX (getState w)) (currentY (getState w))); [| lia].
    unfold getHardDropDistance.
    generalize (Z.to_nat (height (board (getState w)) - currentY (getState w))).
    assert (forall fuel d, 0 <= d ->
              0 <= dropLoop fuel (board (getState w)) piece
                     (currentX (getState w)) (currentY (getState w)) d)
      as Hloop.
    { induction fuel as [| fuel IH]; intros d Hd0; simpl; [exact Hd0 |].
      destruct (isValidPosition _ _ _ _); [apply IH; lia | exact Hd0]. }
    intros fuel. apply Hloop. lia.
Qed.

(** [softDrop]: refused by the guard, moved and paid, or locked. *)
Lemma softDrop_cases (w : World) :
  (canMove (getState w) = false /\ softDrop w = w)
  \/ (exists piece,
        canMove (getState w) = true
        /\ currentPiece (getState w) = Some piece
        /\ isValidPosition (board (getState w)) piece (currentX (getState w))
                           (currentY (getState w) + 1) = true
        /\ softDrop w =
             let newScore :=
               num_add (score (getState w)) (Int SOFT_DROP_SCORE) in
             emit (GameEvent.SCORE_UPDATE newScore)
               (setState [score_ newScore] (snd (moveDown w))))
  \/ (exists piece,
        canMove (getState w) = true
        /\ currentPiece (getState w) = Some piece
        /\ isValidPosition (board (getState w)) piece (currentX (getState w))
                           (currentY (getState w) + 1) = false
        /\ softDrop w = lockPiece w).
Proof.
  unfold softDrop.
  destruct (moveDown_cases w)
    as [[Hg Hm] | [(piece & Hg & Hc & Hv & Hm) | (piece & Hg & Hc & Hv & Hm)]];
    rewrite Hg, Hm; simpl.
  - tauto.
  - right. left. exists piece. tauto.
  - right. right. exists piece. tauto.
Qed.

(** C7. The spawn check is the one game-over trigger.  A lock reaches the
    spawn sequence with the status as it was and no game-over event added.
    If the piece then drawn is not in a valid position at the spawn cell,
    the status becomes GAME_OVER, the current piece becomes null and
    exactly one game-over event is emitted; if it is, the game goes on with
    that piece at the spawn cell and [canHold] true, and no game-over event
    is emitted.  Conversely an action that turns the status into GAME_OVER
    has run a lock whose spawn check failed. *)
Theorem C7_spawn_collision_is_the_game_over_trigger
    (w w2 : World) (piece nextPiece : Piece) (queue : list Piece) :
  (currentPiece (getState w) = Some piece ->
   drawNext (placeAndScore w piece) = (nextPiece, queue, w2) ->
   let locked := placeAndScore w piece in
   let s' := getState (lockPiece w) in
   status (getState locked) = status (getState w)
   /\ gameOverCount (events locked) = gameOverCount (events w)
   /\ (isValidPosition (board (getState locked)) nextPiece SPAWN_X SPAWN_Y
         = false ->
       status s' = GameStatus.GAME_OVER
       /\ currentPiece s' = None
       /\ events (lockPiece w) = events locked ++ [GameEvent.GAME_OVER]
       /\ gameOverCount (events (lockPiece w))
            = S (gameOverCount (events w)))
   /\ (isValidPosition (board (getState locked)) nextPiece SPAWN_X SPAWN_Y
         = true ->
       status s' = status (getState w)
       /\ currentPiece s' = Some nextPiece
       /\ currentX s' = SPAWN_X /\ currentY s' = SPAWN_Y
       /\ canHold s' = true
       /\ gameOverCount (events (lockPiece w)) = gameOverCount (events w)))
  /\ (forall (a : Action) (w0 : World),
        status (getState w0) <> GameStatus.GAME_OVER ->
        status (getState (perform a w0)) = GameStatus.GAME_OVER ->
        exists (w1 w3 : World) (piece1 drawn : Piece) (queue1 : list Piece),
          currentPiece (getState w1) = Some piece1
          /\ perform a w0 = lockPiece w1
          /\ drawNext (placeAndScore w1 piece1) = (drawn, queue1, w3)
          /\ isValidPosition (board (getState (placeAndScore w1 piece1)))
                             drawn SPAWN_X SPAWN_Y = false).
Proof.
  split.
  - intros Hcur Hdraw locked s'.
    pose proof (lockPiece_cases w w2 piece nextPiece queue Hcur Hdraw)
      as Hcases.
    pose proof (placeAndScore_keeps w piece)
      as (Hst & _ & _ & _ & _ & _ & _ & Hev).
    cbv zeta in Hcases. fold locked in Hcases, Hst, Hev. fold s' in Hcases.
    split; [exact Hst |]. split; [exact Hev |]. split.
    + intros Hbad. rewrite Hbad in Hcases.
      destruct Hcases as (H1 & H2 & H3). repeat split; try assumption.
      rewrite H3, gameOverCount_snoc, Hev. simpl. lia.
    + intros Hgood. rewrite Hgood in Hcases.
      destruct Hcases as (H1 & H2 & H3 & H4 & H5 & H6).
      repeat split; try assumption.
      rewrite H6, gameOverCount_snoc, Hev. simpl. lia.
  - assert (forall (w1 : World) (piece1 : Piece),
              currentPiece (getState w1) = Some piece1 ->
              status (getState w1) <> GameStatus.GAME_OVER ->
              status (getState (lockPiece w1)) = GameStatus.GAME_OVER ->
              exists (w3 : World) (drawn : Piece) (queue1 : list Piece),
                drawNext (placeAndScore w1 piece1) = (drawn, queue1, w3)
                /\ isValidPosition
                     (board (getState (placeAndScore w1 piece1)))
                     drawn SPAWN_X SPAWN_Y = false) as Hlock.
    { intros w1 piece1 Hcur Hnot Hover.
      destruct (drawNext (placeAndScore w1 piece1)) as [[drawn queue1] w3]
        eqn:Hdraw.
      exists w3, drawn, queue1. split; [reflexivity |].
      pose proof (lockPiece_cases w1 w3 piece1 drawn queue1 Hcur Hdraw)
        as Hcases.
      cbv zeta in Hcases.
      destruct (isValidPosition _ _ _ _); [| reflexivity].
      destruct Hcases as (Hst & _). congruence. }
    intros a w0 Hnot Hover.
    destruct a; simpl in Hover.
    + destruct (startGame_cases w0) as [[_ Heq] | [_ Hst]]; congruence.
    + destruct (pause_cases w0) as [[_ Hst] | [_ Heq]]; congruence.
    + destruct (resume_cases w0) as [[_ Hst] | [_ Heq]]; congruence.
    + rewrite moveLeft_status in Hover. contradiction.
    + rewrite moveRight_status in Hover. contradiction.
    + destruct (moveDown_cases w0)
        as [[_ Hm] | [(p1 & _ & _ & _ & Hm) | (p1 & _ & Hc & _ & Hm)]];
        rewrite Hm in Hover; simpl in Hover; try contradiction.
      destruct (Hlock w0 p1 Hc Hnot Hover) as (w3 & drawn & queue1 & H1 & H2).
      exists w0, w3, p1, drawn, queue1. simpl. rewrite Hm. tauto.
    + destruct (softDrop_cases w0)
        as [[_ Hm] | [(p1 & _ & Hc & Hv & Hm) | (p1 & _ & Hc & _ & Hm)]];
        rewrite Hm in Hover.
      * contradiction.
      * destruct (moveDown_cases w0)
          as [[_ Hd] | [(p2 & _ & _ & _ & Hd) | (p2 & _ & Hc2 & Hv2 & _)]];
          [rewrite Hd in Hover; simpl in Hover; contradiction
          | rewrite Hd in Hover; simpl in Hover; contradiction
          | congruence].
      * destruct (Hlock w0 p1 Hc Hnot Hover)
          as (w3 & drawn & queue1 & H1 & H2).
        exists w0, w3, p1, drawn, queue1. simpl. tauto.
    + destruct (hardDrop_cases w0)
        as [[_ Hm] | (p1 & w1 & _ & _ & Hc & Hst & _ & _ & _ & _ & _ & Hm)];
        rewrite Hm in Hover; [contradiction |].
      rewrite <- Hst in Hnot.
      destruct (Hlock w1 p1 Hc Hnot Hover)
        as (w3 & drawn & queue1 & H1 & H2).
      exists w1, w3, p1, drawn, queue1. simpl. tauto.
    + rewrite rotate_status in Hover. contradiction.
    + rewrite hold_status in Hover. contradiction.
Qed.

(** C7 at work: in [towerWorld] the I piece rests on the stack; locking it
    draws the J piece, which does not fit at the spawn cell. *)
Lemma C7_spawn_collision_witness :
  status (getState (lockPiece towerWorld)) = GameStatus.GAME_OVER
  /\ currentPiece (getState (lockPiece towerWorld)) = None
  /\ gameOverCount (events (lockPiece towerWorld)) = 1%nat.
Proof.
  pose (d := drawNext (placeAndScore towerWorld (newPiece PieceType.I))).
  destruct (C7_spawn_collision_is_the_game_over_trigger
              towerWorld (snd d) (newPiece PieceType.I)
              (fst (fst d)) (snd (fst d))) as [Hlock _].
  destruct Hlock as (_ & _ & Hbad & _).
  - vm_compute. reflexivity.
  - subst d. destruct (drawNext _) as [[nextPiece queue] w2]. reflexivity.
  - destruct Hbad as (H1 & H2 & _ & H4).
    + vm_compute. reflexivity.
    + rewrite H1, H2, H4. repeat split.
Defined.

(* ================================================================== *)
(** * The piece supply hands out fresh pieces *)
(* ================================================================== *)

(** Case analysis on the first [if] or [match] scrutinee of the goal. *)
Ltac break_branch :=
  match goal with
  | |- context [if ?c then _ else _] => destruct c eqn:?
  | |- context [match ?x with _ => _ end] => destruct x eqn:?
  end.

Lemma generatePiece_fresh (bg bg' : list PieceType.t) (r r' : Random)
    (p : Piece) :
  generatePiece bg r = (p, bg', r') -> rotation p = 0.
Proof.
  unfold generatePiece.
  destruct (if (length bg =? 0)%nat then refillBag r else (bg, r))
    as [bg1 r1].
  destruct (pop bg1) as [[type |] bg2]; intros H; injection H as <- _ _;
    reflexivity.
Qed.

Lemma generatePieces_fresh (n : nat) :
  forall (bg bg' : list PieceType.t) (r r' : Random) (ps : list Piece),
    generatePieces n bg r = (ps, bg', r') ->
    Forall (fun p => rotation p = 0) ps.
Proof.
  induction n as [| n IH]; intros bg bg' r r' ps; simpl.
  - intros H. injection H as <- _ _. constructor.
  - destruct (generatePiece bg r) as [[p bg1] r1] eqn:Hp.
    destruct (generatePieces n bg1 r1) as [[ps' bg2] r2] eqn:Hps.
    intros H. injection H as <- _ _. constructor.
    + eapply generatePiece_fresh, Hp.
    + eapply IH, Hps.
Qed.

Lemma next_fresh (g g' : PieceGenerator) (r r' : Random) (p : Piece) :
  freshSupply g -> next g r = (p, g', r') ->
  rotation p = 0 /\ freshSupply g'.
Proof.
  unfold freshSupply, getPreview, next. intros Hg.
  apply Forall_cons in Hg as [Hhead Htail].
  destruct (generatePiece (bag g) r) as [[fresh bg] r1] eqn:Hfresh.
  apply generatePiece_fresh in Hfresh.
  destruct (previewTail g) as [| q qs]; intros H; injection H as <- <- _;
    simpl; split; try exact Hhead.
  - repeat constructor. exact Hfresh.
  - apply Forall_cons in Htail as [Hq Hqs]. constructor; [exact Hq |].
    apply Forall_app. split; [exact Hqs |]. repeat constructor. exact Hfresh.
Qed.

Lemma resetGenerator_fresh (g g' : PieceGenerator) (r r' : Random) :
  resetGenerator g r = (g', r') -> freshSupply g'.
Proof.
  unfold resetGenerator, freshSupply, getPreview.
  destruct (generatePiece [] r) as [[first bg1] r1] eqn:Hfirst.
  destruct (generatePieces _ bg1 r1) as [[rest bg2] r2] eqn:Hrest.
  intros H. injection H as <- _. simpl. constructor.
  - eapply generatePiece_fresh, Hfirst.
  - eapply generatePieces_fresh, Hrest.
Qed.

Lemma drawNext_fresh (w w1 : World) (p : Piece) (queue : list Piece) :
  freshSupply (generator w) -> drawNext w = (p, queue, w1) ->
  rotation p = 0 /\ freshSupply (generator w1).
Proof.
  unfold drawNext. intros Hg.
  destruct (next (generator w) (random w)) as [[piece g] r] eqn:Hnext.
  intros H. injection H as <- _ <-. simpl.
  eapply next_fresh; eassumption.
Qed.

Lemma scoreLines_generator (state : GameState) (k : Z) (w : World) :
  generator (scoreLines state k w) = generator w.
Proof. unfold scoreLines. repeat break_branch; reflexivity. Qed.

Lemma spawnNextPiece_fresh (w : World) :
  freshSupply (generator w) -> freshSupply (generator (spawnNextPiece w)).
Proof.
  intros Hg. destruct (drawNext w) as [[p queue] w1] eqn:Hdraw.
  rewrite (spawnNextPiece_cases _ _ _ _ Hdraw).
  apply (drawNext_fresh _ _ _ _ Hg) in Hdraw as [_ Hg1].
  destruct (isValidPosition _ _ _ _); exact Hg1.
Qed.

Lemma lockPiece_fresh (w : World) :
  freshSupply (generator w) -> freshSupply (generator (lockPiece w)).
Proof.
  intros Hg. unfold lockPiece.
  destruct (currentPiece (getState w)) as [piece |]; [| exact Hg].
  apply spawnNextPiece_fresh. unfold placeAndScore.
  rewrite scoreLines_generator. exact Hg.
Qed.

Lemma tryWallKicks_generator
    (state : GameState) (piece : Piece) (direction : RotationDirection)
    (offsets : list (Z * Z)) (w : World) :
  generator (tryWallKicks state piece direction offsets w) = generator w.
Proof.
  induction offsets as [| [ox oy] offsets' IH]; simpl; [reflexivity |].
  destruct (isValidPosition _ _ _ _); [reflexivity | exact IH].
Qed.

(** Whatever the action, the supply still holds fresh pieces only. *)
Lemma perform_fresh (a : Action) (w : World) :
  freshSupply (generator w) -> freshSupply (generator (perform a w)).
Proof.
  intros Hg. destruct a; simpl.
  - unfold startGame.
    destruct (bool_decide _); [exact Hg |].
    destruct (resetGenerator _ _) as [g r] eqn:Hreset.
    apply resetGenerator_fresh in Hreset.
    destruct (drawNext _) as [[p queue] w3] eqn:Hdraw.
    apply drawNext_fresh in Hdraw as [_ Hg3]; [exact Hg3 | exact Hreset].
  - unfold pause. destruct (bool_decide _); exact Hg.
  - unfold resume. destruct (bool_decide _); exact Hg.
  - unfold moveLeft. repeat break_branch; exact Hg.
  - unfold moveRight. repeat break_branch; exact Hg.
  - destruct (moveDown_cases w)
      as [[_ Hm] | [(p & _ & _ & _ & Hm) | (p & _ & _ & _ & Hm)]];
      rewrite Hm; simpl; [exact Hg | exact Hg | apply lockPiece_fresh, Hg].
  - destruct (softDrop_cases w)
      as [[_ Hm] | [(p & _ & _ & _ & Hm) | (p & _ & _ & _ & Hm)]];
      rewrite Hm; simpl; [exact Hg | | apply lockPiece_fresh, Hg].
    destruct (moveDown_cases w)
      as [[_ Hd] | [(p2 & _ & _ & _ & Hd) | (p2 & _ & _ & _ & Hd)]];
      rewrite Hd; simpl; [exact Hg | exact Hg | apply lockPiece_fresh, Hg].
  - destruct (hardDrop_cases w) as [[_ Hm] | (p & w1 & Hrest)].
    + rewrite Hm. exact Hg.
    + unfold hardDrop.
      destruct (negb _); [exact Hg |].
      destruct (currentPiece (getState w)); [| exact Hg].
      apply lockPiece_fresh. destruct (_ >? 0); exact Hg.
  - unfold rotate. repeat break_branch; try exact Hg.
    rewrite tryWallKicks_generator. exact Hg.
  - unfold hold.
    destruct (_ || _); [exact Hg |].
    destruct (currentPiece (getState w)) as [current |]; [| exact Hg].
    destruct (holdPiece (getState w)) as [held |]; [exact Hg |].
    destruct (drawNext w) as [[p queue] w0] eqn:Hdraw.
    apply (drawNext_fresh _ _ _ _ Hg) in Hdraw as [_ Hg0]. exact Hg0.
Qed.

(** In every world a run of actions reaches from process start, the supply
    holds fresh pieces only. *)
Lemma run_fresh (actions : list Action) :
  forall w : World,
    freshSupply (generator w) -> freshSupply (generator (run actions w)).
Proof.
  induction actions as [| a actions' IH]; intros w Hg; simpl;
    [exact Hg |].
  apply IH, perform_fresh, Hg.
Qed.

Lemma initialWorld_fresh (r : Random) (t : Z) :
  freshSupply (generator (initialWorld r t)).
Proof.
  unfold initialWorld, newPieceGenerator.
  destruct (generatePiece [] r) as [[first bg1] r1] eqn:Hfirst.
  simpl. repeat constructor. eapply generatePiece_fresh, Hfirst.
Qed.

(* ================================================================== *)
(** * Hold *)
(* ================================================================== *)

Lemma hold_used_is_noop (w : World) :
  canHold (getState w) = false -> hold w = w.
Proof.
  intros Hused. unfold hold. rewrite Hused. simpl.
  rewrite orb_true_r. reflexivity.
Qed.

Lemma tryWallKicks_canHold
    (state : GameState) (piece : Piece) (direction : RotationDirection)
    (offsets : list (Z * Z)) (w : World) :
  canHold (getState (tryWallKicks state piece direction offsets w))
  = canHold (getState w).
Proof.
  induction offsets as [| [ox oy] offsets' IH]; simpl; [reflexivity |].
  destruct (isValidPosition _ _ _ _); [reflexivity | exact IH].
Qed.

(** Only an action that ends the piece's life can give the hold back. *)
Lemma perform_keeps_hold_used (a : Action) (w : World) :
  canHold (getState w) = false -> endsPiece a w = false ->
  canHold (getState (perform a w)) = false.
Proof.
  intros Hused Hsame. destruct a; simpl in *.
  - apply negb_false_iff in Hsame. unfold startGame. rewrite Hsame.
    exact Hused.
  - unfold pause. break_branch; [simpl |]; exact Hused.
  - unfold resume. break_branch; [simpl |]; exact Hused.
  - unfold moveLeft. repeat break_branch; simpl; exact Hused.
  - unfold moveRight. repeat break_branch; simpl; exact Hused.
  - destruct (moveDown_cases w)
      as [[_ Hm] | [(p & _ & _ & _ & Hm) | (p & Hg & Hc & Hv & _)]].
    + rewrite Hm. exact Hused.
    + rewrite Hm. exact Hused.
    + rewrite Hg, Hc, Hv in Hsame. discriminate Hsame.
  - destruct (softDrop_cases w)
      as [[_ Hm] | [(p & _ & _ & _ & Hm) | (p & Hg & Hc & Hv & _)]].
    + rewrite Hm. exact Hused.
    + rewrite Hm.
      destruct (moveDown_cases w)
        as [[_ Hd] | [(p2 & _ & _ & _ & Hd) | (p2 & Hg & Hc & Hv & _)]].
      * rewrite Hd. exact Hused.
      * rewrite Hd. exact Hused.
      * rewrite Hg, Hc, Hv in Hsame. discriminate Hsame.
    + rewrite Hg, Hc, Hv in Hsame. discriminate Hsame.
  - destruct (hardDrop_cases w) as [[_ Hm] | (p & w1 & Hg & _)].
    + rewrite Hm. exact Hused.
    + congruence.
  - unfold rotate. repeat break_branch; try exact Hused.
    etransitivity; [apply tryWallKicks_canHold | exact Hused].
  - rewrite hold_used_is_noop; exact Hused.
Qed.

Lemma run_keeps_hold_used (actions : list Action) :
  forall w : World,
    canHold (getState w) = false -> samePiece actions w = true ->
    canHold (getState (run actions w)) = false.
Proof.
  induction actions as [| a actions' IH]; intros w Hused Hsame; simpl in *;
    [exact Hused |].
  apply andb_true_iff in Hsame as [Ha Hrest].
  apply negb_true_iff in Ha.
  apply IH; [| exact Hrest].
  apply perform_keeps_hold_used; assumption.
Qed.

(** The claim as the spec words it fails: [canHold] comes back without any
    lock.  After a hold, a pause and a new game (no piece has locked: the
    log holds no lock event) [canHold] is true again and a further [hold]
    changes the world. *)
Lemma C8_new_game_allows_hold_again :
  canHold (getState heldWorld) = false
  /\ hold heldWorld = heldWorld
  /\ Forall (fun e => forall p, e <> GameEvent.PIECE_LOCK p)
            (events restartedWorld)
  /\ status (getState restartedWorld) = GameStatus.PLAYING
  /\ canHold (getState restartedWorld) = true
  /\ holdPiece (getState restartedWorld) = None
  /\ holdPiece (getState (hold restartedWorld))
     = Some (newPiece PieceType.I)
  /\ hold restartedWorld <> restartedWorld.
Proof.
  split; [vm_compute; reflexivity |].
  split; [apply hold_used_is_noop; vm_compute; reflexivity |].
  split; [vm_compute; repeat constructor; intros p H; discriminate H |].
  split; [vm_compute; reflexivity |].
  split; [vm_compute; reflexivity |].
  split; [vm_compute; reflexivity |].
  split; [vm_compute; reflexivity |].
  intros H. apply (f_equal (fun w => holdPiece (getState w))) in H.
  vm_compute in H. discriminate H.
Qed.

(** C8, amended. The life of a hold.  Every spawn (a new game, or the spawn
    sequence passing its check) leaves [canHold] true.  With [canHold]
    true, [hold] puts a base-rotation copy of the falling piece in the hold
    slot, puts the spawn cell in (x, y), and sets [canHold] false; the new
    falling piece is a base-rotation copy of the piece that was held or,
    when nothing was held, the piece drawn from the supply (itself at base
    rotation).  A second [hold] changes nothing, and neither does a [hold]
    after any actions that do not end the piece's life, that is, among
    which there is neither a lock nor a new game. *)
Theorem C8_hold_lifecycle
    (w : World) (current : Piece) (actions : list Action) :
  (status (getState w) <> GameStatus.PLAYING ->
   canHold (getState (startGame w)) = true)
  /\ (forall (p : Piece) (queue : list Piece) (w1 : World),
         drawNext w = (p, queue, w1) ->
         isValidPosition (board (getState w)) p SPAWN_X SPAWN_Y = true ->
         canHold (getState (spawnNextPiece w)) = true)
  /\ (canMove (getState w) = true ->
      currentPiece (getState w) = Some current ->
      canHold (getState w) = true ->
      freshSupply (generator w) ->
      let s := getState w in
      let w' := hold w in
      let s' := getState w' in
      holdPiece s' = Some (mkPiece (ptype current) 0)
      /\ currentX s' = SPAWN_X /\ currentY s' = SPAWN_Y
      /\ canHold s' = false
      /\ board s' = board s
      /\ events w' = events w ++ [GameEvent.HOLD_PIECE]
      /\ match holdPiece s with
         | Some held =>
             currentPiece s' = Some (mkPiece (ptype held) 0)
             /\ generator w' = generator w
         | None =>
             currentPiece s' = Some (previewHead (generator w))
             /\ rotation (previewHead (generator w)) = 0
             /\ (previewHead (generator w), generator w', random w')
                = next (generator w) (random w)
         end
      /\ hold w' = w'
      /\ (samePiece actions w' = true ->
          canHold (getState (run actions w')) = false
          /\ hold (run actions w') = run actions w')).
Proof.
  split; [| split].
  - intros Hnot. unfold startGame.
    rewrite bool_decide_eq_false_2 by exact Hnot.
    destruct (resetGenerator _ _) as [g r].
    destruct (drawNext _) as [[p queue] w3]. reflexivity.
  - intros p queue w1 Hdraw Hfits.
    rewrite (spawnNextPiece_cases _ _ _ _ Hdraw), Hfits. reflexivity.
  - intros Hguard Hcur Hcan Hfresh. cbv zeta.
    remember (hold w) as w' eqn:Hw'.
    assert (w' =
            emit GameEvent.HOLD_PIECE
              match holdPiece (getState w) with
              | None =>
                  let '(nextPiece, nextPieces, w0) := drawNext w in
                  setState [currentPiece_ (Some nextPiece);
                            currentX_ SPAWN_X; currentY_ SPAWN_Y;
                            holdPiece_ (Some (newPiece (ptype current)));
                            canHold_ false; nextPieces_ nextPieces;
                            isDirty_ true] w0
              | Some held =>
                  setState [currentPiece_ (Some (newPiece (ptype held)));
                            currentX_ SPAWN_X; currentY_ SPAWN_Y;
                            holdPiece_ (Some (newPiece (ptype current)));
                            canHold_ false; isDirty_ true] w
              end) as Hshape.
    { subst w'. unfold hold. rewrite Hguard, Hcan, Hcur. reflexivity. }
    clear Hw'.
    pose proof (fun p q w0 => drawNext_frame w w0 p q) as Hframe.
    pose proof (fun p q w0 => drawNext_fresh w w0 p q Hfresh) as Hrot.
    assert (canHold (getState w') = false) as Hused.
    { rewrite Hshape. destruct (holdPiece (getState w)); [reflexivity |].
      destruct (drawNext w) as [[p queue] w0]. reflexivity. }
    repeat match goal with |- _ /\ _ => split end.
    + rewrite Hshape. destruct (holdPiece (getState w)); [reflexivity |].
      destruct (drawNext w) as [[p queue] w0]. reflexivity.
    + rewrite Hshape. destruct (holdPiece (getState w)); [reflexivity |].
      destruct (drawNext w) as [[p queue] w0]. reflexivity.
    + rewrite Hshape. destruct (holdPiece (getState w)); [reflexivity |].
      destruct (drawNext w) as [[p queue] w0]. reflexivity.
    + exact Hused.
    + rewrite Hshape. destruct (holdPiece (getState w)); [reflexivity |].
      destruct (drawNext w) as [[p queue] w0].
      destruct (Hframe p queue w0 eq_refl) as (Hs & _).
      simpl. unfold getState. rewrite Hs. reflexivity.
    + rewrite Hshape. destruct (holdPiece (getState w)); [reflexivity |].
      destruct (drawNext w) as [[p queue] w0].
      destruct (Hframe p queue w0 eq_refl) as (_ & He & _).
      simpl. rewrite He. reflexivity.
    + rewrite Hshape.
      destruct (holdPiece (getState w)) as [held |]; [split; reflexivity |].
      unfold drawNext in *.
      destruct (next (generator w) (random w)) as [[p g] r].
      destruct (Hframe p (getPreview g)
                  (mkWorld (store w) (notifications w) (events w) g r (now w))
                  eq_refl) as (_ & _ & _ & _ & Hp & _).
      destruct (Hrot p (getPreview g)
                  (mkWorld (store w) (notifications w) (events w) g r (now w))
                  eq_refl) as (Hp0 & _).
      subst p. simpl. repeat split. exact Hp0.
    + apply hold_used_is_noop, Hused.
    + intros Hsame.
      assert (canHold (getState (run actions w')) = false) as Hrun
        by (apply run_keeps_hold_used; assumption).
      split; [exact Hrun | apply hold_used_is_noop, Hrun].
Qed.

(** C8 at work: the first piece of a game (an I) is held; the piece is then
    moved, turned, lowered, and the game paused and resumed; a second hold
    changes nothing. *)
Lemma C8_hold_lifecycle_witness :
  let w := startGame (initialWorld (tapeOf []) 0) in
  let actions :=
    [MoveLeft; Rotate clockwise; MoveDown; Hold; Pause; Resume; MoveRight] in
  holdPiece (getState (hold w)) = Some (newPiece PieceType.I)
  /\ canHold (getState (hold w)) = false
  /\ hold (hold w) = hold w
  /\ hold (run actions (hold w)) = run actions (hold w).
Proof.
  intros w actions.
  destruct (C8_hold_lifecycle w (newPiece PieceType.I) actions)
    as (_ & _ & H).
  destruct H as (H1 & _ & _ & H4 & _ & _ & _ & H8 & H9).
  - vm_compute. reflexivity.
  - reflexivity.
  - reflexivity.
  - apply (perform_fresh StartGame), initialWorld_fresh.
  - destruct H9 as [_ H9]; [vm_compute; reflexivity |].
    exact (conj H1 (conj H4 (conj H8 H9))).
Defined.

(* ================================================================== *)
(** * Rotation with wall kicks *)
(* ================================================================== *)

Lemma clonePiece_id (p : Piece) : clonePiece p = p.
Proof. destruct p. reflexivity. Qed.

(** The world after a committed rotation that shifts the piece by
    [(dx, dy)]: piece turned in place, position stored, one rotate event. *)
Lemma tryWallKicks_spec
    (w : World) (piece : Piece) (direction : RotationDirection)
    (offsets : list (Z * Z)) :
  let s := getState w in
  let fits := fun o : Z * Z =>
    isValidPosition (board s) piece (currentX s + fst o) (currentY s + snd o) in
  tryWallKicks s piece direction offsets w =
    match List.find fits offsets with
    | Some (dx, dy) =>
        emit (GameEvent.PIECE_ROTATE direction)
          (setState [currentX_ (currentX s + dx); currentY_ (currentY s + dy);
                     isDirty_ true]
             (onCurrentPiece (rotatePiece direction) w))
    | None => w
    end.
Proof.
  cbv zeta. induction offsets as [| [ox oy] offsets' IH]; simpl;
    [reflexivity |].
  destruct (isValidPosition _ _ _ _); [reflexivity | exact IH].
Qed.

(** C5. In a PLAYING state with a current piece, [rotate] tests the rotated
    clone at (x, y), then at (x, y) shifted by (-1,0), (+1,0), (0,-1),
    (-2,0), (+2,0), in this order.  With the first position that is valid
    it commits: the piece is rotated, the position stored, the dirty flag
    set and one rotate event emitted (the board is untouched).  If none is
    valid the world is returned as it was: no mutation, no event. *)
Theorem C5_rotate_tries_kicks_in_order
    (w : World) (direction : RotationDirection) (current : Piece) :
  status (getState w) = GameStatus.PLAYING ->
  currentPiece (getState w) = Some current ->
  let s := getState w in
  let rotated := rotatePiece direction current in
  let fits := fun o : Z * Z =>
    isValidPosition (board s) rotated (currentX s + fst o)
                    (currentY s + snd o) in
  match List.find fits [(0, 0); (-1, 0); (1, 0); (0, -1); (-2, 0); (2, 0)] with
  | Some (dx, dy) =>
      let s' := getState (rotate direction w) in
      currentPiece s' = Some rotated
      /\ currentX s' = currentX s + dx
      /\ currentY s' = currentY s + dy
      /\ isDirty s' = true
      /\ board s' = board s
      /\ status s' = status s
      /\ events (rotate direction w) =
           events w ++ [GameEvent.PIECE_ROTATE direction]
  | None => rotate direction w = w
  end.
Proof.
  intros Hstatus Hcur s rotated fits.
  assert (canMove s = true) as Hguard.
  { unfold canMove. subst s. rewrite Hstatus, Hcur. reflexivity. }
  assert (rotate direction w =
          if fits (0, 0)
          then emit (GameEvent.PIECE_ROTATE direction)
                 (setState [isDirty_ true]
                    (onCurrentPiece (rotatePiece direction) w))
          else tryWallKicks s rotated direction wallKickOffsets w) as ->.
  { unfold rotate. fold s. rewrite Hguard. subst s. rewrite Hcur.
    rewrite clonePiece_id. fold rotated. unfold fits. simpl fst. simpl snd.
    rewrite !Z.add_0_r. reflexivity. }
  change (List.find fits ((0, 0) :: ?l))
    with (if fits (0, 0) then Some (0, 0) else List.find fits l).
  destruct (fits (0, 0)).
  - subst s. unfold getState in *. simpl. rewrite Hcur, !Z.add_0_r.
    repeat split.
  - subst s. rewrite (tryWallKicks_spec w rotated direction wallKickOffsets).
    unfold wallKickOffsets. fold fits.
    destruct (List.find fits _) as [[dx dy] |]; [| reflexivity].
    unfold getState in *. simpl. rewrite Hcur. repeat split.
Qed.

(** C5 at work: the upright I piece against the right wall cannot lie down
    where it is (it would cross the wall); the first offset, one cell to
    the left, is taken. *)
Lemma C5_rotate_witness :
  currentPiece (getState (rotate clockwise kickWorld))
    = Some (mkPiece PieceType.I 2)
  /\ currentX (getState (rotate clockwise kickWorld)) = 8
  /\ currentY (getState (rotate clockwise kickWorld))
       = currentY (getState kickWorld).
Proof.
  pose proof (C5_rotate_tries_kicks_in_order kickWorld clockwise
                (mkPiece PieceType.I 1)) as H.
  cbv zeta in H.
  replace (List.find _ _) with (Some (-1, 0)) in H
    by (vm_compute; reflexivity).
  destruct H as (H1 & H2 & H3 & _).
  - vm_compute. reflexivity.
  - vm_compute. reflexivity.
  - rewrite H1, H2, H3. repeat split; vm_compute; reflexivity.
Defined.

(* ================================================================== *)
(** * The status machine *)
(* ================================================================== *)

Lemma lockPiece_status (w : World) :
  status (getState (lockPiece w)) = status (getState w)
  \/ status (getState (lockPiece w)) = GameStatus.GAME_OVER.
Proof.
  destruct (currentPiece (getState w)) as [piece |] eqn:Hcur.
  - destruct (drawNext (placeAndScore w piece)) as [[drawn queue] w2]
      eqn:Hdraw.
    pose proof (lockPiece_cases w w2 piece drawn queue Hcur Hdraw) as Hcases.
    cbv zeta in Hcases.
    destruct (isValidPosition _ _ _ _); destruct Hcases as (Hst & _); tauto.
  - unfold lockPiece. rewrite Hcur. tauto.
Qed.

(** The claim as the spec words it fails: [startGame] called on the paused
    game does not leave it alone; it starts a new game (status PLAYING,
    score back to 0, board cleared). *)
Lemma C4_startGame_restarts_a_paused_game :
  status (getState pausedWorld) = GameStatus.PAUSED
  /\ score (getState pausedWorld) = Int 36
  /\ status (getState (startGame pausedWorld)) = GameStatus.PLAYING
  /\ score (getState (startGame pausedWorld)) = Int 0
  /\ board (getState (startGame pausedWorld))
       <> board (getState pausedWorld)
  /\ startGame pausedWorld <> pausedWorld.
Proof.
  repeat split; try (vm_compute; reflexivity).
  - intros H. apply (f_equal (fun b => getCell b 4 19)) in H.
    vm_compute in H. discriminate H.
  - intros H. apply (f_equal (fun w => status (getState w))) in H.
    vm_compute in H. discriminate H.
Qed.

(** C4, amended. Every action changes the status along one of these edges
    or not at all: [startGame] from any status but PLAYING to PLAYING;
    [pause] from PLAYING to PAUSED; [resume] from PAUSED to PLAYING; a lock
    (through [moveDown], [softDrop] or [hardDrop]) from PLAYING to
    GAME_OVER.  [startGame] is a no-op exactly while PLAYING; from MENU,
    GAME_OVER and also PAUSED it starts a new game: status PLAYING, board
    cleared, a piece at the spawn cell, nothing held, [canHold] true, score
    0, no lines, level 1, the initial gravity interval, dirty.  Every other
    request is a no-op on the whole world (state, log, notifications,
    supply): [pause] unless PLAYING, [resume] unless PAUSED, and, while the
    status is not PLAYING, every action but [startGame] and, when PAUSED,
    [resume]. *)
Theorem C4_status_transitions (a : Action) (w : World) :
  let s := status (getState w) in
  let s' := status (getState (perform a w)) in
  (s' = s
   \/ (a = StartGame /\ s <> GameStatus.PLAYING /\ s' = GameStatus.PLAYING)
   \/ (a = Pause /\ s = GameStatus.PLAYING /\ s' = GameStatus.PAUSED)
   \/ (a = Resume /\ s = GameStatus.PAUSED /\ s' = GameStatus.PLAYING)
   \/ ((a = MoveDown \/ a = SoftDrop \/ a = HardDrop)
       /\ s = GameStatus.PLAYING /\ s' = GameStatus.GAME_OVER))
  /\ (s = GameStatus.PLAYING -> startGame w = w)
  /\ (s <> GameStatus.PLAYING ->
      let t := getState (startGame w) in
      status t = GameStatus.PLAYING
      /\ board t = clearBoard (board (getState w))
      /\ currentPiece t <> None
      /\ currentX t = SPAWN_X /\ currentY t = SPAWN_Y
      /\ holdPiece t = None /\ canHold t = true
      /\ score t = Int 0 /\ lines t = 0 /\ level t = 1
      /\ dropInterval t = INITIAL_DROP_INTERVAL
      /\ isDirty t = true)
  /\ (s <> GameStatus.PLAYING -> pause w = w)
  /\ (s <> GameStatus.PAUSED -> resume w = w)
  /\ (s <> GameStatus.PLAYING -> a <> StartGame ->
      (a = Resume -> s <> GameStatus.PAUSED) ->
      perform a w = w).
Proof.
  intros s s'.
  assert (s <> GameStatus.PLAYING -> pause w = w) as Hpause.
  { intros Hnot. unfold pause. fold s.
    rewrite bool_decide_eq_false_2 by exact Hnot. reflexivity. }
  assert (s <> GameStatus.PAUSED -> resume w = w) as Hresume.
  { intros Hnot. unfold resume. fold s.
    rewrite bool_decide_eq_false_2 by exact Hnot. reflexivity. }
  split; [| split; [| split; [| split; [exact Hpause |
                                        split; [exact Hresume |]]]]].
  4: { intros Hnot Hstart Hres.
       assert (canMove (getState w) = false) as Hguard
         by (apply canMove_false; left; exact Hnot).
       destruct a; simpl.
       - congruence.
       - apply Hpause, Hnot.
       - apply Hresume, Hres. reflexivity.
       - unfold moveLeft. rewrite Hguard. reflexivity.
       - unfold moveRight. rewrite Hguard. reflexivity.
       - unfold moveDown. rewrite Hguard. reflexivity.
       - unfold softDrop. rewrite Hguard. reflexivity.
       - unfold hardDrop. rewrite Hguard. reflexivity.
       - unfold rotate. rewrite Hguard. reflexivity.
       - unfold hold. rewrite Hguard. reflexivity. }
  - subst s s'. destruct a; simpl.
    + destruct (startGame_cases w) as [[_ Heq] | [Hnot Hst]].
      * left. rewrite Heq. reflexivity.
      * right. left. tauto.
    + destruct (pause_cases w) as [[Hst Hst'] | [_ Heq]].
      * right. right. left. tauto.
      * left. rewrite Heq. reflexivity.
    + destruct (resume_cases w) as [[Hst Hst'] | [_ Heq]].
      * right. right. right. left. tauto.
      * left. rewrite Heq. reflexivity.
    + left. apply moveLeft_status.
    + left. apply moveRight_status.
    + destruct (moveDown_cases w)
        as [[_ Hm] | [(p & _ & _ & _ & Hm) | (p & Hg & _ & _ & Hm)]];
        rewrite Hm; simpl; [tauto | tauto |].
      apply canMove_true in Hg as [Hst _].
      destruct (lockPiece_status w) as [Hl | Hl]; [tauto |].
      right. right. right. right. tauto.
    + destruct (softDrop_cases w)
        as [[_ Hm] | [(p & _ & Hc & Hv & Hm) | (p & Hg & _ & _ & Hm)]];
        rewrite Hm; [tauto | |].
      * destruct (moveDown_cases w)
          as [[_ Hd] | [(p2 & _ & _ & _ & Hd) | (p2 & _ & Hc2 & Hv2 & _)]];
          [rewrite Hd; simpl; tauto | rewrite Hd; simpl; tauto | congruence].
      * apply canMove_true in Hg as [Hst _].
        destruct (lockPiece_status w) as [Hl | Hl]; [tauto |].
        right. right. right. right. tauto.
    + destruct (hardDrop_cases w)
        as [[_ Hm] | (p & w1 & Hg & _ & _ & Hst1 & _ & _ & _ & _ & _ & Hm)];
        rewrite Hm; [tauto |].
      apply canMove_true in Hg as [Hst _].
      destruct (lockPiece_status w1) as [Hl | Hl].
      * left. congruence.
      * right. right. right. right. tauto.
    + left. apply rotate_status.
    + left. apply hold_status.
  - intros Hplaying. unfold startGame. fold s.
    rewrite bool_decide_eq_true_2 by exact Hplaying. reflexivity.
  - intros Hnot. unfold startGame. fold s.
    rewrite bool_decide_eq_false_2 by exact Hnot.
    destruct (resetGenerator _ _) as [g r].
    destruct (drawNext _) as [[p queue] w3] eqn:Hdraw.
    apply drawNext_frame in Hdraw as (Hs & _).
    simpl. unfold getState. rewrite Hs. simpl.
    repeat split. discriminate.
Qed.

(** C4 at work on the paused game: [startGame] starts afresh. *)
Lemma C4_status_transitions_witness :
  status (getState (startGame pausedWorld)) = GameStatus.PLAYING
  /\ score (getState (startGame pausedWorld)) = Int 0
  /\ lines (getState (startGame pausedWorld)) = 0.
Proof.
  destruct (C4_status_transitions StartGame pausedWorld)
    as (_ & _ & H & _).
  destruct H as (H1 & _ & _ & _ & _ & _ & _ & H8 & H9 & _).
  - vm_compute. discriminate.
  - exact (conj H1 (conj H8 H9)).
Defined.

(* ================================================================== *)
(** * The 7-bag *)
(* ================================================================== *)

Section Shuffle.

Context {A : Type}.

Lemma insert_cons_perm (l : list A) :
  forall (j : nat) (x y : A),
    l !! j = Some y -> y :: <[j := x]> l ≡ₚ x :: l.
Proof.
  induction l as [| a l IH]; intros [| j] x y Hj; simpl in *;
    try discriminate.
  - injection Hj as ->. apply perm_swap.
  - rewrite perm_swap. rewrite (IH j x y Hj). apply perm_swap.
Qed.

(** Exchanging two cells of an array permutes it. *)
Lemma swap_perm (a : list A) (i j : nat) : swap a i j ≡ₚ a.
Proof.
  unfold swap.
  destruct (a !! i) as [ai |] eqn:Hi; [| reflexivity].
  destruct (a !! j) as [aj |] eqn:Hj; [| reflexivity].
  assert (<[i := aj]> a !! j = Some aj) as Hj'.
  { destruct (decide (i = j)) as [-> | Hne].
    - apply list_lookup_insert_eq. eapply lookup_lt_Some, Hj.
    - rewrite list_lookup_insert_ne by exact Hne. exact Hj. }
  apply (Permutation_cons_inv (a := aj)).
  rewrite (insert_cons_perm _ j ai aj Hj').
  apply (insert_cons_perm a i aj ai Hi).
Qed.

Lemma shuffleLoop_perm (i : nat) :
  forall (shuffled : list A) (r : Random),
    fst (shuffleLoop i shuffled r) ≡ₚ shuffled.
Proof.
  induction i as [| i IH]; intros shuffled r; simpl; [reflexivity |].
  rewrite IH. apply swap_perm.
Qed.

(** Whatever the oracle answers, the shuffle returns a permutation. *)
Lemma shuffleArray_perm (array : list A) (r : Random) :
  fst (shuffleArray array r) ≡ₚ array.
Proof. apply shuffleLoop_perm. Qed.

Lemma pop_snoc (l : list A) (x : A) : pop (l ++ [x]) = (Some x, l).
Proof. unfold pop. rewrite last_snoc, removelast_last. reflexivity. Qed.

End Shuffle.

Lemma refillBag_perm (r : Random) : fst (refillBag r) ≡ₚ PieceType_values.
Proof. apply shuffleArray_perm. Qed.

Lemma refillBag_length (r : Random) : length (fst (refillBag r)) = 7%nat.
Proof. rewrite refillBag_perm. reflexivity. Qed.

(** A bag that is not empty yields its last kind and is not refilled. *)
Lemma generatePiece_snoc (bg : list PieceType.t) (t : PieceType.t)
    (r : Random) :
  generatePiece (bg ++ [t]) r = (newPiece t, bg, r).
Proof.
  unfold generatePiece.
  rewrite length_app. simpl length.
  replace (length bg + 1 =? 0)%nat with false
    by (symmetry; apply Nat.eqb_neq; lia).
  rewrite pop_snoc. reflexivity.
Qed.

(** An empty bag is refilled first. *)
Lemma generatePiece_nil (r : Random) :
  generatePiece [] r =
    let '(bg1, r1) := refillBag r in
    match pop bg1 with
    | (Some type, bg2) => (newPiece type, bg2, r1)
    | (None, bg2) => (newPiece PieceType.I, bg2, r1)
    end.
Proof. reflexivity. Qed.

(** [pop()!] never meets an empty bag: for every bag and every oracle the
    piece drawn is of the kind popped, so the [None] branch of
    [generatePiece] is dead code. *)
Lemma generatePiece_pops (bg : list PieceType.t) (r : Random) :
  exists (rest : list PieceType.t) (t : PieceType.t),
    (if (length bg =? 0)%nat then fst (refillBag r) else bg) = rest ++ [t]
    /\ fst (fst (generatePiece bg r)) = newPiece t
    /\ snd (fst (generatePiece bg r)) = rest.
Proof.
  destruct bg as [| t0 bg0] using rev_ind.
  - pose proof (shuffleArray_perm PieceType_values r) as Hperm.
    rewrite generatePiece_nil.
    change (length (@nil PieceType.t) =? 0)%nat with true. cbv iota.
    unfold refillBag.
    destruct (shuffleArray PieceType_values r) as [bg1 r1].
    simpl fst in *.
    destruct bg1 as [| t bg1 _] using rev_ind.
    + apply Permutation_length in Hperm. discriminate Hperm.
    + exists bg1, t. rewrite last_snoc, removelast_last. tauto.
  - exists bg0, t0. rewrite generatePiece_snoc.
    rewrite length_app. simpl.
    replace (length bg0 + 1 =? 0)%nat with false
      by (symmetry; apply Nat.eqb_neq; lia).
    tauto.
Qed.

(** Drawing a bag to exhaustion gives its kinds from last to first. *)
Lemma generatePieces_exhaust (bg : list PieceType.t) (r : Random) :
  generatePieces (length bg) bg r = (map newPiece (reverse bg), [], r).
Proof.
  induction bg as [| t bg IH] using rev_ind; [reflexivity |].
  rewrite length_app, Nat.add_comm. simpl.
  rewrite generatePiece_snoc, IH, reverse_snoc. reflexivity.
Qed.

(** Seven draws from an empty bag: one shuffle, then the shuffled kinds
    from last to first, and the bag is empty again. *)
Lemma generatePieces_bag (r : Random) :
  generatePieces 7 [] r =
    (map newPiece (reverse (fst (refillBag r))), [], snd (refillBag r)).
Proof.
  pose proof (shuffleArray_perm PieceType_values r) as Hperm.
  change (generatePieces 7 [] r)
    with (let '(p, bg1, r1) := generatePiece [] r in
          let '(ps, bg2, r2) := generatePieces 6 bg1 r1 in
          (p :: ps, bg2, r2)).
  rewrite generatePiece_nil. unfold refillBag.
  destruct (shuffleArray PieceType_values r) as [bg1 r1]. simpl in Hperm.
  simpl fst. simpl snd.
  destruct bg1 as [| t bg1 _] using rev_ind.
  - apply Permutation_length in Hperm. discriminate Hperm.
  - rewrite pop_snoc, reverse_snoc.
    apply Permutation_length in Hperm. rewrite length_app in Hperm.
    simpl in Hperm.
    replace 6%nat with (length bg1) by lia.
    rewrite generatePieces_exhaust. reflexivity.
Qed.

Lemma generatePieces_app (n m : nat) :
  forall (bg : list PieceType.t) (r : Random),
    generatePieces (n + m) bg r =
      let '(ps1, bg1, r1) := generatePieces n bg r in
      let '(ps2, bg2, r2) := generatePieces m bg1 r1 in
      (ps1 ++ ps2, bg2, r2).
Proof.
  induction n as [| n IH]; intros bg r; simpl.
  - destruct (generatePieces m bg r) as [[ps2 bg2] r2]. reflexivity.
  - destruct (generatePiece bg r) as [[p bg0] r0].
    rewrite IH.
    destruct (generatePieces n bg0 r0) as [[ps1 bg1] r1].
    destruct (generatePieces m bg1 r1) as [[ps2 bg2] r2]. reflexivity.
Qed.

(** After any whole number of bags the bag is empty again. *)
Lemma generatePieces_bags (k : nat) :
  forall r : Random,
    exists (ps : list Piece) (r' : Random),
      generatePieces (7 * k) [] r = (ps, [], r')
      /\ length ps = (7 * k)%nat.
Proof.
  induction k as [| k IH]; intros r.
  - exists [], r. split; reflexivity.
  - replace (7 * S k)%nat with (7 + 7 * k)%nat by lia.
    rewrite generatePieces_app, generatePieces_bag.
    destruct (IH (snd (refillBag r))) as (ps & r' & Hps & Hlen).
    rewrite Hps. eexists _, r'. split; [reflexivity |].
    rewrite length_app, length_map, length_reverse, Hlen, refillBag_length.
    reflexivity.
Qed.

(** The claim as the spec words it fails for a sequence of draws that
    spans a [reset()]: the window that begins at the constructor's refill
    holds the constructor's draw and six draws of the bag [startGame]
    refills after emptying it; here the I comes twice and no O comes. *)
Lemma C9_reset_breaks_a_window :
  length (bag (fst (newPieceGenerator 0 (tapeOf [])))) = 6%nat
  /\ map ptype restartWindow
     = [PieceType.I; PieceType.I; PieceType.L; PieceType.J; PieceType.Z;
        PieceType.S; PieceType.T]
  /\ length (filter (fun t => t = PieceType.I) (map ptype restartWindow))
     = 2%nat
  /\ length (filter (fun t => t = PieceType.O) (map ptype restartWindow))
     = 0%nat
  /\ ~ map ptype restartWindow ≡ₚ PieceType_values.
Proof.
  assert (map ptype restartWindow
          = [PieceType.I; PieceType.I; PieceType.L; PieceType.J; PieceType.Z;
             PieceType.S; PieceType.T]) as Hwindow
    by (vm_compute; reflexivity).
  split; [vm_compute; reflexivity |].
  split; [exact Hwindow |]. rewrite Hwindow.
  split; [reflexivity |]. split; [reflexivity |].
  intros Hperm.
  assert (length (filter (fun t => t = PieceType.O) PieceType_values)
          = 0%nat) as Hcount by (rewrite <- Hperm; reflexivity).
  discriminate Hcount.
Qed.

(** C9, amended. Start from an empty bag (as the constructor and [reset]
    do) and draw for ever, with no [reset] in between: whatever the oracle
    answers, draw number [7 * k] finds the bag empty and refills it, and
    the window of the seven draws from there on contains each of the seven
    kinds exactly once. *)
Theorem C9_seven_bag (r : Random) (k : nat) :
  let ps := fst (fst (generatePieces (7 * (k + 1)) [] r)) in
  let window := take 7 (drop (7 * k) ps) in
  snd (fst (generatePieces (7 * k) [] r)) = []
  /\ length window = 7%nat
  /\ map ptype window ≡ₚ PieceType_values
  /\ (forall kind : PieceType.t,
         length (filter (fun t => t = kind) (map ptype window)) = 1%nat).
Proof.
  intros ps window.
  destruct (generatePieces_bags k r) as (before & r' & Hbefore & Hlen).
  assert (window = map newPiece (reverse (fst (refillBag r')))) as Hwindow.
  { subst window ps.
    replace (7 * (k + 1))%nat with (7 * k + 7)%nat by lia.
    rewrite generatePieces_app, Hbefore, generatePieces_bag. cbn [fst].
    rewrite drop_app_length' by (symmetry; exact Hlen).
    apply take_ge.
    rewrite length_map, length_reverse, refillBag_length. reflexivity. }
  assert (map ptype window ≡ₚ PieceType_values) as Hperm.
  { rewrite Hwindow, map_map. cbn [ptype newPiece].
    rewrite map_id, reverse_Permutation. apply refillBag_perm. }
  split; [rewrite Hbefore; reflexivity |].
  split; [rewrite <- (length_map ptype), Hperm; reflexivity |].
  split; [exact Hperm |].
  intros kind. rewrite Hperm. destruct kind; reflexivity.
Qed.

(* ================================================================== *)
(** * The collision invariant *)
(* ================================================================== *)

(** C2 (the code departs from the claim). The game of [towerTape]: start,
    drop ten pieces straight down, hold.  Before the hold the I piece sits
    in a valid position at the spawn cell, above a stack that reaches
    row 2.  [hold] puts the J piece drawn from the supply at the spawn cell
    without the check the spawn sequence makes: the state is PLAYING, the
    current piece exists, and its cell (5, 2) lies on a locked cell. *)
Theorem C2_hold_breaks_the_collision_invariant :
  let before := run towerActions (initialWorld towerTape 0) in
  let after := run (towerActions ++ [Hold]) (initialWorld towerTape 0) in
  status (getState before) = GameStatus.PLAYING
  /\ currentPiece (getState before) = Some (newPiece PieceType.I)
  /\ pieceInValidPosition before = true
  /\ status (getState after) = GameStatus.PLAYING
  /\ currentPiece (getState after) = Some (newPiece PieceType.J)
  /\ currentX (getState after) = 4 /\ currentY (getState after) = 0
  /\ occupied (getShape (newPiece PieceType.J)) 2 1
  /\ getCell (board (getState after)) (4 + 1) (0 + 2) = 84
  /\ pieceInValidPosition after = false.
Proof.
  repeat split; try (vm_compute; reflexivity).
  exists [1; 1; 1; 0], 1. repeat split. discriminate.
Qed.

(* ================================================================== *)
(** * The catalogue, and the hard-drop distance *)
(* ================================================================== *)

Lemma newPiece_catalogue (t : PieceType.t) : cataloguePiece (newPiece t).
Proof. unfold cataloguePiece. simpl. lia. Qed.

(** [rotate] keeps the rotation index in 0..3. *)
Lemma rotatePiece_catalogue (direction : RotationDirection) (p : Piece) :
  0 <= rotation p -> cataloguePiece (rotatePiece direction p).
Proof.
  intros Hp. unfold cataloguePiece. destruct direction; simpl.
  - apply Z.rem_bound_pos; lia.
  - apply Z.rem_bound_pos; lia.
Qed.

Lemma catalogue_proper (p : Piece) :
  cataloguePiece p -> properShape (getShape p) = true.
Proof.
  destruct p as [t r]. unfold cataloguePiece. simpl. intros Hr.
  assert (r = 0 \/ r = 1 \/ r = 2 \/ r = 3) as [-> | [-> | [-> | ->]]]
    by lia; destruct t; reflexivity.
Qed.

Lemma properShape_occupied (shape : Shape) :
  properShape shape = true -> exists row col : nat, occupied shape row col.
Proof.
  unfold properShape. intros H.
  apply andb_true_iff in H as [_ H].
  apply existsb_exists in H as (cells & Hcells & H).
  apply existsb_exists in H as (c & Hc & Hnz).
  apply list_elem_of_In, list_elem_of_lookup in Hcells as [row Hrow].
  apply list_elem_of_In, list_elem_of_lookup in Hc as [col Hcol].
  exists row, col, cells, c. repeat split; try assumption.
  apply negb_true_iff, Z.eqb_neq in Hnz. exact Hnz.
Qed.

Lemma properShape_bounds (shape : Shape) (row col : nat) :
  properShape shape = true -> occupied shape row col ->
  (row < 4)%nat /\ (col < 4)%nat.
Proof.
  unfold properShape. intros H (cells & c & Hrow & Hcol & _).
  apply andb_true_iff in H as [H _].
  apply andb_true_iff in H as [Hlen Hall].
  apply Nat.eqb_eq in Hlen.
  rewrite forallb_forall in Hall.
  split.
  - rewrite <- Hlen. eapply lookup_lt_Some, Hrow.
  - assert (In cells shape) as Hin
      by (apply list_elem_of_In, list_elem_of_lookup; eauto).
    apply Hall, Nat.eqb_eq in Hin. rewrite <- Hin.
    eapply lookup_lt_Some, Hcol.
Qed.

(** A catalogue piece in a valid position is above the floor. *)
Lemma valid_above_floor (b : Board) (p : Piece) (x y : Z) :
  cataloguePiece p -> isValidPosition b p x y = true -> y < height b.
Proof.
  intros Hp Hvalid.
  destruct (properShape_occupied _ (catalogue_proper p Hp))
    as (row & col & Hocc).
  rewrite isValidPosition_spec in Hvalid.
  destruct (Hvalid row col Hocc) as (_ & Hfloor & _). lia.
Qed.

Section HardDrop.

Variables (b : Board) (p : Piece) (x y : Z).
Hypothesis Hp : cataloguePiece p.

Lemma dropLoop_stops (fuel : nat) :
  forall d : Z,
    height b <= y + d + 1 + Z.of_nat fuel ->
    isValidPosition b p x (y + dropLoop fuel b p x y d + 1) = false.
Proof.
  induction fuel as [| fuel IH]; intros d Hfuel; simpl.
  - destruct (isValidPosition b p x (y + d + 1)) eqn:Hvalid;
      [| reflexivity].
    apply (valid_above_floor _ _ _ _ Hp) in Hvalid. lia.
  - destruct (isValidPosition b p x (y + d + 1)) eqn:Hvalid;
      [| exact Hvalid].
    apply IH. lia.
Qed.

Lemma dropLoop_valid (fuel : nat) :
  forall d : Z,
    0 <= d ->
    isValidPosition b p x (y + d) = true ->
    d <= dropLoop fuel b p x y d
    /\ isValidPosition b p x (y + dropLoop fuel b p x y d) = true.
Proof.
  induction fuel as [| fuel IH]; intros d Hd Hvalid; simpl.
  - split; [lia | exact Hvalid].
  - destruct (isValidPosition b p x (y + d + 1)) eqn:Hnext.
    + destruct (IH (d + 1)) as [Hle Hv]; [lia | |].
      * rewrite Z.add_assoc. exact Hnext.
      * split; [lia | exact Hv].
    + split; [lia | exact Hvalid].
Qed.

(** [getHardDropDistance] is the loop of the source: the position one row
    below the distance returned is not valid, so the bound on the
    iterations is never what stops the loop. *)
Lemma getHardDropDistance_stops :
  isValidPosition b p x (y + getHardDropDistance b p x y + 1) = false.
Proof. unfold getHardDropDistance. apply dropLoop_stops. lia. Qed.

(** From a valid position the distance is not negative and leads to a valid
    position. *)
Lemma getHardDropDistance_valid :
  isValidPosition b p x y = true ->
  0 <= getHardDropDistance b p x y
  /\ isValidPosition b p x (y + getHardDropDistance b p x y) = true.
Proof.
  intros Hvalid. unfold getHardDropDistance.
  apply dropLoop_valid; [lia | rewrite Z.add_0_r; exact Hvalid].
Qed.

End HardDrop.

(* ================================================================== *)
(** * Where the collision invariant does hold *)
(* ================================================================== *)

Lemma foldl_dims {A : Type} (f : Board -> A -> Board) (l : list A) :
  (forall (b : Board) (a : A),
      width (f b a) = width b /\ height (f b a) = height b) ->
  forall b : Board,
    width (foldl f b l) = width b /\ height (foldl f b l) = height b.
Proof.
  intros Hf. induction l as [| a l IH]; intros b; simpl; [tauto |].
  destruct (IH (f b a)) as [-> ->]. apply Hf.
Qed.

Lemma clearLine_dims (b : Board) (lineY : Z) :
  width (clearLine b lineY) = width b
  /\ height (clearLine b lineY) = height b.
Proof.
  unfold clearLine, clearTopRow.
  match goal with
  | |- context [foldl copyRowDown b ?l] =>
      assert (width (foldl copyRowDown b l) = width b
              /\ height (foldl copyRowDown b l) = height b) as [Hw Hh]
  end.
  { apply foldl_dims. intros b' y. unfold copyRowDown.
    apply foldl_dims. intros b'' x.
    rewrite setCell_width, setCell_height. tauto. }
  rewrite <- Hw, <- Hh.
  match goal with
  | |- context [foldl ?f ?b0 ?l0] =>
      destruct (foldl_dims f l0) with (b := b0) as [Hw' Hh']
  end.
  { intros b' x. rewrite setCell_width, setCell_height. tauto. }
  rewrite Hw, Hh in *. tauto.
Qed.

Lemma clearLines_dims (b : Board) :
  width (fst (clearLines b)) = width b
  /\ height (fst (clearLines b)) = height b.
Proof. unfold clearLines. simpl. apply foldl_dims, clearLine_dims. Qed.

Lemma getCell_clearBoard (b : Board) (x y : Z) : getCell (clearBoard b) x y = 0.
Proof.
  unfold getCell, clearBoard. simpl.
  destruct (_ || _); [reflexivity |].
  destruct (replicate _ _ !! _) as [v |] eqn:Hv; [| reflexivity].
  apply lookup_replicate in Hv as [-> _]. reflexivity.
Qed.

(** On an empty board of the standard size a fresh piece fits at the spawn
    cell. *)
Lemma spawn_fits_empty_board (b : Board) (p : Piece) :
  width b = BOARD_WIDTH -> height b = BOARD_HEIGHT -> rotation p = 0 ->
  isValidPosition (clearBoard b) p SPAWN_X SPAWN_Y = true.
Proof.
  intros Hw Hh Hrot. apply isValidPosition_spec. intros row col Hocc.
  assert (cataloguePiece p) as Hp by (unfold cataloguePiece; lia).
  destruct (properShape_bounds _ row col (catalogue_proper p Hp) Hocc)
    as [Hrow Hcol].
  unfold cellFits. rewrite getCell_clearBoard. simpl width. simpl height.
  rewrite Hw, Hh. unfold SPAWN_X, SPAWN_Y, BOARD_WIDTH, BOARD_HEIGHT.
  change (12 / 2 - 2) with 4. lia.
Qed.

(** A lock ends with no piece or with a piece that passed the spawn
    check, wherever the locked piece was. *)
Lemma lockPiece_valid_after (w : World) (piece : Piece) :
  currentPiece (getState w) = Some piece ->
  pieceInValidPosition (lockPiece w) = true.
Proof.
  intros Hcur.
  destruct (drawNext (placeAndScore w piece)) as [[drawn queue] w2]
    eqn:Hdraw.
  pose proof (lockPiece_cases w w2 piece drawn queue Hcur Hdraw) as Hcases.
  cbv zeta in Hcases.
  assert (board (getState (lockPiece w))
          = board (getState (placeAndScore w piece))) as Hboard.
  { unfold lockPiece. rewrite Hcur. apply spawnNextPiece_keeps. }
  unfold pieceInValidPosition. rewrite Hboard.
  destruct (isValidPosition _ _ _ _) eqn:Hfits.
  - destruct Hcases as (_ & -> & -> & -> & _). exact Hfits.
  - destruct Hcases as (_ & -> & _). reflexivity.
Qed.

Lemma lockPiece_valid (w : World) :
  pieceInValidPosition w = true -> pieceInValidPosition (lockPiece w) = true.
Proof.
  intros Hvalid.
  destruct (currentPiece (getState w)) as [piece |] eqn:Hcur.
  - apply (lockPiece_valid_after w piece Hcur).
  - unfold lockPiece. rewrite Hcur. exact Hvalid.
Qed.

Lemma lockPiece_dims (w : World) :
  width (board (getState (lockPiece w))) = width (board (getState w))
  /\ height (board (getState (lockPiece w))) = height (board (getState w)).
Proof.
  unfold lockPiece.
  destruct (currentPiece (getState w)) as [piece |]; [| tauto].
  pose proof (spawnNextPiece_keeps (placeAndScore w piece)) as (-> & _).
  pose proof (placeAndScore_keeps w piece)
    as (_ & _ & _ & _ & _ & _ & -> & _).
  destruct (clearLines_dims
              (placePiece (board (getState w)) piece (currentX (getState w))
                          (currentY (getState w)))) as [-> ->].
  unfold placePiece. split; apply placeRows_dims.
Qed.

Lemma tryWallKicks_board
    (state : GameState) (piece : Piece) (direction : RotationDirection)
    (offsets : list (Z * Z)) (w : World) :
  board (getState (tryWallKicks state piece direction offsets w))
  = board (getState w).
Proof.
  induction offsets as [| [ox oy] offsets' IH]; simpl; [reflexivity |].
  destruct (isValidPosition _ _ _ _); [reflexivity | exact IH].
Qed.

(** No action changes the size of the board. *)
Lemma perform_dims (a : Action) (w : World) :
  width (board (getState (perform a w))) = width (board (getState w))
  /\ height (board (getState (perform a w))) = height (board (getState w)).
Proof.
  destruct a; simpl.
  - unfold startGame. destruct (bool_decide _); [tauto |].
    destruct (resetGenerator _ _) as [g r].
    destruct (drawNext _) as [[p queue] w3] eqn:Hdraw.
    apply drawNext_frame in Hdraw as (Hs & _).
    simpl. unfold getState. rewrite Hs. simpl. tauto.
  - unfold pause. destruct (bool_decide _); simpl; tauto.
  - unfold resume. destruct (bool_decide _); simpl; tauto.
  - unfold moveLeft. repeat break_branch; simpl; tauto.
  - unfold moveRight. repeat break_branch; simpl; tauto.
  - destruct (moveDown_cases w)
      as [[_ Hm] | [(p & _ & _ & _ & Hm) | (p & _ & _ & _ & Hm)]];
      rewrite Hm; simpl; [tauto | tauto | apply lockPiece_dims].
  - destruct (softDrop_cases w)
      as [[_ Hm] | [(p & _ & _ & _ & Hm) | (p & _ & _ & _ & Hm)]];
      rewrite Hm; [tauto | | apply lockPiece_dims].
    destruct (moveDown_cases w)
      as [[_ Hd] | [(p2 & _ & _ & _ & Hd) | (p2 & _ & _ & _ & Hd)]];
      rewrite Hd; simpl; [tauto | tauto | apply lockPiece_dims].
  - destruct (hardDrop_cases w)
      as [[_ Hm] | (p & w1 & _ & _ & _ & _ & Hb & _ & _ & _ & _ & Hm)];
      rewrite Hm; [tauto |].
    rewrite <- Hb. apply lockPiece_dims.
  - unfold rotate. repeat break_branch; try (simpl; tauto).
    rewrite tryWallKicks_board. tauto.
  - unfold hold. repeat break_branch; try (simpl; tauto).
    match goal with
    | H : drawNext w = _ |- _ => apply drawNext_frame in H as (Hs & _)
    end.
    simpl. unfold getState. rewrite Hs. tauto.
Qed.

(** Every action other than [hold] keeps the falling piece in a valid
    position (on a board of the standard size, with a supply of fresh
    pieces): moves and rotations are committed only where
    [isValidPosition] holds, and a lock ends in the spawn check. *)
Lemma perform_keeps_valid (a : Action) (w : World) :
  a <> Hold -> standardBoard w -> freshSupply (generator w) ->
  pieceInValidPosition w = true ->
  pieceInValidPosition (perform a w) = true.
Proof.
  intros Hnot [Hw Hh] Hfresh Hvalid. destruct a; simpl.
  - unfold startGame. destruct (bool_decide _); [exact Hvalid |].
    destruct (resetGenerator _ _) as [g r] eqn:Hreset.
    apply resetGenerator_fresh in Hreset.
    destruct (drawNext _) as [[p queue] w3] eqn:Hdraw.
    pose proof (fun H => drawNext_fresh _ _ _ _ H Hdraw) as Hrot.
    destruct (Hrot Hreset) as [Hp _].
    apply drawNext_frame in Hdraw as (Hs & _).
    unfold pieceInValidPosition. simpl. unfold getState. rewrite Hs. simpl.
    apply spawn_fits_empty_board; assumption.
  - unfold pause. destruct (bool_decide _); exact Hvalid.
  - unfold resume. destruct (bool_decide _); exact Hvalid.
  - unfold moveLeft. destruct (negb _); [exact Hvalid |].
    destruct (currentPiece (getState w)) as [piece |] eqn:Hcur;
      [| exact Hvalid].
    destruct (isValidPosition _ _ _ _) eqn:Hfits; [| exact Hvalid].
    unfold pieceInValidPosition. simpl. unfold getState in *.
    rewrite Hcur. exact Hfits.
  - unfold moveRight. destruct (negb _); [exact Hvalid |].
    destruct (currentPiece (getState w)) as [piece |] eqn:Hcur;
      [| exact Hvalid].
    destruct (isValidPosition _ _ _ _) eqn:Hfits; [| exact Hvalid].
    unfold pieceInValidPosition. simpl. unfold getState in *.
    rewrite Hcur. exact Hfits.
  - destruct (moveDown_cases w)
      as [[_ Hm] | [(p & _ & Hcur & Hfits & Hm) | (p & _ & _ & _ & Hm)]];
      rewrite Hm; simpl.
    + exact Hvalid.
    + unfold pieceInValidPosition. simpl. unfold getState in *.
      rewrite Hcur. exact Hfits.
    + apply lockPiece_valid, Hvalid.
  - destruct (softDrop_cases w)
      as [[_ Hm] | [(p & _ & _ & _ & Hm) | (p & _ & _ & _ & Hm)]];
      rewrite Hm.
    + exact Hvalid.
    + destruct (moveDown_cases w)
        as [[_ Hd] | [(p2 & _ & Hcur & Hfits & Hd) | (p2 & _ & _ & _ & Hd)]];
        rewrite Hd; simpl.
      * exact Hvalid.
      * unfold pieceInValidPosition. simpl. unfold getState in *.
        rewrite Hcur. exact Hfits.
      * apply (lockPiece_valid w Hvalid).
    + apply lockPiece_valid, Hvalid.
  - destruct (hardDrop_cases w)
      as [[_ Hm] | (p & w1 & _ & _ & Hcur1 & _ & _ & _ & _ & _ & _ & Hm)];
      rewrite Hm; [exact Hvalid |].
    apply (lockPiece_valid_after w1 p Hcur1).
  - unfold rotate. destruct (negb _); [exact Hvalid |].
    destruct (currentPiece (getState w)) as [current |] eqn:Hcur;
      [| exact Hvalid].
    rewrite clonePiece_id.
    destruct (isValidPosition _ _ _ _) eqn:Hfits.
    + unfold pieceInValidPosition. simpl. unfold getState in *.
      rewrite Hcur. exact Hfits.
    + rewrite tryWallKicks_spec.
      destruct (List.find _ _) as [[dx dy] |] eqn:Hfind; [| exact Hvalid].
      apply find_some in Hfind as [_ Hkick].
      unfold pieceInValidPosition. simpl. unfold getState in *.
      rewrite Hcur. exact Hkick.
  - contradiction.
Qed.

Lemma run_keeps_valid (actions : list Action) :
  forall w : World,
    ~ In Hold actions -> standardBoard w -> freshSupply (generator w) ->
    pieceInValidPosition w = true ->
    pieceInValidPosition (run actions w) = true.
Proof.
  induction actions as [| a actions' IH]; intros w Hnot Hstd Hfresh Hvalid;
    simpl; [exact Hvalid |].
  apply IH.
  - intros Hin. apply Hnot. right. exact Hin.
  - destruct Hstd as [Hw Hh]. destruct (perform_dims a w) as [Hw' Hh'].
    split; congruence.
  - apply perform_fresh, Hfresh.
  - apply perform_keeps_valid; try assumption.
    intros ->. apply Hnot. left. reflexivity.
Qed.

(** The collision invariant on every game without a hold: from process
    start, whatever the oracle and the clock, any sequence of the other
    actions leaves the falling piece (if any) in a valid position. *)
Lemma holdFree_runs_keep_valid
    (actions : list Action) (r : Random) (t : Z) :
  ~ In Hold actions ->
  pieceInValidPosition (run actions (initialWorld r t)) = true.
Proof.
  intros Hnot. apply run_keeps_valid.
  - exact Hnot.
  - unfold initialWorld. destruct (newPieceGenerator 0 r) as [g r'].
    split; reflexivity.
  - apply initialWorld_fresh.
  - unfold initialWorld. destruct (newPieceGenerator 0 r) as [g r'].
    reflexivity.
Qed.

(* ================================================================== *)
(** * Line clearing: two adjacent full rows *)
(* ================================================================== *)

(** A loop that writes row [y] only leaves the other rows, and the columns
    it does not visit, as they were. *)
Lemma writeRow_other (val : Board -> Z -> Z) (y cx cy : Z) (xs : list Z) :
  forall b : Board,
    cy <> y \/ cx ∉ xs ->
    getCell (foldl (fun b' x => setCell b' x y (val b' x)) b xs) cx cy
    = getCell b cx cy.
Proof.
  induction xs as [| x xs IH]; intros b Hother; simpl; [reflexivity |].
  rewrite IH.
  - apply getCell_setCell_other.
    destruct Hother as [Hy | Hx]; [right; exact Hy |].
    left. intros ->. apply Hx. left.
  - destruct Hother as [Hy | Hx]; [left; exact Hy |].
    right. intros Hin. apply Hx. right. exact Hin.
Qed.

Lemma writeRow_dims (val : Board -> Z -> Z) (y : Z) (xs : list Z) :
  forall b : Board,
    width (foldl (fun b' x => setCell b' x y (val b' x)) b xs) = width b
    /\ height (foldl (fun b' x => setCell b' x y (val b' x)) b xs) = height b
    /\ length (grid (foldl (fun b' x => setCell b' x y (val b' x)) b xs))
       = length (grid b).
Proof.
  induction xs as [| x xs IH]; intros b; simpl; [tauto |].
  destruct (IH (setCell b x y (val b x))) as (-> & -> & ->).
  rewrite setCell_width, setCell_height, setCell_length. tauto.
Qed.

(** After [for (x ...) setCell(x, y, getCell(x, y - 1))] the cell [(cx, y)]
    holds what the cell above it held. *)
Lemma copyRow_cell (y cx : Z) (xs : list Z) :
  forall b : Board,
    NoDup xs -> cx ∈ xs ->
    (forall x, x ∈ xs -> 0 <= x < width b) -> 0 <= y < height b ->
    length (grid b) = Z.to_nat (width b * height b) ->
    getCell (foldl (fun b' x => setCell b' x y (getCell b' x (y - 1))) b xs)
            cx y
    = getCell b cx (y - 1) mod 256.
Proof.
  induction xs as [| x xs IH]; intros b Hnodup Hin Hrange Hy Hlen; simpl.
  - inversion Hin.
  - apply NoDup_cons in Hnodup as [Hfresh Hnodup].
    destruct (decide (cx = x)) as [-> | Hne].
    + rewrite (writeRow_other (fun b' x0 => getCell b' x0 (y - 1)))
        by (right; exact Hfresh).
      apply getCell_setCell_same; [apply Hrange; left | exact Hy | exact Hlen].
    + rewrite IH.
      * rewrite getCell_setCell_other by (right; lia). reflexivity.
      * exact Hnodup.
      * apply elem_of_cons in Hin as [-> | Hin]; [contradiction | exact Hin].
      * intros x' Hx'. rewrite setCell_width. apply Hrange. right. exact Hx'.
      * rewrite setCell_height. exact Hy.
      * rewrite setCell_length, setCell_width, setCell_height. exact Hlen.
Qed.

Lemma copyRowDown_other (b : Board) (y cx cy : Z) :
  cy <> y -> getCell (copyRowDown b y) cx cy = getCell b cx cy.
Proof.
  intros Hy. unfold copyRowDown.
  apply (writeRow_other (fun b' x => getCell b' x (y - 1))). left. exact Hy.
Qed.

Lemma copyRowDown_dims (b : Board) (y : Z) :
  width (copyRowDown b y) = width b /\ height (copyRowDown b y) = height b.
Proof.
  unfold copyRowDown.
  destruct (writeRow_dims (fun b' x => getCell b' x (y - 1)) y
              (seqZ 0 (width b)) b) as (Hw & Hh & _).
  tauto.
Qed.

(** One pass of [clearLines] leaves the rows below [lineY] alone. *)
Lemma clearLine_below (b : Board) (lineY cx cy : Z) :
  lineY < cy -> 0 < cy ->
  getCell (clearLine b lineY) cx cy = getCell b cx cy.
Proof.
  intros Hbelow Hpos. unfold clearLine, clearTopRow.
  rewrite (writeRow_other (fun _ _ => 0)) by (left; lia).
  assert (forall ys : list Z,
             (forall y, y ∈ ys -> y <> cy) ->
             forall b0 : Board,
               getCell (foldl copyRowDown b0 ys) cx cy = getCell b0 cx cy)
    as Hrows.
  { induction ys as [| y ys IH]; intros Hys b0; simpl; [reflexivity |].
    rewrite IH by (intros y' Hy'; apply Hys; right; exact Hy').
    apply copyRowDown_other. intros ->. apply (Hys y); [left | reflexivity]. }
  apply Hrows. intros y Hy ->.
  apply elem_of_reverse, elem_of_seqZ in Hy. lia.
Qed.

(** The pass for [lineY] puts the row above [lineY] on row [lineY]. *)
Lemma clearLine_row (b : Board) (lineY cx : Z) :
  wellFormedBoard b -> 0 < lineY < height b -> 0 <= cx < width b ->
  getCell (clearLine b lineY) cx lineY = getCell b cx (lineY - 1) mod 256.
Proof.
  intros (Hw & Hh & Hlen & _) Hline Hcx. unfold clearLine, clearTopRow.
  rewrite (writeRow_other (fun _ _ => 0)) by (left; lia).
  replace (seqZ 1 lineY) with (seqZ 1 (lineY - 1) ++ [lineY]).
  - rewrite reverse_snoc. simpl.
    assert (forall ys : list Z,
               (forall y, y ∈ ys -> y <> lineY) ->
               forall b0 : Board,
                 getCell (foldl copyRowDown b0 ys) cx lineY
                 = getCell b0 cx lineY) as Hrows.
    { induction ys as [| y ys IH]; intros Hys b0; simpl; [reflexivity |].
      rewrite IH by (intros y' Hy'; apply Hys; right; exact Hy').
      apply copyRowDown_other. intros ->.
      apply (Hys y); [left | reflexivity]. }
    rewrite Hrows.
    + unfold copyRowDown. apply copyRow_cell.
      * apply NoDup_seqZ.
      * apply elem_of_seqZ. lia.
      * intros x Hx. apply elem_of_seqZ in Hx. lia.
      * lia.
      * exact Hlen.
    + intros y Hy ->. apply elem_of_reverse, elem_of_seqZ in Hy. lia.
  - replace lineY with ((lineY - 1) + 1) at 3 by lia.
    rewrite seqZ_app by lia. f_equal.
    replace (1 + (lineY - 1)) with lineY by lia. reflexivity.
Qed.

Lemma clearLines_rest_below (cx cy : Z) (ls : list Z) :
  forall b : Board,
    (forall l, l ∈ ls -> l < cy) -> 0 < cy ->
    getCell (foldl clearLine b ls) cx cy = getCell b cx cy.
Proof.
  induction ls as [| l ls IH]; intros b Hls Hpos; simpl; [reflexivity |].
  rewrite IH by (try (intros l' Hl'; apply Hls; right); assumption).
  apply clearLine_below; [apply Hls; left | exact Hpos].
Qed.

Lemma getCell_byte (b : Board) (x y : Z) :
  wellFormedBoard b -> 0 <= getCell b x y < 256.
Proof.
  intros (_ & _ & _ & Hbytes). unfold getCell.
  destruct (_ || _); [lia |].
  destruct (grid b !! _) as [v |] eqn:Hv; simpl; [| lia].
  rewrite Forall_forall in Hbytes. apply Hbytes.
  apply list_elem_of_lookup. eauto.
Qed.

(** The rows [clearLines] collects when the two bottom rows are full. *)
Lemma linesToClear_two_bottom_rows (b : Board) :
  2 <= height b ->
  isFilled b (height b - 1) = true -> isFilled b (height b - 2) = true ->
  reverse (linesToClear b)
  = (height b - 1) :: (height b - 2)
      :: reverse (filter (fun y => isFilled b y = true)
                         (seqZ 0 (height b - 2))).
Proof.
  intros Hh H1 H2. unfold linesToClear.
  replace (height b) with ((height b - 2) + 2) at 1 by lia.
  rewrite seqZ_app by lia. rewrite filter_app, reverse_app.
  replace (seqZ (0 + (height b - 2)) 2)
    with [height b - 2; height b - 1].
  - rewrite filter_cons_True by exact H2.
    rewrite filter_cons_True by exact H1.
    reflexivity.
  - unfold seqZ. simpl. repeat f_equal; lia.
Qed.

(** Whenever the two bottom rows of a board are full, [clearLines] leaves
    the bottom row full: it holds the former row above it.  (So every lock
    that completes the two bottom rows at once leaves a full row behind.) *)
Lemma clearLines_two_bottom_rows (b : Board) :
  wellFormedBoard b -> 2 <= height b ->
  isFilled b (height b - 1) = true -> isFilled b (height b - 2) = true ->
  boardRow (fst (clearLines b)) (height b - 1) = boardRow b (height b - 2)
  /\ isFilled (fst (clearLines b)) (height b - 1) = true.
Proof.
  intros Hwf Hh H1 H2.
  assert (forall cx : Z,
             0 <= cx < width b ->
             getCell (fst (clearLines b)) cx (height b - 1)
             = getCell b cx (height b - 2)) as Hcell.
  { intros cx Hcx. unfold clearLines. simpl fst.
    rewrite (linesToClear_two_bottom_rows b Hh H1 H2).
    change (foldl clearLine b (?a :: ?l))
      with (foldl clearLine (clearLine b a) l).
    rewrite clearLines_rest_below.
    - rewrite clearLine_row by (try assumption; lia).
      replace (height b - 1 - 1) with (height b - 2) by lia.
      apply Z.mod_small, getCell_byte, Hwf.
    - intros l Hl. apply elem_of_cons in Hl as [-> | Hl]; [lia |].
      apply elem_of_reverse, list_elem_of_filter in Hl as [_ Hl].
      apply elem_of_seqZ in Hl. lia.
    - lia. }
  destruct (clearLines_dims b) as [Hw' _].
  split.
  - unfold boardRow. rewrite Hw'. apply map_ext_in.
    intros cx Hin. apply Hcell.
    apply list_elem_of_In, elem_of_seqZ in Hin. lia.
  - unfold isFilled in *. rewrite Hw'.
    rewrite forallb_forall in *. intros cx Hin.
    rewrite Hcell; [apply H2, Hin |].
    apply list_elem_of_In, elem_of_seqZ in Hin. lia.
Qed.

(** [twoFullRows] is such a board. *)
Lemma twoFullRows_bottom_row_survives :
  wellFormedBoard twoFullRows
  /\ isFilled (fst (clearLines twoFullRows)) (height twoFullRows - 1) = true.
Proof.
  assert (wellFormedBoard twoFullRows) as Hwf.
  { unfold wellFormedBoard. repeat split; try (vm_compute; congruence).
    apply Forall_forall. intros v Hv. apply list_elem_of_In in Hv.
    assert (forallb (fun v => (0 <=? v) && (v <? 256)) (grid twoFullRows)
            = true) as Hall by (vm_compute; reflexivity).
    rewrite forallb_forall in Hall. apply Hall in Hv. lia. }
  split; [exact Hwf |].
  apply clearLines_two_bottom_rows; try exact Hwf;
    vm_compute; congruence.
Qed.

(* ================================================================== *)
(** * Board: further properties of the collision test and the drop *)
(* ================================================================== *)

(** X1. [isValidPosition] answers [true] exactly when every occupied cell
    of the piece's current shape lands inside the side walls, above the
    floor, and, unless it is above the top edge, on an empty cell. *)
Theorem X1_isValidPosition_characterised
    (b : Board) (piece : Piece) (x y : Z) :
  isValidPosition b piece x y = true
  <-> (forall row col : nat,
          occupied (getShape piece) row col ->
          0 <= x + Z.of_nat col < width b
          /\ y + Z.of_nat row < height b
          /\ (0 <= y + Z.of_nat row ->
              getCell b (x + Z.of_nat col) (y + Z.of_nat row) = 0)).
Proof. apply isValidPosition_spec. Qed.

Lemma dropLoop_all_valid (b : Board) (p : Piece) (x y : Z) (fuel : nat) :
  forall d : Z,
    (forall d', 0 <= d' <= d -> isValidPosition b p x (y + d') = true) ->
    forall d', 0 <= d' <= dropLoop fuel b p x y d ->
               isValidPosition b p x (y + d') = true.
Proof.
  induction fuel as [| fuel IH]; intros d Hupto d' Hd'; simpl in Hd'.
  - apply Hupto, Hd'.
  - destruct (isValidPosition b p x (y + d + 1)) eqn:Hnext.
    + apply (IH (d + 1)); [| exact Hd'].
      intros d'' Hd''.
      destruct (decide (d'' = d + 1)) as [-> | Hne].
      * rewrite Z.add_assoc. exact Hnext.
      * apply Hupto. lia.
    + apply Hupto, Hd'.
Qed.

(** X2. From a valid position of a catalogue piece, [getHardDropDistance]
    returns the greatest distance the piece can fall: the distance is not
    negative, every position from 0 to it rows down is valid, and the
    position one row further is not. *)
Theorem X2_hard_drop_distance_is_greatest
    (b : Board) (p : Piece) (x y : Z) :
  cataloguePiece p ->
  isValidPosition b p x y = true ->
  let d := getHardDropDistance b p x y in
  0 <= d
  /\ (forall d', 0 <= d' <= d -> isValidPosition b p x (y + d') = true)
  /\ isValidPosition b p x (y + d + 1) = false.
Proof.
  intros Hp Hvalid d.
  destruct (getHardDropDistance_valid b p x y Hvalid) as [Hd _].
  split; [exact Hd |]. split.
  - subst d. unfold getHardDropDistance.
    apply dropLoop_all_valid. intros d' Hd'.
    replace d' with 0 by lia. rewrite Z.add_0_r. exact Hvalid.
  - apply getHardDropDistance_stops, Hp.
Qed.

(** X2 at work: an I piece at the spawn cell of an empty board falls 18
    rows. *)
Lemma X2_hard_drop_distance_witness :
  let b := newBoard BOARD_WIDTH BOARD_HEIGHT in
  let p := newPiece PieceType.I in
  getHardDropDistance b p 4 0 = 18
  /\ isValidPosition b p 4 (0 + 18) = true
  /\ isValidPosition b p 4 (0 + 18 + 1) = false.
Proof.
  intros b p.
  destruct (X2_hard_drop_distance_is_greatest b p 4 0) as (_ & Hall & Hstop).
  - unfold cataloguePiece. simpl. lia.
  - vm_compute. reflexivity.
  - assert (getHardDropDistance b p 4 0 = 18) as Hd
      by (vm_compute; reflexivity).
    rewrite Hd in Hall, Hstop.
    split; [exact Hd |]. split; [apply Hall; lia | exact Hstop].
Defined.

(* ================================================================== *)
(** * Board: cells are bytes that are written and read back *)
(* ================================================================== *)

Lemma newBoard_wellFormed (w h : Z) :
  0 <= w -> 0 <= h -> wellFormedBoard (newBoard w h).
Proof.
  intros Hw Hh. unfold wellFormedBoard, newBoard. simpl.
  repeat split; try assumption.
  - apply length_replicate.
  - apply Forall_replicate. lia.
Qed.

Lemma setCell_wellFormed (b : Board) (x y v : Z) :
  wellFormedBoard b -> wellFormedBoard (setCell b x y v).
Proof.
  intros (Hw & Hh & Hlen & Hbytes). unfold wellFormedBoard.
  rewrite setCell_width, setCell_height, setCell_length.
  repeat split; try assumption.
  unfold setCell. destruct (_ && _); [| exact Hbytes].
  simpl. apply Forall_insert; [exact Hbytes |].
  apply Z.mod_pos_bound. lia.
Qed.

(** X3. A cell inside the board stores the value written to it modulo 256
    (the array is a [Uint8Array]) and [getCell] reads it back; the write is
    seen at no other cell, and every cell of the board stays a byte. *)
Theorem X3_cell_write_then_read (b : Board) (x y v cx cy : Z) :
  wellFormedBoard b -> 0 <= x < width b -> 0 <= y < height b ->
  getCell (setCell b x y v) x y = v mod 256
  /\ (cx <> x \/ cy <> y ->
      getCell (setCell b x y v) cx cy = getCell b cx cy)
  /\ 0 <= getCell (setCell b x y v) cx cy < 256
  /\ wellFormedBoard (setCell b x y v).
Proof.
  intros Hwf Hx Hy.
  pose proof (setCell_wellFormed b x y v Hwf) as Hwf'.
  destruct Hwf as (_ & _ & Hlen & _).
  split; [apply getCell_setCell_same; assumption |].
  split; [apply getCell_setCell_other |].
  split; [apply getCell_byte, Hwf' | exact Hwf'].
Qed.

(** X3 at work: 300 written to cell (3, 5) of an empty board is read back
    as 44. *)
Lemma X3_cell_write_then_read_witness :
  getCell (setCell (newBoard BOARD_WIDTH BOARD_HEIGHT) 3 5 300) 3 5 = 44.
Proof.
  destruct (X3_cell_write_then_read
              (newBoard BOARD_WIDTH BOARD_HEIGHT) 3 5 300 0 0)
    as (Hread & _).
  - apply newBoard_wellFormed; unfold BOARD_WIDTH, BOARD_HEIGHT; lia.
  - simpl. unfold BOARD_WIDTH. lia.
  - simpl. unfold BOARD_HEIGHT. lia.
  - rewrite Hread. reflexivity.
Defined.

Section PlacedCell.

Variables (tag cx cy : Z).

Abbreviation tagged := (cellTagged tag cx cy).
Abbreviation roomy := (cellRoomy cx cy).

Lemma setCell_tagged (b : Board) (x y : Z) :
  tagged b -> tagged (setCell b x y tag).
Proof.
  intros (Hlen & Hx & Hy & Hcell). unfold cellTagged.
  rewrite setCell_width, setCell_height, setCell_length.
  repeat split; try assumption; try lia.
  destruct (decide (cx = x /\ cy = y)) as [[-> ->] | Hne].
  - destruct (decide (0 <= x < width b /\ 0 <= y < height b)) as [Hin | Hout].
    + apply getCell_setCell_same; tauto.
    + rewrite setCell_outside by exact Hout. exact Hcell.
  - rewrite getCell_setCell_other by lia. exact Hcell.
Qed.

Lemma placeCols_tagged (x boardY : Z) (cells : list Z) :
  forall (col : Z) (b : Board),
    tagged b -> tagged (placeCols tag x boardY col cells b).
Proof.
  induction cells as [| c cells' IH]; intros col b Hb; simpl; [exact Hb |].
  apply IH. destruct (negb _); [| exact Hb].
  destruct (boardY >=? 0); [apply setCell_tagged |]; exact Hb.
Qed.

Lemma placeCols_roomy (x boardY : Z) (cells : list Z) :
  forall (col : Z) (b : Board),
    roomy b -> roomy (placeCols tag x boardY col cells b).
Proof.
  intros col b (Hlen & Hx & Hy). unfold cellRoomy.
  destruct (placeCols_dims tag x boardY cells col b) as (-> & -> & ->).
  tauto.
Qed.

Lemma placeCols_hit (x : Z) (cells : list Z) :
  forall (col : Z) (b : Board) (j : nat) (c : Z),
    roomy b -> cells !! j = Some c -> c <> 0 ->
    cx = x + col + Z.of_nat j ->
    tagged (placeCols tag x cy col cells b).
Proof.
  induction cells as [| c0 cells' IH]; intros col b [| j] c Hb Hj Hc Hcx;
    simpl in *; try discriminate.
  - injection Hj as ->.
    apply placeCols_tagged.
    destruct Hb as (Hlen & Hx & Hy).
    replace (c =? 0) with false by (symmetry; apply Z.eqb_neq; exact Hc).
    simpl. replace (cy >=? 0) with true by (symmetry; apply Z.geb_le; lia).
    unfold cellTagged.
    rewrite setCell_width, setCell_height, setCell_length.
    repeat split; try assumption; try lia.
    replace (x + col) with cx by lia.
    apply getCell_setCell_same; assumption.
  - apply (IH (col + 1) _ j c); try assumption; [| lia].
    destruct (negb _); [| exact Hb].
    destruct (cy >=? 0); [| exact Hb].
    destruct Hb as (Hlen & Hx & Hy). unfold cellRoomy.
    rewrite setCell_width, setCell_height, setCell_length. tauto.
Qed.

Lemma placeRows_tagged (x y : Z) (rows : Shape) :
  forall (row : Z) (b : Board),
    tagged b -> tagged (placeRows tag x y row rows b).
Proof.
  induction rows as [| r rows' IH]; intros row b Hb; simpl; [exact Hb |].
  apply IH, placeCols_tagged, Hb.
Qed.

Lemma placeRows_hit (x y : Z) (rows : Shape) :
  forall (row : Z) (b : Board) (i j : nat) (cells : list Z) (c : Z),
    roomy b -> rows !! i = Some cells -> cells !! j = Some c -> c <> 0 ->
    cx = x + Z.of_nat j -> cy = y + row + Z.of_nat i ->
    tagged (placeRows tag x y row rows b).
Proof.
  induction rows as [| r rows' IH];
    intros row b [| i] j cells c Hb Hi Hj Hc Hcx Hcy; simpl in *;
    try discriminate.
  - injection Hi as ->. apply placeRows_tagged.
    replace (y + row) with cy by lia.
    apply (placeCols_hit x cells 0 b j c); try assumption. lia.
  - apply (IH (row + 1) _ i j cells c); try assumption; [| lia].
    apply placeCols_roomy, Hb.
Qed.

Lemma placeRows_reads_tag
    (x y : Z) (rows : Shape) (b : Board) (i j : nat) (cells : list Z)
    (c : Z) :
  length (grid b) = Z.to_nat (width b * height b) ->
  0 <= cx < width b -> 0 <= cy < height b ->
  rows !! i = Some cells -> cells !! j = Some c -> c <> 0 ->
  cx = x + Z.of_nat j -> cy = y + Z.of_nat i ->
  getCell (placeRows tag x y 0 rows b) cx cy = tag mod 256.
Proof.
  intros Hlen Hx Hy Hi Hj Hc Hcx Hcy.
  apply (placeRows_hit x y rows 0 b i j cells c); try assumption.
  - unfold cellRoomy. tauto.
  - lia.
Qed.

End PlacedCell.

Lemma placeCols_wellFormed (tag x boardY : Z) (cells : list Z) :
  forall (col : Z) (b : Board),
    wellFormedBoard b -> wellFormedBoard (placeCols tag x boardY col cells b).
Proof.
  induction cells as [| c cells' IH]; intros col b Hwf; simpl; [exact Hwf |].
  apply IH. destruct (negb _); [| exact Hwf].
  destruct (_ >=? 0); [apply setCell_wellFormed |]; exact Hwf.
Qed.

Lemma placeRows_wellFormed (tag x y : Z) (rows : Shape) :
  forall (row : Z) (b : Board),
    wellFormedBoard b -> wellFormedBoard (placeRows tag x y row rows b).
Proof.
  induction rows as [| r rows' IH]; intros row b Hwf; simpl; [exact Hwf |].
  apply IH, placeCols_wellFormed, Hwf.
Qed.

Lemma placePiece_wellFormed (b : Board) (piece : Piece) (x y : Z) :
  wellFormedBoard b -> wellFormedBoard (placePiece b piece x y).
Proof. apply placeRows_wellFormed. Qed.

(** X4. [placePiece] writes the piece's tag (the code of its letter, never
    0) to every occupied cell that lies on the board, and [getCell] reads
    it back; so a piece no longer fits where a piece has just been placed.
    The board stays an array of [width * height] bytes. *)
Theorem X4_placePiece_marks_its_cells
    (b : Board) (piece : Piece) (x y : Z) (row col : nat) :
  wellFormedBoard b ->
  occupied (getShape piece) row col ->
  0 <= x + Z.of_nat col < width b ->
  0 <= y + Z.of_nat row < height b ->
  let b' := placePiece b piece x y in
  getCell b' (x + Z.of_nat col) (y + Z.of_nat row)
    = charCodeAt0 (ptype piece)
  /\ getCell b' (x + Z.of_nat col) (y + Z.of_nat row) <> 0
  /\ isValidPosition b' piece x y = false
  /\ wellFormedBoard b'.
Proof.
  intros Hwf (cells & c & Hrow & Hcol & Hc) Hx Hy b'.
  assert (getCell b' (x + Z.of_nat col) (y + Z.of_nat row)
          = charCodeAt0 (ptype piece)) as Hread.
  { subst b'. unfold placePiece.
    destruct Hwf as (_ & _ & Hlen & _).
    rewrite (placeRows_reads_tag _ _ _ x y _ b row col cells c);
      try assumption; try reflexivity.
    destruct (ptype piece); reflexivity. }
  assert (charCodeAt0 (ptype piece) <> 0) as Htag
    by (destruct (ptype piece); discriminate).
  split; [exact Hread |]. split; [congruence |]. split.
  - destruct (isValidPosition b' piece x y) eqn:Hvalid; [| reflexivity].
    rewrite isValidPosition_spec in Hvalid.
    destruct (Hvalid row col) as (_ & _ & Hfree).
    + exists cells, c. tauto.
    + rewrite Hfree in Hread by lia. congruence.
  - apply placePiece_wellFormed, Hwf.
Qed.

(** X4 at work: a T piece placed on the floor of an empty board. *)
Lemma X4_placePiece_witness :
  let b' := placePiece (newBoard BOARD_WIDTH BOARD_HEIGHT)
                       (newPiece PieceType.T) 4 17 in
  getCell b' (4 + 1) (17 + 1) = 84
  /\ isValidPosition b' (newPiece PieceType.T) 4 17 = false.
Proof.
  intros b'.
  destruct (X4_placePiece_marks_its_cells
              (newBoard BOARD_WIDTH BOARD_HEIGHT) (newPiece PieceType.T)
              4 17 1 1) as (Hread & _ & Hblocked & _).
  - apply newBoard_wellFormed; unfold BOARD_WIDTH, BOARD_HEIGHT; lia.
  - exists [0; 1; 0; 0], 1. repeat split. discriminate.
  - simpl. unfold BOARD_WIDTH. lia.
  - simpl. unfold BOARD_HEIGHT. lia.
  - split; [exact Hread | exact Hblocked].
Defined.

(* ================================================================== *)
(** * Board: what one pass of line clearing does *)
(* ================================================================== *)

Lemma copyRowDown_wellFormed (b : Board) (y : Z) :
  wellFormedBoard b -> wellFormedBoard (copyRowDown b y).
Proof.
  unfold copyRowDown. generalize (seqZ 0 (width b)) as xs. intros xs.
  revert b. induction xs as [| x xs IH]; intros b Hwf; simpl; [exact Hwf |].
  apply IH, setCell_wellFormed, Hwf.
Qed.

(** [for (x ...) setCell(x, y, getCell(x, y - 1))], cell by cell. *)
Lemma copyRowDown_spec (b : Board) (y cx cy : Z) :
  wellFormedBoard b -> 0 <= y < height b ->
  getCell (copyRowDown b y) cx cy
  = if cy =? y then getCell b cx (y - 1) else getCell b cx cy.
Proof.
  intros Hwf Hy. destruct (cy =? y) eqn:Hrow.
  - apply Z.eqb_eq in Hrow. subst cy.
    destruct (decide (0 <= cx < width b)) as [Hcx | Hout].
    + unfold copyRowDown. destruct Hwf as (Hw & Hh & Hlen & Hbytes).
      rewrite copyRow_cell.
      * apply Z.mod_small. apply getCell_byte. repeat split; assumption.
      * apply NoDup_seqZ.
      * apply elem_of_seqZ. lia.
      * intros x Hx. apply elem_of_seqZ in Hx. lia.
      * exact Hy.
      * exact Hlen.
    + rewrite !getCell_outside; [reflexivity | tauto |].
      destruct (copyRowDown_dims b y) as [-> ->]. tauto.
  - apply Z.eqb_neq in Hrow. apply copyRowDown_other, Hrow.
Qed.

(** The rows [m], [m + 1], ..., [m + n - 1], taken from the last to the
    first, each receive the row above. *)
(** Case analysis on the conditions of the goal, closed by arithmetic. *)
Ltac case_conditions :=
  repeat match goal with
         | |- context [if ?c then _ else _] => destruct c eqn:?
         end;
  repeat match goal with
         | H : (_ && _) = true |- _ => apply andb_true_iff in H; destruct H
         | H : (_ && _) = false |- _ => apply andb_false_iff in H; destruct H
         | H : (_ <=? _) = true |- _ => apply Z.leb_le in H
         | H : (_ <=? _) = false |- _ => apply Z.leb_gt in H
         | H : (_ <? _) = true |- _ => apply Z.ltb_lt in H
         | H : (_ <? _) = false |- _ => apply Z.ltb_ge in H
         | H : (_ =? _) = true |- _ => apply Z.eqb_eq in H
         | H : (_ =? _) = false |- _ => apply Z.eqb_neq in H
         end;
  first [reflexivity | exfalso; lia].

Lemma copyRowsDown_spec (n : nat) :
  forall (m : Z) (b : Board) (cx cy : Z),
    wellFormedBoard b -> 1 <= m -> m + Z.of_nat n <= height b ->
    wellFormedBoard (foldl copyRowDown b (reverse (seqZ m (Z.of_nat n))))
    /\ getCell (foldl copyRowDown b (reverse (seqZ m (Z.of_nat n)))) cx cy
       = if (m <=? cy) && (cy <? m + Z.of_nat n)
         then getCell b cx (cy - 1) else getCell b cx cy.
Proof.
  induction n as [| n IH]; intros m b cx cy Hwf Hm Hfit.
  - simpl. split; [exact Hwf |].
    case_conditions.
  - rewrite seqZ_cons by lia.
    replace (Z.pred (Z.of_nat (S n))) with (Z.of_nat n) by lia.
    rewrite reverse_cons, foldl_app. simpl.
    destruct (IH (Z.succ m) b cx cy Hwf) as [Hwf' Hcell]; [lia | lia |].
    destruct (IH (Z.succ m) b cx (m - 1) Hwf) as [_ Habove]; [lia | lia |].
    split; [apply copyRowDown_wellFormed, Hwf' |].
    rewrite copyRowDown_spec; [| exact Hwf' |].
    + destruct (cy =? m) eqn:Hrow.
      * apply Z.eqb_eq in Hrow. subst cy. rewrite Habove.
        case_conditions.
      * apply Z.eqb_neq in Hrow. rewrite Hcell. case_conditions.
    + assert (height (foldl copyRowDown b
                        (reverse (seqZ (Z.succ m) (Z.of_nat n))))
              = height b) as ->; [| lia].
      apply (foldl_dims copyRowDown). intros b0 y0.
      apply copyRowDown_dims.
Qed.

Lemma clearTopRow_spec (b : Board) (cx cy : Z) :
  wellFormedBoard b -> 0 < height b ->
  getCell (clearTopRow b) cx cy = if cy =? 0 then 0 else getCell b cx cy.
Proof.
  intros (Hw & Hh & Hlen & _) Hpos. unfold clearTopRow.
  destruct (cy =? 0) eqn:Hrow.
  - apply Z.eqb_eq in Hrow. subst cy.
    destruct (decide (0 <= cx < width b)) as [Hcx | Hout].
    + assert (forall (xs : list Z) (b0 : Board),
                 length (grid b0) = Z.to_nat (width b0 * height b0) ->
                 0 <= cx < width b0 -> 0 < height b0 ->
                 cx ∈ xs ->
                 getCell (foldl (fun b' x => setCell b' x 0 0) b0 xs) cx 0
                 = 0) as Hzero.
      { induction xs as [| x xs IH]; intros b0 Hlen0 Hcx0 Hh0 Hin; simpl.
        - inversion Hin.
        - destruct (decide (cx ∈ xs)) as [Hlater | Hlast].
          + apply IH; try assumption;
              rewrite ?setCell_length, ?setCell_width, ?setCell_height;
              assumption.
          + rewrite (writeRow_other (fun _ _ => 0)) by (right; exact Hlast).
            apply elem_of_cons in Hin as [<- | Hin]; [| contradiction].
            apply getCell_setCell_same; [assumption | lia | assumption]. }
      apply Hzero; try assumption. apply elem_of_seqZ. lia.
    + apply getCell_outside.
      destruct (writeRow_dims (fun _ _ => 0) 0 (seqZ 0 (width b)) b)
        as (-> & -> & _).
      tauto.
  - apply Z.eqb_neq in Hrow.
    apply (writeRow_other (fun _ _ => 0)). left. exact Hrow.
Qed.

(** One pass of the clearing loop, for the row [lineY]: row 0 becomes
    empty, every row from 1 to [lineY] receives the row that was above it,
    and the rows below [lineY] stay. *)
Lemma clearLine_spec (b : Board) (lineY cx cy : Z) :
  wellFormedBoard b -> 0 <= lineY < height b ->
  getCell (clearLine b lineY) cx cy
  = if cy =? 0 then 0
    else if (1 <=? cy) && (cy <=? lineY) then getCell b cx (cy - 1)
    else getCell b cx cy.
Proof.
  intros Hwf Hline. unfold clearLine.
  replace lineY with (Z.of_nat (Z.to_nat lineY)) at 1 by lia.
  destruct (copyRowsDown_spec (Z.to_nat lineY) 1 b cx cy Hwf) as [Hwf' Hcell];
    [lia | lia |].
  rewrite clearTopRow_spec; [| exact Hwf' |].
  - destruct (cy =? 0); [reflexivity |].
    rewrite Hcell. case_conditions.
  - assert (height (foldl copyRowDown b
                      (reverse (seqZ 1 (Z.of_nat (Z.to_nat lineY)))))
            = height b) as ->; [| lia].
    apply (foldl_dims copyRowDown). intros b0 y0. apply copyRowDown_dims.
Qed.

Lemma filter_none {A : Type} (P : A -> Prop) `{forall x, Decision (P x)}
    (l : list A) :
  (forall x, x ∈ l -> ~ P x) -> filter P l = [].
Proof.
  induction l as [| a l IH]; intros Hnone; [reflexivity |].
  rewrite filter_cons_False by (apply Hnone; left).
  apply IH. intros x Hx. apply Hnone. right. exact Hx.
Qed.

Lemma linesToClear_spec (b : Board) (y : Z) :
  y ∈ linesToClear b <-> (0 <= y < height b /\ isFilled b y = true).
Proof.
  unfold linesToClear. rewrite list_elem_of_filter, elem_of_seqZ.
  intuition lia.
Qed.

(** X5. [clearLines] returns the number of full rows, between 0 and the
    height of the board; it returns 0 exactly when no row is full, and then
    the board is returned untouched. *)
Theorem X5_clearLines_counts_full_rows (b : Board) :
  snd (clearLines b) = Z.of_nat (length (linesToClear b))
  /\ 0 <= snd (clearLines b) <= Z.max 0 (height b)
  /\ (snd (clearLines b) = 0
      <-> forall y, 0 <= y < height b -> isFilled b y = false)
  /\ (snd (clearLines b) = 0 -> fst (clearLines b) = b).
Proof.
  unfold clearLines. simpl. split; [reflexivity |]. split; [| split].
  - split; [lia |].
    assert (length (linesToClear b) <= length (seqZ 0 (height b)))%nat
      as Hle by apply length_filter.
    rewrite length_seqZ in Hle. lia.
  - split.
    + intros Hzero y Hy.
      destruct (isFilled b y) eqn:Hfull; [| reflexivity].
      assert (y ∈ linesToClear b) as Hin by (apply linesToClear_spec; tauto).
      destruct (linesToClear b); [inversion Hin | discriminate Hzero].
    + intros Hnone. unfold linesToClear.
      rewrite filter_none; [reflexivity |].
      intros y Hy. apply elem_of_seqZ in Hy.
      rewrite Hnone by lia. discriminate.
  - intros Hzero. destruct (linesToClear b); [reflexivity | discriminate].
Qed.

(** X5 at work: the board with one bar of a T piece has no full row. *)
Lemma X5_clearLines_witness :
  let b := setCell (newBoard BOARD_WIDTH BOARD_HEIGHT) 3 19 84 in
  clearLines b = (b, 0).
Proof.
  intros b.
  destruct (X5_clearLines_counts_full_rows b) as (_ & _ & _ & Hsame).
  assert (snd (clearLines b) = 0) as Hzero by (vm_compute; reflexivity).
  specialize (Hsame Hzero).
  destruct (clearLines b) as [b' n]. simpl in *. congruence.
Defined.

Lemma isFilled_ext (b1 b2 : Board) (y1 y2 : Z) :
  width b1 = width b2 ->
  (forall cx, getCell b1 cx y1 = getCell b2 cx y2) ->
  isFilled b1 y1 = isFilled b2 y2.
Proof.
  intros Hw Hcells. unfold isFilled. rewrite Hw.
  induction (seqZ 0 (width b2)) as [| cx xs IH]; simpl; [reflexivity |].
  rewrite Hcells, IH. reflexivity.
Qed.

Lemma clearLine_wellFormed (b : Board) (lineY : Z) :
  wellFormedBoard b -> 0 <= lineY < height b ->
  wellFormedBoard (clearLine b lineY).
Proof.
  intros Hwf Hline. unfold clearLine.
  replace lineY with (Z.of_nat (Z.to_nat lineY)) by lia.
  destruct (copyRowsDown_spec (Z.to_nat lineY) 1 b 0 0 Hwf) as [Hwf' _];
    [lia | lia |].
  revert Hwf'. generalize (foldl copyRowDown b
                             (reverse (seqZ 1 (Z.of_nat (Z.to_nat lineY))))).
  intros b0 Hwf0. unfold clearTopRow.
  generalize (seqZ 0 (width b0)) as xs. intros xs. revert b0 Hwf0.
  induction xs as [| x xs IH]; intros b0 Hwf0; simpl; [exact Hwf0 |].
  apply IH, setCell_wellFormed, Hwf0.
Qed.

(** X6. When exactly one row [y0] of the board is full, [clearLines]
    returns 1 and removes that row: row 0 becomes empty, each row from 1 to
    [y0] receives the row that was above it, the rows below [y0] are
    unchanged, and no full row is left. *)
Theorem X6_clearLines_removes_a_single_full_row
    (b : Board) (y0 cx cy : Z) :
  wellFormedBoard b -> 0 < width b -> 0 <= y0 < height b ->
  isFilled b y0 = true ->
  (forall y, 0 <= y < height b -> y <> y0 -> isFilled b y = false) ->
  let b' := fst (clearLines b) in
  snd (clearLines b) = 1
  /\ getCell b' cx cy
     = (if cy =? 0 then 0
        else if (1 <=? cy) && (cy <=? y0) then getCell b cx (cy - 1)
        else getCell b cx cy)
  /\ linesToClear b' = []
  /\ wellFormedBoard b'.
Proof.
  intros Hwf Hwidth Hy0 Hfull Hothers b'.
  assert (linesToClear b = [y0]) as Hlines.
  { unfold linesToClear.
    replace (height b) with (y0 + (1 + (height b - y0 - 1))) by lia.
    rewrite seqZ_app by lia. rewrite seqZ_app by lia.
    rewrite !filter_app.
    rewrite (filter_none _ (seqZ 0 y0)).
    - rewrite (filter_none _ (seqZ (0 + y0 + 1) _)).
      + replace (seqZ (0 + y0) 1) with [y0]
          by (unfold seqZ; simpl; f_equal; lia).
        rewrite filter_cons_True by exact Hfull. reflexivity.
      + intros y Hy. apply elem_of_seqZ in Hy.
        rewrite Hothers by lia. discriminate.
    - intros y Hy. apply elem_of_seqZ in Hy.
      rewrite Hothers by lia. discriminate. }
  assert (b' = clearLine b y0) as Hb'.
  { subst b'. unfold clearLines. rewrite Hlines. reflexivity. }
  assert (forall x y, getCell b' x y
                      = (if y =? 0 then 0
                         else if (1 <=? y) && (y <=? y0)
                              then getCell b x (y - 1)
                              else getCell b x y)) as Hcells.
  { intros x y. rewrite Hb'. apply clearLine_spec; assumption. }
  destruct (clearLine_dims b y0) as [Hw' Hh']. rewrite <- Hb' in Hw', Hh'.
  split; [unfold clearLines; rewrite Hlines; reflexivity |].
  split; [apply Hcells |].
  split; [| rewrite Hb'; apply clearLine_wellFormed; assumption].
  unfold linesToClear. apply filter_none.
  intros y Hy. apply elem_of_seqZ in Hy. rewrite Hh' in Hy.
  intros Hfilled.
  destruct (decide (y = 0)) as [-> | Hnz].
  - unfold isFilled in Hfilled. rewrite forallb_forall in Hfilled.
    specialize (Hfilled 0). rewrite Hcells in Hfilled. simpl in Hfilled.
    assert (In 0 (seqZ 0 (width b'))) as Hin
      by (apply list_elem_of_In, elem_of_seqZ; lia).
    specialize (Hfilled Hin). discriminate Hfilled.
  - destruct (decide (y <= y0)) as [Hup | Hdown].
    + rewrite (isFilled_ext b' b y (y - 1)) in Hfilled.
      * rewrite Hothers in Hfilled by lia. discriminate.
      * exact Hw'.
      * intros x. rewrite Hcells. case_conditions.
    + rewrite (isFilled_ext b' b y y) in Hfilled.
      * rewrite Hothers in Hfilled by lia. discriminate.
      * exact Hw'.
      * intros x. rewrite Hcells. case_conditions.
Qed.

Lemma checkWellFormed_sound (b : Board) :
  checkWellFormed b = true -> wellFormedBoard b.
Proof.
  unfold checkWellFormed, wellFormedBoard. intros H.
  apply andb_true_iff in H as [H Hbytes].
  apply andb_true_iff in H as [H Hlen].
  apply andb_true_iff in H as [Hw Hh].
  apply Z.leb_le in Hw. apply Z.leb_le in Hh. apply Nat.eqb_eq in Hlen.
  repeat split; try assumption.
  apply Forall_forall. intros v Hv. apply list_elem_of_In in Hv.
  rewrite forallb_forall in Hbytes. apply Hbytes in Hv.
  apply andb_true_iff in Hv as [H0 H256].
  apply Z.leb_le in H0. apply Z.ltb_lt in H256. lia.
Qed.

(** X6 at work: on [oneFullRow] the bottom row goes and the cell of row 18
    comes down to row 19. *)
Lemma X6_clearLines_witness :
  snd (clearLines oneFullRow) = 1
  /\ getCell (fst (clearLines oneFullRow)) 3 19 = 84
  /\ linesToClear (fst (clearLines oneFullRow)) = [].
Proof.
  destruct (X6_clearLines_removes_a_single_full_row oneFullRow 19 3 19)
    as (Hcount & Hcell & Hnone & _).
  - apply checkWellFormed_sound. vm_compute. reflexivity.
  - vm_compute. reflexivity.
  - vm_compute. split; [discriminate | reflexivity].
  - vm_compute. reflexivity.
  - intros y Hy Hne.
    assert (forallb (fun y' => (y' =? 19) || negb (isFilled oneFullRow y'))
                    (seqZ 0 20) = true) as Hall by (vm_compute; reflexivity).
    rewrite forallb_forall in Hall.
    assert (In y (seqZ 0 20)) as Hin.
    { apply list_elem_of_In, elem_of_seqZ.
      change (height oneFullRow) with 20 in Hy. lia. }
    apply Hall in Hin. apply orb_true_iff in Hin as [Heq | Hnot].
    + apply Z.eqb_eq in Heq. contradiction.
    + apply negb_true_iff in Hnot. exact Hnot.
  - split; [exact Hcount |]. split; [| exact Hnone].
    rewrite Hcell. vm_compute. reflexivity.
Defined.

(* ================================================================== *)
(** * Board: clear *)
(* ================================================================== *)

(** X7. After [clear()] every cell reads 0 and the board has the size it
    had; a position is then valid exactly when the piece is inside the side
    walls and above the floor; and, on a board with at least one column, no
    row is full, so [clearLines] returns 0 and changes nothing. *)
Theorem X7_clear_empties_the_board
    (b : Board) (piece : Piece) (x y cx cy : Z) :
  getCell (clearBoard b) cx cy = 0
  /\ width (clearBoard b) = width b
  /\ height (clearBoard b) = height b
  /\ length (grid (clearBoard b)) = length (grid b)
  /\ (isValidPosition (clearBoard b) piece x y = true
      <-> forall row col : nat,
            occupied (getShape piece) row col ->
            0 <= x + Z.of_nat col < width b
            /\ y + Z.of_nat row < height b)
  /\ (0 < width b -> clearLines (clearBoard b) = (clearBoard b, 0)).
Proof.
  split; [apply getCell_clearBoard |].
  split; [reflexivity |]. split; [reflexivity |].
  split; [apply length_replicate |]. split.
  - rewrite isValidPosition_spec. unfold cellFits. simpl width. simpl height.
    split; intros Hfit row col Hocc; destruct (Hfit row col Hocc) as (H1 & H2).
    + tauto.
    + repeat split; try tauto. intros _. apply getCell_clearBoard.
  - intros Hwidth.
    assert (linesToClear (clearBoard b) = []) as Hnone.
    { unfold linesToClear. apply filter_none. intros y0 _ Hfull.
      unfold isFilled in Hfull. rewrite forallb_forall in Hfull.
      specialize (Hfull 0). rewrite getCell_clearBoard in Hfull.
      assert (In 0 (seqZ 0 (width (clearBoard b)))) as Hin
        by (apply list_elem_of_In, elem_of_seqZ; simpl; lia).
      specialize (Hfull Hin). discriminate Hfull. }
    unfold clearLines. rewrite Hnone. reflexivity.
Qed.

(** X7 at work on the board of the paused game. *)
Lemma X7_clear_witness :
  let b := board (getState pausedWorld) in
  getCell b 4 19 = 73
  /\ clearLines (clearBoard b) = (clearBoard b, 0).
Proof.
  intros b. split; [vm_compute; reflexivity |].
  destruct (X7_clear_empties_the_board b (newPiece PieceType.I) 0 0 0 0)
    as (_ & _ & _ & _ & _ & Hlines).
  apply Hlines. vm_compute. reflexivity.
Defined.

(* ================================================================== *)
(** * Piece: rotation cursor and filled cells *)
(* ================================================================== *)

(** X8. [rotate] keeps the kind.  On a piece whose rotation index is not
    negative it leaves the index in 0..3, and the shape
    [getShapeAfterRotation] announces is the shape the piece has after
    [rotate].  On a piece whose index is in 0..3, a clockwise turn and a
    counterclockwise turn undo each other and four turns the same way give
    the piece back.  The remainder keeps the sign of a negative index: a
    clockwise turn takes index -2 to -1, and [getShapeAfterRotation] then
    returns [undefined]. *)
Theorem X8_rotation_cursor (direction : RotationDirection) (p : Piece) :
  ptype (rotatePiece direction p) = ptype p
  /\ (0 <= rotation p ->
      cataloguePiece (rotatePiece direction p)
      /\ getShapeAfterRotation direction p
         = Some (getShape (rotatePiece direction p)))
  /\ (cataloguePiece p ->
      rotatePiece counterclockwise (rotatePiece clockwise p) = p
      /\ rotatePiece clockwise (rotatePiece counterclockwise p) = p
      /\ rotatePiece direction
           (rotatePiece direction
              (rotatePiece direction (rotatePiece direction p))) = p)
  /\ rotatePiece clockwise (mkPiece (ptype p) (-2)) = mkPiece (ptype p) (-1)
  /\ getShapeAfterRotation clockwise (mkPiece (ptype p) (-2)) = None.
Proof.
  split; [destruct direction; reflexivity |].
  split; [| split; [| split; reflexivity]].
  - intros Hp.
    pose proof (rotatePiece_catalogue direction p Hp) as Hcat.
    split; [exact Hcat |].
    unfold cataloguePiece in Hcat. unfold getShapeAfterRotation, getShape.
    assert (rotation (rotatePiece direction p)
            = match direction with
              | clockwise => Z.rem (rotation p + 1) 4
              | counterclockwise => Z.rem (rotation p + 3) 4
              end) as Hrot by (destruct direction; reflexivity).
    rewrite <- Hrot.
    replace (ptype (rotatePiece direction p)) with (ptype p)
      by (destruct direction; reflexivity).
    generalize dependent (rotation (rotatePiece direction p)).
    intros n Hn _.
    replace (n <? 0) with false by (symmetry; apply Z.ltb_ge; lia).
    assert (n = 0 \/ n = 1 \/ n = 2 \/ n = 3) as [-> | [-> | [-> | ->]]]
      by lia; destruct (ptype p); reflexivity.
  - destruct p as [t r]. unfold cataloguePiece. simpl. intros Hr.
    assert (r = 0 \/ r = 1 \/ r = 2 \/ r = 3) as [-> | [-> | [-> | ->]]]
      by lia; destruct direction; repeat split; reflexivity.
Qed.

(** X8 at work on a T piece turned once. *)
Lemma X8_rotation_cursor_witness :
  let p := mkPiece PieceType.T 1 in
  rotatePiece counterclockwise (rotatePiece clockwise p) = p
  /\ rotatePiece clockwise (rotatePiece counterclockwise p) = p
  /\ getShapeAfterRotation clockwise p
     = Some (getShape (rotatePiece clockwise p)).
Proof.
  intros p.
  destruct (X8_rotation_cursor clockwise p) as (_ & Hshape & H & _).
  destruct H as (H1 & H2 & _).
  - unfold cataloguePiece. simpl. lia.
  - destruct Hshape as [_ Hshape]; [simpl; lia |].
    exact (conj H1 (conj H2 Hshape)).
Defined.

Lemma filledCols_spec (row : Z) (cells : list Z) :
  forall (col r c : Z),
    (r, c) ∈ filledCols row col cells
    <-> r = row
        /\ exists (j : nat) (v : Z),
             cells !! j = Some v /\ v <> 0 /\ c = col + Z.of_nat j.
Proof.
  induction cells as [| v0 cells' IH]; intros col r c; simpl.
  - split; [intros H; inversion H | intros (_ & j & v & Hj & _)].
    discriminate Hj.
  - assert ((r, c) ∈ filledCols row (col + 1) cells'
            <-> r = row
                /\ exists (j : nat) (v : Z),
                     cells' !! j = Some v /\ v <> 0
                     /\ c = col + Z.of_nat (S j)) as Hrest.
    { rewrite IH. split; intros (Hr & j & v & Hj & Hv & Hc);
        (split; [exact Hr |]); exists j, v; repeat split; try assumption;
        lia. }
    destruct (v0 =? 0) eqn:Hv0; simpl.
    + apply Z.eqb_eq in Hv0. rewrite Hrest. split.
      * intros (Hr & j & v & Hj & Hv & Hc). split; [exact Hr |].
        exists (S j), v. tauto.
      * intros (Hr & [| j] & v & Hj & Hv & Hc); simpl in Hj.
        -- congruence.
        -- split; [exact Hr |]. exists j, v. tauto.
    + apply Z.eqb_neq in Hv0. rewrite elem_of_cons, Hrest. split.
      * intros [Hhead | (Hr & j & v & Hj & Hv & Hc)].
        -- injection Hhead as -> ->. split; [reflexivity |].
           exists O, v0. repeat split; [assumption | simpl; lia].
        -- split; [exact Hr |]. exists (S j), v. tauto.
      * intros (Hr & [| j] & v & Hj & Hv & Hc); simpl in Hj.
        -- left. subst. f_equal. simpl. lia.
        -- right. split; [exact Hr |]. exists j, v. tauto.
Qed.

Lemma filledRows_spec (rows : Shape) :
  forall (row r c : Z),
    (r, c) ∈ filledRows row rows
    <-> exists (i j : nat),
          occupied rows i j /\ r = row + Z.of_nat i /\ c = Z.of_nat j.
Proof.
  unfold occupied.
  induction rows as [| cells rows' IH]; intros row r c; simpl.
  - split; [intros H; inversion H |].
    intros (i & j & (cells & v & Hi & _) & _). discriminate Hi.
  - rewrite elem_of_app, filledCols_spec, IH. split.
    + intros [(Hr & j & v & Hj & Hv & Hc)
             | (i & j & (cells0 & v & Hi & Hj & Hv) & Hr & Hc)].
      * exists O, j. split; [exists cells, v; tauto | simpl; lia].
      * exists (S i), j. split; [exists cells0, v; tauto | lia].
    + intros ([| i] & j & (cells0 & v & Hi & Hj & Hv) & Hr & Hc);
        simpl in Hi.
      * injection Hi as <-. left. split; [simpl in Hr; lia |].
        exists j, v. repeat split; try assumption; try lia.
      * right. exists i, j. split; [exists cells0, v; tauto | lia].
Qed.

(** X9. [getFilledCells] lists exactly the occupied cells of the current
    shape, as (row, col) pairs; a catalogue piece has four of them in every
    rotation; and the collision test holds exactly when each listed cell,
    moved to the position asked, fits the board. *)
Theorem X9_getFilledCells_are_the_occupied_cells
    (b : Board) (p : Piece) (x y r c : Z) :
  ((r, c) ∈ getFilledCells p
   <-> exists row col : nat,
         occupied (getShape p) row col
         /\ r = Z.of_nat row /\ c = Z.of_nat col)
  /\ (isValidPosition b p x y = true
      <-> Forall (fun cell => cellFits b (x + snd cell) (y + fst cell))
                 (getFilledCells p))
  /\ (cataloguePiece p -> length (getFilledCells p) = 4%nat).
Proof.
  assert (forall r0 c0,
             (r0, c0) ∈ getFilledCells p
             <-> exists row col : nat,
                   occupied (getShape p) row col
                   /\ r0 = Z.of_nat row /\ c0 = Z.of_nat col) as Hcells.
  { intros r0 c0. unfold getFilledCells. rewrite filledRows_spec.
    split; intros (i & j & Hocc & Hr & Hc); exists i, j;
      repeat split; try assumption; lia. }
  split; [apply Hcells |]. split.
  - rewrite isValidPosition_spec, Forall_forall. split.
    + intros Hfit [r0 c0] Hin. apply Hcells in Hin
        as (row & col & Hocc & -> & ->).
      simpl. apply Hfit, Hocc.
    + intros Hall row col Hocc.
      apply (Hall (Z.of_nat row, Z.of_nat col)), Hcells.
      exists row, col. tauto.
  - destruct p as [t rot]. unfold cataloguePiece. simpl. intros Hr.
    assert (rot = 0 \/ rot = 1 \/ rot = 2 \/ rot = 3)
      as [-> | [-> | [-> | ->]]] by lia; destruct t; reflexivity.
Qed.

(** X9 at work: the four cells of the upright I piece. *)
Lemma X9_getFilledCells_witness :
  getFilledCells (mkPiece PieceType.I 1) = [(0, 2); (1, 2); (2, 2); (3, 2)]
  /\ length (getFilledCells (mkPiece PieceType.I 1)) = 4%nat.
Proof.
  split; [reflexivity |].
  destruct (X9_getFilledCells_are_the_occupied_cells
              (newBoard BOARD_WIDTH BOARD_HEIGHT) (mkPiece PieceType.I 1)
              0 0 0 0) as (_ & _ & Hfour).
  apply Hfour. unfold cataloguePiece. simpl. lia.
Defined.

(* ================================================================== *)
(** * PieceGenerator: the shuffle, the queue and the pieces handed out *)
(* ================================================================== *)

Lemma shuffleLoop_calls {A : Type} (i : nat) :
  forall (l : list A) (r : Random),
    calls (snd (shuffleLoop i l r)) = (calls r + i)%nat
    /\ tape (snd (shuffleLoop i l r)) = tape r.
Proof.
  induction i as [| i IH]; intros l r.
  - simpl. split; [lia | reflexivity].
  - cbn [shuffleLoop]. unfold randomBelow.
    destruct (IH (swap l (S i) (tape r (calls r) mod (S i + 1))%nat)
                 (mkRandom (tape r) (S (calls r)))) as [Hc Ht].
    rewrite Hc, Ht. simpl. split; [lia | reflexivity].
Qed.

(** X10. [shuffleArray] returns a rearrangement of its argument, of the
    same length, and asks [Math.random] exactly [length - 1] times (not at
    all for an empty or a one-element array). *)
Theorem X10_shuffleArray_rearranges {A : Type} (array : list A)
    (r : Random) :
  fst (shuffleArray array r) ≡ₚ array
  /\ length (fst (shuffleArray array r)) = length array
  /\ calls (snd (shuffleArray array r)) = (calls r + (length array - 1))%nat
  /\ tape (snd (shuffleArray array r)) = tape r.
Proof.
  pose proof (shuffleArray_perm array r) as Hperm.
  split; [exact Hperm |].
  split; [apply Permutation_length, Hperm |].
  apply shuffleLoop_calls.
Qed.

Lemma generatePieces_length (n : nat) :
  forall (bg : list PieceType.t) (r : Random),
    length (fst (fst (generatePieces n bg r))) = n.
Proof.
  induction n as [| n IH]; intros bg r; simpl; [reflexivity |].
  destruct (generatePiece bg r) as [[p bg1] r1].
  specialize (IH bg1 r1).
  destruct (generatePieces n bg1 r1) as [[ps bg2] r2].
  simpl in *. rewrite IH. reflexivity.
Qed.

(** The first [n] of [n + m] draws are the [n] draws. *)
Lemma generatePieces_prefix (n m : nat) (bg : list PieceType.t)
    (r : Random) :
  take n (fst (fst (generatePieces (n + m) bg r))) =
    fst (fst (generatePieces n bg r)).
Proof.
  rewrite generatePieces_app.
  pose proof (generatePieces_length n bg r) as Hlen.
  destruct (generatePieces n bg r) as [[ps1 bg1] r1].
  destruct (generatePieces m bg1 r1) as [[ps2 bg2] r2].
  simpl in *. rewrite take_app_length'; [reflexivity | symmetry; exact Hlen].
Qed.

(** The [k]-th window of seven draws from an empty bag is one shuffled
    bag, read from its last kind to its first. *)
Lemma generatePieces_window (r : Random) (k : nat) :
  exists r' : Random,
    take 7 (drop (7 * k) (fst (fst (generatePieces (7 * (k + 1)) [] r)))) =
      map newPiece (reverse (fst (refillBag r'))).
Proof.
  destruct (generatePieces_bags k r) as (before & r' & Hbefore & Hlen).
  exists r'.
  replace (7 * (k + 1))%nat with (7 * k + 7)%nat by lia.
  rewrite generatePieces_app, Hbefore, generatePieces_bag. cbn [fst].
  rewrite drop_app_length' by (symmetry; exact Hlen).
  apply take_ge.
  rewrite length_map, length_reverse, refillBag_length. reflexivity.
Qed.

Lemma nextN_spec (n : nat) :
  forall (g : PieceGenerator) (r : Random),
    let ds := fst (fst (generatePieces n (bag g) r)) in
    fst (fst (nextN n g r)) = take n (getPreview g ++ ds)
    /\ getPreview (snd (fst (nextN n g r))) = drop n (getPreview g ++ ds)
    /\ bag (snd (fst (nextN n g r))) = snd (fst (generatePieces n (bag g) r))
    /\ snd (nextN n g r) = snd (generatePieces n (bag g) r).
Proof.
  induction n as [| n IH]; intros g r ds; subst ds.
  - simpl. rewrite app_nil_r. tauto.
  - cbn [nextN generatePieces]. unfold next.
    destruct (generatePiece (bag g) r) as [[fresh bg1] r1].
    assert (forall g1 : PieceGenerator,
               bag g1 = bg1 ->
               getPreview g1 = previewTail g ++ [fresh] ->
               let '(ps, g2, r2) := nextN n g1 r1 in
               let '(ds, bg2, r3) := generatePieces n bg1 r1 in
               previewHead g :: ps =
                 take (S n) (getPreview g ++ fresh :: ds)
               /\ getPreview g2 = drop (S n) (getPreview g ++ fresh :: ds)
               /\ bag g2 = bg2 /\ r2 = r3) as Hstep.
    { intros g1 Hbag Hqueue.
      destruct (IH g1 r1) as (Hps & Hq & Hb & Hr).
      rewrite Hbag, Hqueue in *.
      destruct (nextN n g1 r1) as [[ps g2] r2].
      destruct (generatePieces n bg1 r1) as [[ds bg2] r3].
      simpl in Hps, Hq, Hb, Hr. unfold getPreview at 1 3.
      rewrite <- app_assoc in Hps, Hq. simpl in Hps, Hq.
      simpl. rewrite Hps, Hq. tauto. }
    destruct (previewTail g) as [| q qs] eqn:Htail.
    + specialize (Hstep (mkGenerator bg1 fresh []) eq_refl eq_refl).
      destruct (nextN n (mkGenerator bg1 fresh []) r1) as [[ps g2] r2].
      destruct (generatePieces n bg1 r1) as [[ds bg2] r3]. exact Hstep.
    + specialize (Hstep (mkGenerator bg1 q (qs ++ [fresh])) eq_refl eq_refl).
      destruct (nextN n (mkGenerator bg1 q (qs ++ [fresh])) r1)
        as [[ps g2] r2].
      destruct (generatePieces n bg1 r1) as [[ds bg2] r3]. exact Hstep.
Qed.

(** X11. The preview is truthful.  [n] calls of [next()] hand out the
    pieces [getPreview()] showed, in that order, and after them the pieces
    [generatePiece()] draws, in the order drawn; what is left over is the
    new preview, which is as long as the old one. *)
Theorem X11_next_hands_out_the_preview (n : nat) (g : PieceGenerator)
    (r : Random) :
  let drawn := fst (fst (generatePieces n (bag g) r)) in
  let g' := snd (fst (nextN n g r)) in
  fst (fst (nextN n g r)) = take n (getPreview g ++ drawn)
  /\ getPreview g' = drop n (getPreview g ++ drawn)
  /\ length (getPreview g') = length (getPreview g)
  /\ bag g' = snd (fst (generatePieces n (bag g) r))
  /\ snd (nextN n g r) = snd (generatePieces n (bag g) r).
Proof.
  intros drawn g'.
  destruct (nextN_spec n g r) as (Hps & Hq & Hb & Hr).
  split; [exact Hps |]. split; [exact Hq |].
  split; [| split; assumption].
  subst g'. rewrite Hq, length_drop, length_app.
  subst drawn. rewrite generatePieces_length. lia.
Qed.

(** X12. After [reset()], whatever the oracle answers and whatever the
    preview length, the pieces [next()] hands out are the pieces drawn
    from the empty bag, in the order drawn; so each successive group of
    seven pieces handed out holds each kind exactly once. *)
Theorem X12_pieces_handed_out_come_in_bags (g : PieceGenerator)
    (r : Random) (n k : nat) :
  let g0 := fst (resetGenerator g r) in
  let r0 := snd (resetGenerator g r) in
  let handed m := fst (fst (nextN m g0 r0)) in
  handed n = fst (fst (generatePieces n [] r))
  /\ map ptype (take 7 (drop (7 * k) (handed (7 * (k + 1))%nat)))
     ≡ₚ PieceType_values.
Proof.
  intros g0 r0 handed.
  assert (forall m, handed m = fst (fst (generatePieces m [] r))) as Hhanded.
  { intros m. subst handed g0 r0. cbv beta.
    destruct (nextN_spec m (fst (resetGenerator g r))
                (snd (resetGenerator g r))) as (Hps & _).
    rewrite Hps. clear Hps.
    rewrite <- (generatePieces_prefix m (S (length (previewTail g))) [] r).
    f_equal.
    replace (m + S (length (previewTail g)))%nat
      with (S (length (previewTail g)) + m)%nat by lia.
    rewrite generatePieces_app.
    unfold resetGenerator. cbn [generatePieces].
    destruct (generatePiece [] r) as [[first bg1] r1].
    destruct (generatePieces (length (previewTail g)) bg1 r1)
      as [[rest bg2] r2].
    cbn [fst snd bag getPreview previewHead previewTail].
    destruct (generatePieces m bg2 r2) as [[ds bg3] r3].
    destruct (generatePieces m [] r) as [[ps1 bga] ra].
    reflexivity. }
  split; [apply Hhanded |].
  rewrite Hhanded.
  destruct (generatePieces_window r k) as (r' & ->).
  rewrite map_map. cbn [ptype newPiece].
  rewrite map_id, reverse_Permutation. apply refillBag_perm.
Qed.

(* ================================================================== *)
(** * What every reachable state has in common *)
(* ================================================================== *)

Ltac conjuncts := repeat match goal with |- _ /\ _ => split end.

Ltac settle :=
  match goal with
  | |- _ <-> _ =>
      split;
      [ intros ?;
        first [ discriminate | congruence | tauto
              | match goal with
                | Hn : _ = None, H1 : _ <-> _ |- _ =>
                    apply H1 in Hn as [? | ?]; congruence
                end ]
      | intros [? | ?];
        first [ discriminate | congruence | tauto
              | exfalso;
                match goal with
                | H1 : Some ?p = None <-> _ |- _ =>
                    assert (Some p = None) by tauto; discriminate
                | H1 : ?x = None <-> _, Hsome : ?x = Some _ |- _ =>
                    assert (x = None) by tauto; congruence
                end ] ]
  | |- forall p, Some _ = Some p -> _ =>
      let Hq := fresh "Hq" in
      intros ? Hq; injection Hq as <-;
      first [ apply rotatePiece_catalogue;
              match goal with
              | H2 : forall p, _ -> cataloguePiece p |- 0 <= rotation ?c =>
                  apply (H2 c); first [assumption | reflexivity]
              end
            | apply newPiece_catalogue
            | unfold cataloguePiece; simpl; lia | reflexivity | assumption ]
  | |- _ \/ _ -> _ =>
      first [ assumption | tauto
            | intros [? | ?]; first [discriminate | congruence | tauto] ]
  | _ => first [assumption | tauto | congruence | lia | reflexivity]
  end.

Ltac open_coherent H :=
  destruct H as (H1 & H2 & H3 & H4 & H5 & H6 & H7 & H8);
  unfold coherent, getState in *; cbv zeta in *.

Lemma scoreLines_coherent (state : GameState) (k : Z) (w : World) :
  lines state = lines (getState w) -> level state = level (getState w) ->
  coherent w -> coherent (scoreLines state k w).
Proof.
  intros Hl Hv Hc. unfold scoreLines.
  destruct (k >? 0) eqn:Hk; [| exact Hc].
  apply Z.gtb_lt in Hk. open_coherent Hc.
  destruct (_ >? level state); simpl; conjuncts; settle.
Qed.

Lemma placeAndScore_coherent (w : World) (piece : Piece) :
  coherent w -> coherent (placeAndScore w piece).
Proof.
  intros Hc. unfold placeAndScore. apply scoreLines_coherent;
    [reflexivity | reflexivity | exact Hc].
Qed.

Lemma spawnNextPiece_coherent (w : World) :
  status (getState w) = GameStatus.PLAYING ->
  coherent w -> coherent (spawnNextPiece w).
Proof.
  intros Hst Hc.
  destruct (drawNext w) as [[piece queue] w1] eqn:Hdraw.
  rewrite (spawnNextPiece_cases _ _ _ _ Hdraw).
  open_coherent Hc.
  destruct (drawNext_fresh _ _ _ _ H8 Hdraw) as [Hrot Hfresh].
  apply drawNext_frame in Hdraw as (Hs & _ & _ & _ & _ & Hq).
  destruct (isValidPosition _ _ _ _); simpl; rewrite Hs;
    conjuncts; settle.
Qed.

Lemma lockPiece_coherent (w : World) :
  status (getState w) = GameStatus.PLAYING ->
  coherent w -> coherent (lockPiece w).
Proof.
  intros Hst Hc. unfold lockPiece.
  destruct (currentPiece (getState w)) as [piece |] eqn:Hcur; [| exact Hc].
  apply spawnNextPiece_coherent.
  - pose proof (placeAndScore_keeps w piece) as (-> & _). exact Hst.
  - apply placeAndScore_coherent, Hc.
Qed.

Lemma tryWallKicks_coherent
    (state : GameState) (piece : Piece) (direction : RotationDirection)
    (offsets : list (Z * Z)) (w : World) :
  coherent w -> coherent (tryWallKicks state piece direction offsets w).
Proof.
  intros Hc.
  induction offsets as [| [ox oy] offsets' IH]; simpl; [exact Hc |].
  destruct (isValidPosition _ _ _ _); [| exact IH].
  open_coherent Hc. simpl.
  destruct (currentPiece (store w)) as [p |] eqn:Hcur; simpl;
    conjuncts; settle.
Qed.

Lemma perform_coherent (a : Action) (w : World) :
  coherent w -> coherent (perform a w).
Proof.
  intros Hc. destruct a; simpl.
  - unfold startGame. destruct (bool_decide _); [exact Hc |].
    destruct (resetGenerator _ _) as [g r] eqn:Hreset.
    apply resetGenerator_fresh in Hreset.
    destruct (drawNext _) as [[p queue] w3] eqn:Hdraw.
    destruct (fun H => drawNext_fresh _ _ _ _ H Hdraw) as [Hrot Hfresh];
      [exact Hreset |].
    apply drawNext_frame in Hdraw as (Hs & _ & _ & _ & _ & Hq).
    unfold coherent, getState. simpl. conjuncts; settle.
  - unfold pause. destruct (bool_decide _) eqn:E; [| exact Hc].
    apply bool_decide_eq_true_1 in E.
    open_coherent Hc. simpl. conjuncts; settle.
  - unfold resume. destruct (bool_decide _) eqn:E; [| exact Hc].
    apply bool_decide_eq_true_1 in E.
    open_coherent Hc. simpl. conjuncts; settle.
  - unfold moveLeft. repeat break_branch; exact Hc.
  - unfold moveRight. repeat break_branch; exact Hc.
  - destruct (moveDown_cases w)
      as [[_ Hm] | [(p & _ & _ & _ & Hm) | (p & Hg & _ & _ & Hm)]];
      rewrite Hm; simpl.
    + exact Hc.
    + exact Hc.
    + apply canMove_true in Hg as [Hst _]. apply lockPiece_coherent; assumption.
  - destruct (softDrop_cases w)
      as [[_ Hm] | [(p & _ & Hp & Hv & Hm) | (p & Hg & _ & _ & Hm)]];
      rewrite Hm.
    + exact Hc.
    + destruct (moveDown_cases w)
        as [[_ Hd] | [(p2 & _ & _ & _ & Hd) | (p2 & _ & Hp2 & Hv2 & Hd)]];
        rewrite Hd; simpl.
      * exact Hc.
      * exact Hc.
      * congruence.
    + apply canMove_true in Hg as [Hst _]. apply lockPiece_coherent; assumption.
  - unfold hardDrop.
    destruct (canMove (getState w)) eqn:Hg; simpl; [| exact Hc].
    apply canMove_true in Hg as [Hst [piece Hcur]]. rewrite Hcur.
    destruct (_ >? 0).
    + apply lockPiece_coherent; [exact Hst |].
      exact Hc.
    + apply lockPiece_coherent; assumption.
  - unfold rotate. destruct (negb _); [exact Hc |].
    destruct (currentPiece (getState w)) as [current |] eqn:Hcur;
      [| exact Hc].
    destruct (isValidPosition _ _ _ _).
    + open_coherent Hc. simpl. rewrite Hcur. simpl. conjuncts; settle.
    + apply tryWallKicks_coherent, Hc.
  - unfold hold. destruct (_ || _); [exact Hc |].
    destruct (currentPiece (getState w)) as [current |] eqn:Hcur;
      [| exact Hc].
    destruct (holdPiece (getState w)) as [held |] eqn:Hheld.
    + open_coherent Hc. simpl. conjuncts; settle.
    + destruct (drawNext w) as [[p queue] w0] eqn:Hdraw.
      open_coherent Hc.
      destruct (drawNext_fresh _ _ _ _ H8 Hdraw) as [Hrot Hfresh].
      apply drawNext_frame in Hdraw as (Hs & _ & _ & _ & _ & Hq).
      simpl. rewrite Hs. conjuncts; settle.
Qed.

(* ================================================================== *)
(** * What the board holds *)
(* ================================================================== *)

Lemma pieceCell_byte (v : Z) : pieceCell v -> v mod 256 = v.
Proof.
  intros [-> | [t ->]]; [reflexivity |]. destruct t; reflexivity.
Qed.

Lemma getCell_pieceCell (b : Board) (x y : Z) :
  Forall pieceCell (grid b) -> pieceCell (getCell b x y).
Proof.
  intros Hall. unfold getCell.
  destruct (_ || _); [left; reflexivity |].
  destruct (grid b !! Z.to_nat (getIndex b x y)) as [v |] eqn:Hv; simpl.
  - rewrite Forall_lookup in Hall. apply (Hall _ _ Hv).
  - left. reflexivity.
Qed.

Lemma setCell_ofPieces (b : Board) (x y v : Z) :
  pieceCell v -> boardOfPieces b -> boardOfPieces (setCell b x y v).
Proof.
  intros Hv [Hwf Hall]. split; [apply setCell_wellFormed, Hwf |].
  unfold setCell. destruct (_ && _); [| exact Hall].
  simpl. apply Forall_insert; [exact Hall |].
  rewrite pieceCell_byte; assumption.
Qed.

Lemma foldl_ofPieces {A : Type} (f : Board -> A -> Board) (l : list A) :
  (forall b a, boardOfPieces b -> boardOfPieces (f b a)) ->
  forall b, boardOfPieces b -> boardOfPieces (foldl f b l).
Proof.
  intros Hf. induction l as [| a l IH]; intros b Hb; simpl; [exact Hb |].
  apply IH, Hf, Hb.
Qed.

Lemma placePiece_ofPieces (b : Board) (piece : Piece) (x y : Z) :
  boardOfPieces b -> boardOfPieces (placePiece b piece x y).
Proof.
  unfold placePiece.
  assert (pieceCell (charCodeAt0 (ptype piece))) as Htag
    by (right; eexists; reflexivity).
  generalize (charCodeAt0 (ptype piece)) Htag. intros tag Ht.
  generalize 0 at 1. generalize (getShape piece). intros rows. revert b.
  induction rows as [| r rows' IH]; intros b row Hb; simpl; [exact Hb |].
  apply IH. generalize 0. revert b Hb.
  induction r as [| c cells' IHc]; intros b Hb col; simpl; [exact Hb |].
  apply IHc. destruct (negb _); [| exact Hb].
  destruct (_ >=? 0); [apply setCell_ofPieces |]; assumption.
Qed.

Lemma clearLine_ofPieces (b : Board) (lineY : Z) :
  boardOfPieces b -> boardOfPieces (clearLine b lineY).
Proof.
  intros Hb. unfold clearLine, clearTopRow.
  apply foldl_ofPieces.
  - intros b0 x Hb0. apply setCell_ofPieces; [left; reflexivity | exact Hb0].
  - apply foldl_ofPieces; [| exact Hb].
    intros b0 y Hb0. unfold copyRowDown. apply foldl_ofPieces; [| exact Hb0].
    intros b1 x Hb1. apply setCell_ofPieces; [| exact Hb1].
    apply getCell_pieceCell, Hb1.
Qed.

Lemma clearLines_ofPieces (b : Board) :
  boardOfPieces b -> boardOfPieces (fst (clearLines b)).
Proof.
  intros Hb. unfold clearLines. simpl.
  apply foldl_ofPieces; [| exact Hb]. intros b0 y. apply clearLine_ofPieces.
Qed.

Lemma clearBoard_ofPieces (b : Board) :
  boardOfPieces b -> boardOfPieces (clearBoard b).
Proof.
  intros [(Hw & Hh & Hlen & Hbytes) Hall]. unfold clearBoard.
  split; [repeat split; simpl; try assumption |].
  - rewrite length_replicate. exact Hlen.
  - apply Forall_replicate. lia.
  - simpl. apply Forall_replicate. left. reflexivity.
Qed.

Lemma newBoard_ofPieces (w h : Z) :
  0 <= w -> 0 <= h -> boardOfPieces (newBoard w h).
Proof.
  intros Hw Hh. split; [apply newBoard_wellFormed; assumption |].
  apply Forall_replicate. left. reflexivity.
Qed.

(** Where the board of a lock comes from. *)
Lemma lockPiece_board (w : World) :
  board (getState (lockPiece w)) =
    match currentPiece (getState w) with
    | Some piece =>
        fst (clearLines
               (placePiece (board (getState w)) piece
                  (currentX (getState w)) (currentY (getState w))))
    | None => board (getState w)
    end.
Proof.
  unfold lockPiece.
  destruct (currentPiece (getState w)) as [piece |]; [| reflexivity].
  pose proof (spawnNextPiece_keeps (placeAndScore w piece)) as (-> & _).
  pose proof (placeAndScore_keeps w piece)
    as (_ & _ & _ & _ & _ & _ & -> & _).
  reflexivity.
Qed.

(** The board after an action is the board before, emptied by [clear()]
    (a new game), or with the falling piece placed somewhere and the lines
    cleared (a lock). *)
Lemma perform_board (a : Action) (w : World) :
  let b := board (getState w) in
  let b' := board (getState (perform a w)) in
  b' = b \/ b' = clearBoard b
  \/ exists piece x y, b' = fst (clearLines (placePiece b piece x y)).
Proof.
  cbv zeta.
  assert (forall w1 : World,
             board (getState w1) = board (getState w) ->
             let b' := board (getState (lockPiece w1)) in
             b' = board (getState w) \/ b' = clearBoard (board (getState w))
             \/ exists piece x y,
                  b' = fst (clearLines
                              (placePiece (board (getState w)) piece x y)))
    as Hlock.
  { intros w1 Hb. cbv zeta. rewrite lockPiece_board, Hb.
    destruct (currentPiece (getState w1)) as [piece |]; [| tauto].
    right. right. eauto. }
  destruct a; simpl.
  - unfold startGame. destruct (bool_decide _); [tauto |].
    destruct (resetGenerator _ _) as [g r].
    destruct (drawNext _) as [[p queue] w3] eqn:Hdraw.
    apply drawNext_frame in Hdraw as (Hs & _).
    simpl. unfold getState. rewrite Hs. simpl. tauto.
  - unfold pause. destruct (bool_decide _); simpl; tauto.
  - unfold resume. destruct (bool_decide _); simpl; tauto.
  - unfold moveLeft. repeat break_branch; simpl; tauto.
  - unfold moveRight. repeat break_branch; simpl; tauto.
  - destruct (moveDown_cases w)
      as [[_ Hm] | [(p & _ & _ & _ & Hm) | (p & _ & _ & _ & Hm)]];
      rewrite Hm; simpl; [tauto | tauto | apply Hlock; reflexivity].
  - destruct (softDrop_cases w)
      as [[_ Hm] | [(p & _ & _ & _ & Hm) | (p & _ & _ & _ & Hm)]];
      rewrite Hm; [tauto | | apply Hlock; reflexivity].
    destruct (moveDown_cases w)
      as [[_ Hd] | [(p2 & _ & _ & _ & Hd) | (p2 & _ & _ & _ & Hd)]];
      rewrite Hd; simpl; [tauto | tauto | apply Hlock; reflexivity].
  - destruct (hardDrop_cases w)
      as [[_ Hm] | (p & w1 & _ & _ & _ & _ & Hb & _ & _ & _ & _ & Hm)];
      rewrite Hm; [tauto |].
    apply Hlock, Hb.
  - left. unfold rotate. repeat break_branch; try reflexivity.
    apply tryWallKicks_board.
  - left. unfold hold. repeat break_branch; try reflexivity.
    match goal with
    | H : drawNext w = _ |- _ => apply drawNext_frame in H as (Hs & _)
    end.
    simpl. unfold getState. rewrite Hs. reflexivity.
Qed.

Lemma perform_ofPieces (a : Action) (w : World) :
  boardOfPieces (board (getState w)) ->
  boardOfPieces (board (getState (perform a w))).
Proof.
  intros Hb.
  destruct (perform_board a w) as [-> | [-> | (piece & x & y & ->)]].
  - exact Hb.
  - apply clearBoard_ofPieces, Hb.
  - apply clearLines_ofPieces, placePiece_ofPieces, Hb.
Qed.

Lemma run_snoc (actions : list Action) (a : Action) (w : World) :
  run (actions ++ [a]) w = perform a (run actions w).
Proof. unfold run. rewrite foldl_app. reflexivity. Qed.

Lemma run_coherent (actions : list Action) :
  forall w, coherent w -> coherent (run actions w).
Proof.
  induction actions as [| a actions' IH]; intros w Hc; simpl; [exact Hc |].
  apply IH, perform_coherent, Hc.
Qed.

Lemma initialWorld_coherent (r : Random) (t : Z) :
  coherent (initialWorld r t).
Proof.
  pose proof (initialWorld_fresh r t) as Hfresh. revert Hfresh.
  unfold initialWorld. destruct (newPieceGenerator 0 r) as [g r'].
  intros Hfresh. unfold coherent, getState. simpl.
  conjuncts; try settle; discriminate.
Qed.

(** X13. In every state a run of actions reaches from process start,
    whatever the oracle and the clock: a piece is falling exactly when the
    status is neither MENU nor GAME_OVER (so the guard [canMove] holds
    exactly when the status is PLAYING); the falling piece has a rotation
    index in 0..3 and the held piece is unrotated; during play and pause
    the preview in the state is the generator's queue; the line total is
    not negative, the level is [floor (lines / 10) + 1], at least 1, and
    the gravity interval is the one [calculateDropInterval] gives for the
    level, between 100 and 1000. *)
Theorem X13_reachable_states_are_consistent
    (actions : list Action) (r : Random) (t : Z) :
  let w := run actions (initialWorld r t) in
  let s := getState w in
  coherent w
  /\ (canMove s = true <-> status s = GameStatus.PLAYING)
  /\ 1 <= level s
  /\ MIN_DROP_INTERVAL <= dropInterval s <= INITIAL_DROP_INTERVAL.
Proof.
  intros w s.
  assert (coherent w) as Hc
    by apply run_coherent, initialWorld_coherent.
  split; [exact Hc |].
  destruct Hc as (H1 & H2 & H3 & H4 & H5 & H6 & H7 & H8). fold s in H1, H5, H6, H7.
  split; [| split].
  - split.
    + intros Hg. apply canMove_true in Hg. tauto.
    + intros Hst. unfold canMove. rewrite Hst.
      destruct (currentPiece s) as [p |] eqn:Hcur; [reflexivity |].
      exfalso. assert (status s = GameStatus.MENU
                       \/ status s = GameStatus.GAME_OVER) as [H | H]
        by tauto; congruence.
  - rewrite H6. unfold LINES_PER_LEVEL.
    pose proof (Z.div_pos (lines s) 10). lia.
  - rewrite H7. unfold calculateDropInterval, MIN_DROP_INTERVAL,
      INITIAL_DROP_INTERVAL, DROP_INTERVAL_DECREASE. cbv zeta.
    assert (1 <= level s).
    { rewrite H6. unfold LINES_PER_LEVEL.
      pose proof (Z.div_pos (lines s) 10). lia. }
    lia.
Qed.

Lemma run_ofPieces (actions : list Action) :
  forall w, boardOfPieces (board (getState w)) ->
            boardOfPieces (board (getState (run actions w))).
Proof.
  induction actions as [| a actions' IH]; intros w Hb; simpl; [exact Hb |].
  apply IH, perform_ofPieces, Hb.
Qed.

Lemma run_dims (actions : list Action) :
  forall w, standardBoard w -> standardBoard (run actions w).
Proof.
  induction actions as [| a actions' IH]; intros w [Hw Hh]; simpl;
    [split; assumption |].
  apply IH. destruct (perform_dims a w) as [Hw' Hh']. split; congruence.
Qed.

(** X14. In every state a run of actions reaches from process start, the
    board is 12 x 20 over an array of 240 bytes, every cell reads 0 or the
    code of one of the seven piece letters, and every cell outside the
    board reads 0. *)
Theorem X14_board_holds_piece_letters_only
    (actions : list Action) (r : Random) (t : Z) (x y : Z) :
  let b := board (getState (run actions (initialWorld r t))) in
  width b = BOARD_WIDTH /\ height b = BOARD_HEIGHT
  /\ length (grid b) = 240%nat
  /\ pieceCell (getCell b x y)
  /\ (x < 0 \/ BOARD_WIDTH <= x \/ y < 0 \/ BOARD_HEIGHT <= y ->
      getCell b x y = 0).
Proof.
  intros b.
  assert (standardBoard (initialWorld r t)
          /\ boardOfPieces (board (getState (initialWorld r t))))
    as [Hstd Hpieces].
  { unfold initialWorld. destruct (newPieceGenerator 0 r) as [g r'].
    split; [split; reflexivity |].
    apply newBoard_ofPieces; discriminate. }
  apply (run_dims actions) in Hstd as [Hw Hh].
  apply (run_ofPieces actions) in Hpieces as [(_ & _ & Hlen & _) Hall].
  fold b in Hw, Hh, Hlen, Hall.
  split; [exact Hw |]. split; [exact Hh |].
  split; [rewrite Hlen, Hw, Hh; reflexivity |].
  split; [apply getCell_pieceCell, Hall |].
  intros Hout. unfold getCell. rewrite Hw, Hh.
  destruct (_ || _) eqn:E; [reflexivity |].
  repeat (apply orb_false_iff in E; destruct E as [E ?]).
  unfold BOARD_WIDTH, BOARD_HEIGHT in *. lia.
Qed.

(** X15. A game played without [hold] keeps the falling piece in a valid
    position: after any sequence of the other actions from process start
    the falling piece, if there is one, is in a valid position.  And in
    any reachable state where it is, the one action that can leave it in
    an invalid position is [hold]. *)
Theorem X15_only_hold_breaks_the_collision_invariant
    (actions : list Action) (a : Action) (r : Random) (t : Z) :
  let w := run actions (initialWorld r t) in
  (~ In Hold actions -> pieceInValidPosition w = true)
  /\ (pieceInValidPosition w = true ->
      pieceInValidPosition (perform a w) = false -> a = Hold).
Proof.
  intros w.
  assert (standardBoard w /\ freshSupply (generator w)) as [Hstd Hfresh].
  { split.
    - apply run_dims. unfold initialWorld.
      destruct (newPieceGenerator 0 r) as [g r']. split; reflexivity.
    - apply run_fresh, initialWorld_fresh. }
  split.
  - intros Hnot. apply run_keeps_valid.
    + exact Hnot.
    + unfold initialWorld. destruct (newPieceGenerator 0 r) as [g r'].
      split; reflexivity.
    + apply initialWorld_fresh.
    + unfold initialWorld. destruct (newPieceGenerator 0 r) as [g r'].
      reflexivity.
  - intros Hvalid Hbroken.
    destruct a; try reflexivity;
      rewrite perform_keeps_valid in Hbroken;
      try discriminate; assumption.
Qed.

(** X15 at work: a new game, a hard drop and a move. *)
Lemma X15_collision_invariant_witness :
  pieceInValidPosition
    (run [StartGame; HardDrop; MoveLeft] (initialWorld towerTape 0)) = true.
Proof.
  apply (X15_only_hold_breaks_the_collision_invariant
           [StartGame; HardDrop; MoveLeft] Hold towerTape 0).
  simpl. intros [H | [H | [H | []]]]; discriminate H.
Defined.

(* ================================================================== *)
(** * Drops, moves and pauses *)
(* ================================================================== *)

(** What a lock does to the score and the line total. *)
Lemma lockPiece_score (w : World) (piece : Piece) :
  currentPiece (getState w) = Some piece ->
  let s := getState w in
  let k := snd (clearLines (placePiece (board s) piece (currentX s)
                                       (currentY s))) in
  score (getState (lockPiece w)) =
    (if k >? 0 then num_add (score s) (calculateLineScore k (level s))
     else score s)
  /\ lines (getState (lockPiece w)) = lines s + k.
Proof.
  intros Hcur s k. unfold lockPiece. rewrite Hcur.
  pose proof (spawnNextPiece_keeps (placeAndScore w piece))
    as (_ & -> & -> & _).
  unfold placeAndScore.
  change (snd (clearLines (board (getState (emit (GameEvent.PIECE_LOCK piece)
            (onBoard (fun b => placePiece b piece (currentX (getState w))
                                 (currentY (getState w))) w))))))
    with k.
  fold s.
  destruct (k >? 0) eqn:Hk.
  - apply Z.gtb_lt in Hk.
    match goal with
    | |- context [scoreLines s k ?w3] =>
        destruct (scoreLines_values s k w3 Hk) as (Hscore & Hlines & _)
    end.
    split; assumption.
  - unfold scoreLines. rewrite Hk. simpl.
    assert (0 <= k) by (subst k; unfold clearLines; simpl; lia).
    assert (k = 0) by lia.
    subst s. unfold getState in *. split; [reflexivity | lia].
Qed.

(** X16. [hardDrop] lands the piece, then locks it.  From a valid position
    of a falling piece, the piece is placed [d] rows down, where [d] is
    the hard-drop distance: that position is valid and the one below it is
    not.  The board becomes the board with the piece placed there and the
    lines cleared; the score grows by 2 per row fallen, then by the line
    score at the level as it was; the line total grows by the number of
    lines cleared. *)
Theorem X16_hardDrop_lands_then_locks (w : World) (piece : Piece) (sc : Z) :
  let s := getState w in
  canMove s = true ->
  currentPiece s = Some piece ->
  cataloguePiece piece ->
  isValidPosition (board s) piece (currentX s) (currentY s) = true ->
  score s = Int sc ->
  let d := getHardDropDistance (board s) piece (currentX s) (currentY s) in
  let landed := placePiece (board s) piece (currentX s) (currentY s + d) in
  let k := snd (clearLines landed) in
  let s' := getState (hardDrop w) in
  0 <= d
  /\ isValidPosition (board s) piece (currentX s) (currentY s + d) = true
  /\ isValidPosition (board s) piece (currentX s) (currentY s + d + 1) = false
  /\ board s' = fst (clearLines landed)
  /\ score s' =
       (if k >? 0
        then num_add (Int (sc + d * HARD_DROP_SCORE))
                     (calculateLineScore k (level s))
        else Int (sc + d * HARD_DROP_SCORE))
  /\ lines s' = lines s + k.
Proof.
  intros s Hguard Hcur Hcat Hvalid Hscore d landed k s'.
  pose proof (getHardDropDistance_stops (board s) piece (currentX s)
                (currentY s) Hcat) as Hstop.
  destruct (getHardDropDistance_valid (board s) piece (currentX s)
              (currentY s) Hvalid) as [Hd Hland].
  fold d in Hstop, Hland, Hd.
  split; [exact Hd |]. split; [exact Hland |]. split; [exact Hstop |].
  assert (exists w1 : World,
             hardDrop w = lockPiece w1
             /\ currentPiece (getState w1) = Some piece
             /\ board (getState w1) = board s
             /\ currentX (getState w1) = currentX s
             /\ currentY (getState w1) = currentY s + d
             /\ score (getState w1) = Int (sc + d * HARD_DROP_SCORE)
             /\ lines (getState w1) = lines s
             /\ level (getState w1) = level s)
    as (w1 & Hdrop & Hcur1 & Hb1 & Hx1 & Hy1 & Hs1 & Hl1 & Hv1).
  { unfold hardDrop. fold s. rewrite Hguard, Hcur. simpl negb. cbv iota.
    fold d. destruct (d >? 0) eqn:Hpos.
    - eexists. split; [reflexivity |]. simpl. fold s.
      rewrite Hscore. simpl. tauto.
    - exists w. split; [reflexivity |]. fold s.
      assert (d = 0) as -> by lia.
      rewrite Hscore, Z.add_0_r. simpl. rewrite Z.add_0_r. tauto. }
  subst s'. rewrite Hdrop.
  destruct (lockPiece_score w1 piece Hcur1) as [Hsc Hln].
  rewrite lockPiece_board, Hcur1.
  rewrite Hb1, Hx1, Hy1, Hs1, Hl1, Hv1 in *.
  fold landed in Hsc, Hln |- *. fold k in Hsc, Hln.
  tauto.
Qed.

(** X16 at work: the first I piece falls 18 rows and clears nothing. *)
Lemma X16_hardDrop_witness :
  score (getState (hardDrop startedWorld)) = Int 36
  /\ lines (getState (hardDrop startedWorld)) = 0.
Proof.
  destruct (X16_hardDrop_lands_then_locks startedWorld
              (newPiece PieceType.I) 0 eq_refl eq_refl)
    as (_ & _ & _ & _ & Hs & Hl).
  - unfold cataloguePiece. simpl. lia.
  - vm_compute. reflexivity.
  - reflexivity.
  - rewrite Hs, Hl. vm_compute. split; reflexivity.
Defined.

(** X17. A soft drop pays exactly when the piece moves.  If the cell below
    is free, [moveDown] answers [true], lowers the piece by one row,
    restarts the gravity timer and leaves the score alone, and [softDrop]
    does the same and adds 1 to the score; if it is not, [moveDown]
    answers [false], both lock the piece, and [softDrop] pays nothing. *)
Theorem X17_soft_drop_pays_when_the_piece_moves (w : World) (piece : Piece) :
  let s := getState w in
  canMove s = true ->
  currentPiece s = Some piece ->
  if isValidPosition (board s) piece (currentX s) (currentY s + 1)
  then fst (moveDown w) = true
       /\ store (snd (moveDown w)) =
            merge s [currentY_ (currentY s + 1); lastDropTime_ (now w);
                     isDirty_ true]
       /\ events (snd (moveDown w)) =
            events w ++ [GameEvent.PIECE_MOVE Direction.down]
       /\ store (softDrop w) =
            merge s [currentY_ (currentY s + 1); lastDropTime_ (now w);
                     isDirty_ true;
                     score_ (num_add (score s) (Int SOFT_DROP_SCORE))]
       /\ events (softDrop w) =
            events w ++ [GameEvent.PIECE_MOVE Direction.down;
                         GameEvent.SCORE_UPDATE
                           (num_add (score s) (Int SOFT_DROP_SCORE))]
  else fst (moveDown w) = false
       /\ snd (moveDown w) = lockPiece w
       /\ softDrop w = lockPiece w.
Proof.
  intros s Hguard Hcur.
  unfold softDrop, moveDown. fold s. rewrite Hguard, Hcur. simpl negb.
  cbv iota.
  destruct (isValidPosition _ _ _ _); simpl.
  - rewrite <- app_assoc. repeat split; reflexivity.
  - repeat split; reflexivity.
Qed.

(** X17 at work on the first piece of a game. *)
Lemma X17_soft_drop_witness :
  score (getState (softDrop startedWorld)) = Int 1
  /\ currentY (getState (softDrop startedWorld)) = 1.
Proof.
  pose proof (X17_soft_drop_pays_when_the_piece_moves startedWorld
                (newPiece PieceType.I) eq_refl eq_refl) as H.
  vm_compute isValidPosition in H.
  change (isValidPosition _ _ _ _) with true in H.
  destruct H as (_ & _ & _ & Hstore & _).
  unfold getState. rewrite Hstore. split; reflexivity.
Defined.

Lemma moveLeft_moves (w : World) (piece : Piece) :
  let s := getState w in
  canMove s = true -> currentPiece s = Some piece ->
  isValidPosition (board s) piece (currentX s - 1) (currentY s) = true ->
  moveLeft w =
    emit (GameEvent.PIECE_MOVE Direction.left)
      (setState [currentX_ (currentX s - 1); isDirty_ true] w).
Proof.
  intros s Hguard Hcur Hfits. unfold moveLeft. fold s.
  rewrite Hguard, Hcur, Hfits. reflexivity.
Qed.

Lemma moveRight_moves (w : World) (piece : Piece) :
  let s := getState w in
  canMove s = true -> currentPiece s = Some piece ->
  isValidPosition (board s) piece (currentX s + 1) (currentY s) = true ->
  moveRight w =
    emit (GameEvent.PIECE_MOVE Direction.right)
      (setState [currentX_ (currentX s + 1); isDirty_ true] w).
Proof.
  intros s Hguard Hcur Hfits. unfold moveRight. fold s.
  rewrite Hguard, Hcur, Hfits. reflexivity.
Qed.

(** X18. A step left and a step right undo each other.  For a falling
    piece in a valid position: if the position one column to the left is
    valid, [moveLeft] then [moveRight] gives the state back, with the dirty
    flag set and the two moves logged; likewise [moveRight] then
    [moveLeft]; and a move into an invalid position does nothing at
    all. *)
Theorem X18_left_then_right_returns (w : World) (piece : Piece) :
  let s := getState w in
  canMove s = true ->
  currentPiece s = Some piece ->
  isValidPosition (board s) piece (currentX s) (currentY s) = true ->
  (isValidPosition (board s) piece (currentX s - 1) (currentY s) = true ->
   store (moveRight (moveLeft w)) = merge s [isDirty_ true]
   /\ events (moveRight (moveLeft w)) =
        events w ++ [GameEvent.PIECE_MOVE Direction.left;
                     GameEvent.PIECE_MOVE Direction.right])
  /\ (isValidPosition (board s) piece (currentX s + 1) (currentY s) = true ->
      store (moveLeft (moveRight w)) = merge s [isDirty_ true]
      /\ events (moveLeft (moveRight w)) =
           events w ++ [GameEvent.PIECE_MOVE Direction.right;
                        GameEvent.PIECE_MOVE Direction.left])
  /\ (isValidPosition (board s) piece (currentX s - 1) (currentY s) = false ->
      moveLeft w = w)
  /\ (isValidPosition (board s) piece (currentX s + 1) (currentY s) = false ->
      moveRight w = w).
Proof.
  intros s Hguard Hcur Hvalid.
  split; [| split; [| split]].
  - intros Hfits.
    rewrite (moveLeft_moves w piece Hguard Hcur Hfits).
    rewrite (moveRight_moves _ piece).
    + simpl. rewrite <- app_assoc. split; [| reflexivity].
      subst s. unfold getState. simpl. f_equal. lia.
    + exact Hguard.
    + exact Hcur.
    + simpl. fold s. replace (currentX s - 1 + 1) with (currentX s) by lia.
      exact Hvalid.
  - intros Hfits.
    rewrite (moveRight_moves w piece Hguard Hcur Hfits).
    rewrite (moveLeft_moves _ piece).
    + simpl. rewrite <- app_assoc. split; [| reflexivity].
      subst s. unfold getState. simpl. f_equal. lia.
    + exact Hguard.
    + exact Hcur.
    + simpl. fold s. replace (currentX s + 1 - 1) with (currentX s) by lia.
      exact Hvalid.
  - intros H. unfold moveLeft. fold s. rewrite Hguard, Hcur, H. reflexivity.
  - intros H. unfold moveRight. fold s. rewrite Hguard, Hcur, H. reflexivity.
Qed.

(** X18 at work on the first piece of a game. *)
Lemma X18_left_then_right_witness :
  store (moveRight (moveLeft startedWorld)) =
    merge (getState startedWorld) [isDirty_ true]
  /\ store (moveLeft (moveRight startedWorld)) =
       merge (getState startedWorld) [isDirty_ true].
Proof.
  destruct (X18_left_then_right_returns startedWorld (newPiece PieceType.I)
              eq_refl eq_refl) as (Hl & Hr & _).
  - vm_compute. reflexivity.
  - split; [apply Hl | apply Hr]; vm_compute; reflexivity.
Defined.

Lemma perform_asleep (a : Action) (w : World) :
  status (getState w) <> GameStatus.PLAYING ->
  wakes a (getState w) = false -> perform a w = w.
Proof.
  intros Hst Hwake.
  assert (canMove (getState w) = false) as Hguard.
  { unfold canMove. rewrite bool_decide_eq_false_2 by exact Hst.
    reflexivity. }
  destruct a; simpl in *; try discriminate.
  - unfold pause. rewrite bool_decide_eq_false_2 by exact Hst. reflexivity.
  - unfold resume. rewrite Hwake. reflexivity.
  - unfold moveLeft. rewrite Hguard. reflexivity.
  - unfold moveRight. rewrite Hguard. reflexivity.
  - unfold moveDown. rewrite Hguard. reflexivity.
  - unfold softDrop. rewrite Hguard. reflexivity.
  - unfold hardDrop. rewrite Hguard. reflexivity.
  - unfold rotate. rewrite Hguard. reflexivity.
  - unfold hold. rewrite Hguard. reflexivity.
Qed.

Lemma run_asleep (actions : list Action) (w : World) :
  status (getState w) <> GameStatus.PLAYING ->
  ~ In StartGame actions ->
  (status (getState w) = GameStatus.PAUSED -> ~ In Resume actions) ->
  run actions w = w.
Proof.
  intros Hst Hstart Hresume.
  induction actions as [| a actions' IH]; [reflexivity |].
  simpl. rewrite perform_asleep.
  - apply IH.
    + intros Hin. apply Hstart. right. exact Hin.
    + intros Hp Hin. apply (Hresume Hp). right. exact Hin.
  - exact Hst.
  - destruct a; try reflexivity.
    + exfalso. apply Hstart. left. reflexivity.
    + simpl. apply bool_decide_eq_false_2. intros Hp.
      apply (Hresume Hp). left. reflexivity.
Qed.

(** X19. Nothing moves unless the game is playing.  In a state that is
    not PLAYING, a sequence of actions without [startGame], and without
    [resume] if the state is PAUSED, leaves the world exactly as it was:
    same state, same log, same piece supply, nobody notified. *)
Theorem X19_nothing_moves_unless_playing (actions : list Action) (w : World) :
  status (getState w) <> GameStatus.PLAYING ->
  ~ In StartGame actions ->
  (status (getState w) = GameStatus.PAUSED -> ~ In Resume actions) ->
  run actions w = w
  /\ store (run actions w) = store w
  /\ events (run actions w) = events w
  /\ notifications (run actions w) = notifications w
  /\ generator (run actions w) = generator w.
Proof.
  intros Hst Hstart Hresume.
  rewrite (run_asleep actions w Hst Hstart Hresume). repeat split.
Qed.

(** X19 at work on a paused game. *)
Lemma X19_nothing_moves_witness :
  run [MoveLeft; HardDrop; Rotate clockwise; Hold; Pause; MoveDown;
       SoftDrop] pausedWorld = pausedWorld.
Proof.
  apply X19_nothing_moves_unless_playing.
  - vm_compute. discriminate.
  - simpl. intuition discriminate.
  - intros _. simpl. intuition discriminate.
Defined.

(** X20. A pause is transparent.  From a PLAYING state, [pause], then any
    actions other than [startGame] and [resume], then [resume] amount to
    [pause] followed at once by [resume]: the state comes back as it was
    but for the gravity timer, restarted at the current time, and the
    dirty flag; the log gains the pause and the resume events; the piece
    supply is untouched. *)
Theorem X20_pause_then_resume (actions : list Action) (w : World) :
  status (getState w) = GameStatus.PLAYING ->
  ~ In StartGame actions -> ~ In Resume actions ->
  run (Pause :: actions ++ [Resume]) w = resume (pause w)
  /\ store (resume (pause w)) =
       merge (getState w) [lastDropTime_ (now w); isDirty_ true]
  /\ events (resume (pause w)) =
       events w ++ [GameEvent.GAME_PAUSE; GameEvent.GAME_RESUME]
  /\ generator (resume (pause w)) = generator w.
Proof.
  intros Hst Hstart Hresume.
  assert (pause w =
            emit GameEvent.GAME_PAUSE
              (setState [status_ GameStatus.PAUSED; isDirty_ true] w))
    as Hpause.
  { unfold pause. rewrite bool_decide_eq_true_2 by exact Hst. reflexivity. }
  split.
  - change (run (Pause :: actions ++ [Resume]) w)
      with (run (actions ++ [Resume]) (pause w)).
    rewrite run_snoc. simpl. f_equal.
    apply run_asleep.
    + rewrite Hpause. simpl. discriminate.
    + exact Hstart.
    + intros _. exact Hresume.
  - rewrite Hpause. unfold resume. simpl.
    rewrite <- app_assoc.
    split; [| split; reflexivity].
    unfold getState in *. simpl. rewrite Hst. reflexivity.
Qed.

(** X20 at work on a game just started. *)
Lemma X20_pause_then_resume_witness :
  run [Pause; MoveLeft; HardDrop; Hold; Resume] startedWorld =
    resume (pause startedWorld).
Proof.
  apply (X20_pause_then_resume [MoveLeft; HardDrop; Hold] startedWorld).
  - reflexivity.
  - simpl. intuition discriminate.
  - simpl. intuition discriminate.
Defined.


Lemma scoreLines_extends (state : GameState) (k : Z) (w : World) :
  (notifications w <= notifications (scoreLines state k w))%nat
  /\ exists es, events (scoreLines state k w) = events w ++ es.
Proof.
  unfold scoreLines. destruct (k >? 0).
  - destruct (_ >? level state); simpl; (split; [lia |]);
      rewrite <- ?app_assoc; eexists; reflexivity.
  - split; [lia |]. exists []. rewrite app_nil_r. reflexivity.
Qed.

Lemma spawnNextPiece_advances (w : World) :
  isDirty (getState (spawnNextPiece w)) = true
  /\ notifications (spawnNextPiece w) = S (notifications w)
  /\ exists e, events (spawnNextPiece w) = events w ++ [e].
Proof.
  destruct (drawNext w) as [[piece queue] w1] eqn:Hdraw.
  rewrite (spawnNextPiece_cases _ _ _ _ Hdraw).
  apply drawNext_frame in Hdraw as (_ & He & Hn & _).
  destruct (isValidPosition _ _ _ _); simpl; rewrite He, Hn;
    (split; [reflexivity |]); (split; [reflexivity |]);
    eexists; reflexivity.
Qed.

Lemma placeAndScore_extends (w : World) (piece : Piece) :
  (notifications w <= notifications (placeAndScore w piece))%nat
  /\ exists es,
       events (placeAndScore w piece) =
         events w ++ GameEvent.PIECE_LOCK piece :: es.
Proof.
  unfold placeAndScore.
  match goal with
  | |- context [scoreLines ?st ?k ?w3] =>
      destruct (scoreLines_extends st k w3) as [Hn3 [es He3]]
  end.
  split; [exact Hn3 |].
  exists es. rewrite He3. simpl. rewrite <- app_assoc. reflexivity.
Qed.

Lemma lockPiece_advances (w w0 : World) (piece : Piece) :
  currentPiece (getState w) = Some piece ->
  (notifications w0 <= notifications w)%nat ->
  (exists es, events w = events w0 ++ es) ->
  advanced w0 (lockPiece w).
Proof.
  intros Hcur Hn [es0 He]. unfold lockPiece. rewrite Hcur.
  destruct (spawnNextPiece_advances (placeAndScore w piece))
    as (Hdirty & Hnote & e & Hlog).
  destruct (placeAndScore_extends w piece) as [Hn3 [es He3]].
  split; [exact Hdirty |]. rewrite Hnote, Hlog, He3, He.
  split; [lia |].
  destruct es0 as [| e0 es0']; rewrite <- !app_assoc; simpl;
    eexists _, _; reflexivity.
Qed.

Lemma tryWallKicks_advances
    (state : GameState) (piece : Piece) (direction : RotationDirection)
    (offsets : list (Z * Z)) (w : World) :
  tryWallKicks state piece direction offsets w = w
  \/ advanced w (tryWallKicks state piece direction offsets w).
Proof.
  induction offsets as [| [ox oy] offsets' IH]; simpl; [left; reflexivity |].
  destruct (isValidPosition _ _ _ _); [| exact IH].
  right. split; [reflexivity |]. split; [simpl; lia |].
  simpl. eexists _, []. reflexivity.
Qed.

Ltac show_advanced :=
  right; split; [reflexivity |]; split; [simpl; lia |];
  simpl; rewrite <- ?app_assoc; eexists _, _; reflexivity.

Lemma perform_advances (a : Action) (w : World) :
  perform a w = w \/ advanced w (perform a w).
Proof.
  destruct a; simpl.
  - unfold startGame. destruct (bool_decide _); [left; reflexivity |].
    destruct (resetGenerator _ _) as [g r].
    destruct (drawNext _) as [[p queue] w3] eqn:Hdraw.
    apply drawNext_frame in Hdraw as (_ & He & Hn & _).
    right. split; [reflexivity |]. simpl. rewrite He, Hn. simpl.
    split; [lia |]. rewrite <- app_assoc. eexists _, _. reflexivity.
  - unfold pause. destruct (bool_decide _); [show_advanced | tauto].
  - unfold resume. destruct (bool_decide _); [show_advanced | tauto].
  - unfold moveLeft. repeat break_branch; try tauto. show_advanced.
  - unfold moveRight. repeat break_branch; try tauto. show_advanced.
  - destruct (moveDown_cases w)
      as [[_ Hm] | [(p & _ & _ & _ & Hm) | (p & _ & Hcur & _ & Hm)]];
      rewrite Hm; simpl; [tauto | show_advanced |].
    right. apply (lockPiece_advances w w p Hcur); [lia |].
    exists []. rewrite app_nil_r. reflexivity.
  - destruct (softDrop_cases w)
      as [[_ Hm] | [(p & Hg0 & Hcur & Hv & Hm) | (p & _ & Hcur & _ & Hm)]];
      rewrite Hm; [tauto | |].
    + destruct (moveDown_cases w)
        as [[Hg _] | [(p2 & _ & _ & _ & Hd) | (p2 & _ & Hc2 & Hv2 & _)]].
      * congruence.
      * rewrite Hd. show_advanced.
      * congruence.
    + right. apply (lockPiece_advances w w p Hcur); [lia |].
      exists []. rewrite app_nil_r. reflexivity.
  - unfold hardDrop.
    destruct (canMove (getState w)) eqn:Hg; simpl; [| tauto].
    apply canMove_true in Hg as [Hst [piece Hcur]]. rewrite Hcur.
    right. destruct (_ >? 0).
    + eapply lockPiece_advances; [exact Hcur | simpl; lia |].
      simpl. eexists. reflexivity.
    + apply (lockPiece_advances w w piece Hcur); [lia |].
      exists []. rewrite app_nil_r. reflexivity.
  - unfold rotate. destruct (negb _); [tauto |].
    destruct (currentPiece (getState w)) as [current |] eqn:Hcur; [| tauto].
    destruct (isValidPosition _ _ _ _); [show_advanced |].
    apply tryWallKicks_advances.
  - unfold hold. destruct (_ || _); [tauto |].
    destruct (currentPiece (getState w)) as [current |] eqn:Hcur; [| tauto].
    destruct (holdPiece (getState w)) as [held |]; [show_advanced |].
    destruct (drawNext w) as [[p queue] w0] eqn:Hdraw.
    apply drawNext_frame in Hdraw as (_ & He & Hn & _).
    right. split; [reflexivity |]. simpl. rewrite He, Hn.
    split; [lia |]. eexists _, []. reflexivity.
Qed.

(** X21. Every effect is announced.  An action either leaves the world
    exactly as it was, or leaves the dirty flag set, has notified the
    subscribers of the store and has emitted at least one event; in the
    second case the next [render] draws.  [render] draws exactly when the
    flag is set and clears it, so a second [render] in a row does not
    draw; it changes nothing else of the state and emits nothing. *)
Theorem X21_every_effect_is_announced (a : Action) (w : World) :
  let w' := perform a w in
  (w' = w \/ advanced w w')
  /\ (advanced w w' -> fst (render w') = true)
  /\ fst (render w') = isDirty (getState w')
  /\ isDirty (getState (snd (render w'))) = false
  /\ fst (render (snd (render w'))) = false
  /\ merge (store (snd (render w'))) [isDirty_ true] =
       merge (store w') [isDirty_ true]
  /\ events (snd (render w')) = events w'.
Proof.
  intros w'. split; [apply perform_advances |].
  unfold render, advanced.
  destruct (isDirty (getState w')) eqn:Hdirty; simpl.
  - repeat split; reflexivity.
  - rewrite ?Hdirty. repeat split; try reflexivity; try assumption.
    intros (H & _). discriminate H.
Qed.

(** X21 at work: a move of the first piece is drawn. *)
Lemma X21_every_effect_witness :
  fst (render (perform MoveLeft startedWorld)) = true.
Proof.
  destruct (X21_every_effect_is_announced MoveLeft startedWorld)
    as ([Hsame | Hadv] & Hrender & _).
  - vm_compute in Hsame. discriminate Hsame.
  - apply Hrender, Hadv.
Defined.

(** X22. The controller's [togglePause] switches between PLAYING and
    PAUSED and does nothing in the other states.  The key handler's
    [handlePauseToggle] calls [pause] and then [resume]: it never leaves
    the game paused; on a PLAYING game it emits a pause and a resume event
    and the game is playing again; on a PAUSED game it resumes. *)
Theorem X22_pause_toggles (w : World) :
  let st := status (getState w) in
  status (getState (togglePause w)) =
    match st with
    | GameStatus.PLAYING => GameStatus.PAUSED
    | GameStatus.PAUSED => GameStatus.PLAYING
    | other => other
    end
  /\ togglePause w =
       match st with
       | GameStatus.PLAYING => pause w
       | GameStatus.PAUSED => resume w
       | _ => w
       end
  /\ status (getState (handlePauseToggle w)) <> GameStatus.PAUSED
  /\ status (getState (handlePauseToggle w)) =
       match st with
       | GameStatus.PAUSED => GameStatus.PLAYING
       | other => other
       end
  /\ events (handlePauseToggle w) =
       events w ++
       match st with
       | GameStatus.PLAYING =>
           [GameEvent.GAME_PAUSE; GameEvent.GAME_RESUME]
       | GameStatus.PAUSED => [GameEvent.GAME_RESUME]
       | _ => []
       end.
Proof.
  intros st. subst st.
  unfold togglePause, controllerPause, controllerResume, handlePauseToggle,
    pause, resume.
  destruct (status (getState w)) eqn:Hst; simpl;
    rewrite ?Hst; simpl; rewrite <- ?app_assoc, ?app_nil_r;
    repeat split; try reflexivity; try discriminate; try congruence.
Qed.

(** The queue [reset()] builds, followed by [m] more draws, is the first
    [previewCount + m] draws from an empty bag. *)
Lemma resetGenerator_draws (g : PieceGenerator) (r : Random) (m : nat) :
  let g0 := fst (resetGenerator g r) in
  let r0 := snd (resetGenerator g r) in
  getPreview g0 ++ fst (fst (generatePieces m (bag g0) r0)) =
    fst (fst (generatePieces (S (length (previewTail g)) + m) [] r)).
Proof.
  cbv zeta. rewrite generatePieces_app.
  unfold resetGenerator. cbn [generatePieces].
  destruct (generatePiece [] r) as [[first bg1] r1].
  destruct (generatePieces (length (previewTail g)) bg1 r1)
    as [[rest bg2] r2].
  cbn [fst snd bag getPreview previewHead previewTail].
  destruct (generatePieces m bg2 r2) as [[ds bg3] r3].
  reflexivity.
Qed.

(** X23. [startGame] gives a fresh game whatever came before.  From a
    state that is not PLAYING the state becomes: PLAYING, the board
    emptied, the first piece drawn from a newly shuffled bag at the spawn
    cell, the pieces drawn after it as preview, nothing held, hold
    allowed, score 0, no lines, level 1, gravity interval 1000, the timer
    at the current time, the dirty flag set; the start and the spawn are
    logged; the piece is unrotated and, on the 12 x 20 board, in a valid
    position. *)
Theorem X23_startGame_gives_a_fresh_game (w : World) :
  status (getState w) <> GameStatus.PLAYING ->
  let s := getState w in
  let s' := getState (startGame w) in
  let drawn :=
    fst (fst (generatePieces (S (S (length (previewTail (generator w)))))
                             [] (random w))) in
  exists first : Piece,
    first :: nextPieces s' = drawn
    /\ nextPieces s' = getPreview (generator (startGame w))
    /\ s' = mkGameState GameStatus.PLAYING (clearBoard (board s))
              (Some first) SPAWN_X SPAWN_Y None true (nextPieces s')
              (Int 0) 0 1 INITIAL_DROP_INTERVAL (now w) true
    /\ events (startGame w) =
         events w ++ [GameEvent.GAME_START; GameEvent.PIECE_SPAWN first]
    /\ rotation first = 0
    /\ (standardBoard w ->
        isValidPosition (board s') first SPAWN_X SPAWN_Y = true).
Proof.
  intros Hst s s' drawn. subst s'.
  pose proof (resetGenerator_draws (generator w) (random w) 1) as Hdraws.
  cbv zeta in Hdraws.
  replace (S (length (previewTail (generator w))) + 1)%nat
    with (S (S (length (previewTail (generator w))))) in Hdraws by lia.
  fold drawn in Hdraws.
  unfold startGame. fold s.
  rewrite bool_decide_eq_false_2 by exact Hst.
  destruct (resetGenerator (generator w) (random w)) as [g0 r0].
  simpl fst in Hdraws. simpl snd in Hdraws.
  destruct (nextN_spec 1 g0 r0) as (Hps & Hq & _). cbv zeta in Hps, Hq.
  unfold drawNext. cbn [generator random onBoard].
  cbn [nextN] in Hps, Hq.
  destruct (next g0 r0) as [[p g1] r1].
  cbn [fst snd] in Hps, Hq.
  exists p.
  assert (p :: getPreview g1 = drawn) as Hdrawn.
  { rewrite <- Hdraws, Hq.
    match goal with
    | |- _ :: drop 1 ?X = _ => transitivity (take 1 X ++ drop 1 X)
    end; [rewrite <- Hps; reflexivity | rewrite take_drop; reflexivity]. }
  assert (rotation p = 0) as Hrot.
  { destruct (generatePieces (S (S (length (previewTail (generator w)))))
                [] (random w)) as [[ps bg'] r'] eqn:Hgen.
    apply generatePieces_fresh in Hgen.
    subst drawn. simpl in Hdrawn. subst ps.
    apply Forall_cons in Hgen as [Hp _]. exact Hp. }
  simpl. rewrite <- app_assoc.
  repeat split; try assumption; try reflexivity.
  intros [Hw Hh]. apply spawn_fits_empty_board; assumption.
Qed.

(** X23 at work: a new game from a paused one. *)
Lemma X23_startGame_witness :
  score (getState (startGame pausedWorld)) = Int 0
  /\ board (getState (startGame pausedWorld)) =
       newBoard BOARD_WIDTH BOARD_HEIGHT.
Proof.
  destruct (X23_startGame_gives_a_fresh_game pausedWorld)
    as (first & _ & _ & Hstate & _).
  - vm_compute. discriminate.
  - rewrite Hstate. split; [reflexivity | vm_compute; reflexivity].
Defined.

(* ================================================================== *)
(** * The keyboard: first press, delayed auto shift, auto repeat *)
(* ================================================================== *)

Lemma mapGet_app_fresh (key : string) (m1 m2 : KeyStates) :
  key ∉ map fst m1 -> mapGet key (m1 ++ m2) = mapGet key m2.
Proof.
  induction m1 as [| [k v] m1 IH]; intros Hnot; simpl; [reflexivity |].
  destruct (String.eqb k key) eqn:E.
  - apply String.eqb_eq in E. subst k. exfalso. apply Hnot. left.
  - apply IH. intros Hin. apply Hnot. right. exact Hin.
Qed.

Lemma mapGet_head (key : string) (v : KeyState) (m : KeyStates) :
  mapGet key ((key, v) :: m) = Some v.
Proof. simpl. rewrite String.eqb_refl. reflexivity. Qed.

Lemma handleKeyAction_repeat
    (key : string) (state : KeyState) (m : KeyStates) (w : World) :
  mapGet key m = Some state -> now w >= repeatTime state ->
  handleKeyAction key m w =
    match repeatedAction key with
    | Some a => perform a w
    | None => w
    end.
Proof.
  intros Hget Hdue. unfold handleKeyAction, repeatedAction, isFirstPress.
  rewrite Hget.
  replace (now w <? repeatTime state) with false
    by (symmetry; apply Z.ltb_ge; lia).
  repeat break_branch; reflexivity.
Qed.

Lemma scoreLines_now (state : GameState) (k : Z) (w : World) :
  now (scoreLines state k w) = now w.
Proof. unfold scoreLines. repeat break_branch; reflexivity. Qed.

Lemma lockPiece_now (w : World) : now (lockPiece w) = now w.
Proof.
  unfold lockPiece. destruct (currentPiece (getState w)) as [piece |];
    [| reflexivity].
  destruct (drawNext (placeAndScore w piece)) as [[p queue] w1] eqn:Hdraw.
  rewrite (spawnNextPiece_cases _ _ _ _ Hdraw).
  apply drawNext_frame in Hdraw as (_ & _ & _ & Hn & _).
  transitivity (now w1).
  - destruct (isValidPosition _ _ _ _); reflexivity.
  - rewrite Hn. unfold placeAndScore. rewrite scoreLines_now. reflexivity.
Qed.

Lemma tryWallKicks_now
    (state : GameState) (piece : Piece) (direction : RotationDirection)
    (offsets : list (Z * Z)) (w : World) :
  now (tryWallKicks state piece direction offsets w) = now w.
Proof.
  induction offsets as [| [ox oy] offsets' IH]; simpl; [reflexivity |].
  destruct (isValidPosition _ _ _ _); [reflexivity | exact IH].
Qed.

(** No action moves the clock. *)
Lemma perform_now (a : Action) (w : World) : now (perform a w) = now w.
Proof.
  destruct a; simpl.
  - unfold startGame. destruct (bool_decide _); [reflexivity |].
    destruct (resetGenerator _ _) as [g r].
    destruct (drawNext _) as [[p queue] w3] eqn:Hdraw.
    apply drawNext_frame in Hdraw as (_ & _ & _ & Hn & _).
    simpl. exact Hn.
  - unfold pause. destruct (bool_decide _); reflexivity.
  - unfold resume. destruct (bool_decide _); reflexivity.
  - unfold moveLeft. repeat break_branch; reflexivity.
  - unfold moveRight. repeat break_branch; reflexivity.
  - unfold moveDown. repeat break_branch; try reflexivity.
    apply lockPiece_now.
  - destruct (softDrop_cases w)
      as [[_ Hm] | [(p & _ & _ & _ & Hm) | (p & _ & _ & _ & Hm)]];
      rewrite Hm; [reflexivity | | apply lockPiece_now].
    destruct (moveDown_cases w)
      as [[_ Hd] | [(p2 & _ & _ & _ & Hd) | (p2 & _ & _ & _ & Hd)]];
      rewrite Hd; simpl; [reflexivity | reflexivity | apply lockPiece_now].
  - unfold hardDrop. repeat break_branch; try reflexivity;
      rewrite lockPiece_now; reflexivity.
  - unfold rotate. repeat break_branch; try reflexivity.
    apply tryWallKicks_now.
  - unfold hold. repeat break_branch; try reflexivity.
    match goal with
    | H : drawNext w = _ |- _ => apply drawNext_frame in H as (_ & _ & _ & Hn & _)
    end.
    simpl. exact Hn.
Qed.

Lemma updateLoop_spec (now0 : Z) (m : KeyStates) :
  forall (visited : KeyStates) (w : World),
    now w = now0 ->
    NoDup (map fst (visited ++ m)) ->
    updateLoop now0 visited m w =
      (visited ++ map (visit now0) m,
       run (omap repeatedAction (map fst (List.filter (due now0) m))) w).
Proof.
  induction m as [| [key state] m' IH]; intros visited w Hnow Hnodup.
  - simpl. rewrite app_nil_r. reflexivity.
  - assert (NoDup (map fst ((visited ++ [(key, state)]) ++ m'))) as Hnodup1
      by (rewrite <- app_assoc; exact Hnodup).
    assert (forall state',
               NoDup (map fst ((visited ++ [(key, state')]) ++ m')))
      as Hnodup2.
    { intros state'. rewrite <- app_assoc. rewrite !map_app in *.
      exact Hnodup. }
    assert (key ∉ map fst visited) as Hfresh.
    { rewrite map_app in Hnodup. apply NoDup_app in Hnodup as (_ & Hdisj & _).
      intros Hin. apply (Hdisj _ Hin). left. }
    cbn [updateLoop List.filter map].
    destruct (due now0 (key, state)) eqn:Hd.
    + pose proof Hd as Hd'. unfold due in Hd'. cbn [snd] in Hd'.
      apply andb_true_iff in Hd' as [Hp Hge].
      unfold visit at 1. rewrite Hd, Hp, Hge. cbn [negb fst snd].
      rewrite (handleKeyAction_repeat key state).
      * rewrite IH.
        -- rewrite <- app_assoc. cbn [map fst]. rewrite Hp.
           change (omap repeatedAction (key :: ?l))
             with (match repeatedAction key with
                   | Some a => a :: omap repeatedAction l
                   | None => omap repeatedAction l
                   end).
           destruct (repeatedAction key); reflexivity.
        -- destruct (repeatedAction key); [rewrite perform_now |]; exact Hnow.
        -- apply Hnodup2.
      * rewrite mapGet_app_fresh by exact Hfresh. apply mapGet_head.
      * rewrite Hnow. apply Z.geb_le in Hge. lia.
    + pose proof Hd as Hd'. unfold due in Hd'. cbn [snd] in Hd'.
      unfold visit at 1. rewrite Hd.
      destruct (isPressed state); cbn [negb andb] in *.
      * rewrite Hd'. rewrite IH by assumption.
        rewrite <- app_assoc. reflexivity.
      * rewrite IH by assumption. rewrite <- app_assoc. reflexivity.
Qed.
Lemma mapGet_mapSet_same (key : string) (v : KeyState) (m : KeyStates) :
  mapGet key (mapSet key v m) = Some v.
Proof.
  induction m as [| [k v0] m IH]; simpl.
  - rewrite String.eqb_refl. reflexivity.
  - destruct (String.eqb k key) eqn:E; simpl; rewrite E; [reflexivity | exact IH].
Qed.

Lemma mapGet_mapSet_other (key k : string) (v : KeyState) (m : KeyStates) :
  k <> key -> mapGet k (mapSet key v m) = mapGet k m.
Proof.
  intros Hne. induction m as [| [k0 v0] m IH]; simpl.
  - replace (String.eqb key k) with false; [reflexivity |].
    symmetry. apply String.eqb_neq. congruence.
  - destruct (String.eqb k0 key) eqn:E; simpl.
    + apply String.eqb_eq in E. subst k0.
      replace (String.eqb key k) with false; [reflexivity |].
      symmetry. apply String.eqb_neq. congruence.
    + destruct (String.eqb k0 k); [reflexivity | exact IH].
Qed.

Lemma mapSet_keys (key : string) (v : KeyState) (m : KeyStates) :
  map fst (mapSet key v m) =
    if bool_decide (key ∈ map fst m) then map fst m
    else map fst m ++ [key].
Proof.
  induction m as [| [k v0] m IH]; simpl; [reflexivity |].
  destruct (String.eqb k key) eqn:E; simpl.
  - apply String.eqb_eq in E. subst k.
    rewrite bool_decide_eq_true_2 by left. reflexivity.
  - apply String.eqb_neq in E. rewrite IH.
    destruct (bool_decide (key ∈ map fst m)) eqn:Hin.
    + apply bool_decide_eq_true_1 in Hin.
      rewrite bool_decide_eq_true_2 by (right; exact Hin). reflexivity.
    + apply bool_decide_eq_false_1 in Hin.
      rewrite bool_decide_eq_false_2; [reflexivity |].
      intros H. apply elem_of_cons in H as [H | H]; [congruence | tauto].
Qed.

Lemma mapSet_distinct (key : string) (v : KeyState) (m : KeyStates) :
  distinctKeys m -> distinctKeys (mapSet key v m).
Proof.
  unfold distinctKeys. intros Hm. rewrite mapSet_keys.
  destruct (bool_decide (key ∈ map fst m)) eqn:Hin; [exact Hm |].
  apply bool_decide_eq_false_1 in Hin.
  apply NoDup_app. split; [exact Hm |]. split; [| apply NoDup_singleton].
  intros k Hk Hk'. apply list_elem_of_singleton in Hk'. subst k. tauto.
Qed.

Lemma mapGet_None (key : string) (m : KeyStates) :
  mapGet key m = None <-> key ∉ map fst m.
Proof.
  induction m as [| [k v] m IH]; simpl.
  - split; [intros _ H; inversion H | reflexivity].
  - destruct (String.eqb k key) eqn:E.
    + apply String.eqb_eq in E. subst k.
      split; [discriminate | intros H; exfalso; apply H; left].
    + apply String.eqb_neq in E. rewrite IH. split.
      * intros Hn H. apply elem_of_cons in H as [H | H]; [congruence | tauto].
      * intros Hn H. apply Hn. right. exact H.
Qed.

Lemma mapDelete_spec (key : string) (m : KeyStates) :
  distinctKeys m ->
  mapGet key (mapDelete key m) = None
  /\ (forall k, k <> key -> mapGet k (mapDelete key m) = mapGet k m)
  /\ distinctKeys (mapDelete key m).
Proof.
  unfold distinctKeys.
  induction m as [| [k v] m IH]; intros Hm; simpl.
  - repeat split; [constructor].
  - apply NoDup_cons in Hm as [Hk Hm].
    destruct (IH Hm) as (Hgone & Hother & Hdistinct).
    destruct (String.eqb k key) eqn:E.
    + apply String.eqb_eq in E. subst k.
      split; [apply mapGet_None, Hk |]. split; [| exact Hm].
      intros k Hne. simpl.
      replace (String.eqb key k) with false; [reflexivity |].
      symmetry. apply String.eqb_neq. congruence.
    + simpl. rewrite E. split; [exact Hgone |]. split.
      * intros k0 Hne. destruct (String.eqb k k0); [reflexivity |].
        apply Hother, Hne.
      * apply NoDup_cons. split; [| exact Hdistinct].
        intros Hin. apply Hk.
        assert (forall m0, k ∈ map fst (mapDelete key m0) -> k ∈ map fst m0)
          as Hsub.
        { clear. induction m0 as [| [k1 v1] m0 IH]; simpl; [tauto |].
          destruct (String.eqb k1 key); simpl.
          - intros H. right. exact H.
          - intros H. apply elem_of_cons in H as [-> | H];
              [left | right; apply IH, H]. }
        apply Hsub, Hin.
Qed.

Lemma handleKeyAction_first
    (key : string) (state : KeyState) (m : KeyStates) (w : World) :
  mapGet key m = Some state -> now w < repeatTime state ->
  handleKeyAction key m w = pressed key w.
Proof.
  intros Hget Hfirst. unfold handleKeyAction, pressed, isFirstPress.
  rewrite Hget.
  replace (now w <? repeatTime state) with true
    by (symmetry; apply Z.ltb_lt; lia).
  reflexivity.
Qed.

Lemma handleKeyAction_other (key : string) (m : KeyStates) (w : World) :
  isGameKey key = false -> handleKeyAction key m w = w.
Proof.
  unfold isGameKey, handleKeyAction, oneOf. cbn [existsb].
  intros H. repeat (apply orb_false_iff in H; destruct H as [? H]).
  repeat match goal with
         | H : String.eqb _ _ = false |- _ => rewrite H; clear H
         end.
  reflexivity.
Qed.

(** X24. [update] repeats the held keys that are due, and only keys that
    repeat.  With the clock at [now], the entries that are due (pressed,
    and [now >= repeatTime]) are visited in the order the keys went down:
    a left, right or down key (or A, D, S) performs its move, any other
    key (rotate, hard drop, hold, pause, a key the game does not know)
    performs nothing; each due entry gets [repeatTime = now + 50], the
    others are left alone, and no key is added or removed.  If nothing is
    due, nothing changes. *)
Theorem X24_update_repeats_the_held_keys (m : KeyStates) (w : World) :
  distinctKeys m ->
  let dueKeys := map fst (List.filter (due (now w)) m) in
  update m w = (map (visit (now w)) m, run (omap repeatedAction dueKeys) w)
  /\ map fst (fst (update m w)) = map fst m
  /\ (dueKeys = [] -> update m w = (m, w)).
Proof.
  intros Hm dueKeys.
  assert (update m w =
            (map (visit (now w)) m, run (omap repeatedAction dueKeys) w))
    as Hupdate.
  { unfold update. rewrite updateLoop_spec; [reflexivity | reflexivity |].
    exact Hm. }
  split; [exact Hupdate |]. rewrite Hupdate. cbn [fst]. split.
  - rewrite map_map. apply map_ext. intros [k v]. unfold visit.
    destruct (due _ _); reflexivity.
  - intros Hnone. rewrite Hnone. simpl. f_equal.
    subst dueKeys. apply map_eq_nil in Hnone.
    clear Hupdate Hm. induction m as [| e m IH]; [reflexivity |].
    simpl in *. unfold visit at 1.
    destruct (due (now w) e); [discriminate |].
    rewrite IH by exact Hnone. reflexivity.
Qed.

(** X24 at work: left and up held past the delay; only left repeats. *)
Lemma X24_update_witness :
  let m := [(KeyCode.LEFT, mkKeyState true 0 170);
            (KeyCode.UP, mkKeyState true 0 170)] in
  snd (update m (atTime 200 startedWorld))
  = moveLeft (atTime 200 startedWorld).
Proof.
  intros m.
  destruct (X24_update_repeats_the_held_keys m (atTime 200 startedWorld))
    as (Hupdate & _).
  - unfold distinctKeys. apply (bool_decide_eq_true_1 _). vm_compute.
    reflexivity.
  - rewrite Hupdate. change (now (atTime 200 startedWorld)) with 200.
    generalize (atTime 200 startedWorld). intros w. reflexivity.
Defined.

(** X25. A key acts when it goes down, once.  If the key is not held, the
    handler records it with [repeatTime = now + 170] and performs the
    key's action, the one-shot actions (rotate, hard drop, hold, pause
    toggle) included; the other keys' entries are untouched.  If the key
    is held already (the keyboard's own repeat), nothing changes, so a
    second key-down in a row does nothing.  [preventDefault] is called
    exactly for the sixteen game keys, and a key that is not one of them
    never changes the world.  The keys of the map stay distinct and every
    entry stays pressed. *)
Theorem X25_keydown_acts_once (key : string) (m : KeyStates) (w : World) :
  distinctKeys m ->
  (forall k state, mapGet k m = Some state -> isPressed state = true) ->
  let prevented := fst (fst (handleKeyDown key m w)) in
  let m' := snd (fst (handleKeyDown key m w)) in
  let w' := snd (handleKeyDown key m w) in
  prevented = isGameKey key
  /\ (mapGet key m = None ->
      w' = pressed key w
      /\ mapGet key m' =
           Some (mkKeyState true (now w) (now w + DAS_DELAY))
      /\ (forall k, k <> key -> mapGet k m' = mapGet k m))
  /\ (mapGet key m <> None -> m' = m /\ w' = w)
  /\ (isGameKey key = false -> w' = w)
  /\ distinctKeys m'
  /\ (forall k state, mapGet k m' = Some state -> isPressed state = true)
  /\ (now w' = now w -> handleKeyDown key m' w' = (prevented, m', w')).
Proof.
  intros Hm Hheld prevented m' w'. subst prevented m' w'.
  unfold handleKeyDown. cbv zeta.
  destruct (mapGet key m) as [state |] eqn:Hget.
  - rewrite (Hheld key state Hget). cbn [negb fst snd].
    rewrite Hget, (Hheld key state Hget). cbn [negb].
    repeat split; try assumption; try discriminate; try reflexivity.
  - cbn [fst snd].
    pose proof (mapGet_mapSet_same key
                  (mkKeyState true (now w) (now w + DAS_DELAY)) m) as Hset.
    assert (handleKeyAction key
              (mapSet key (mkKeyState true (now w) (now w + DAS_DELAY)) m) w
            = pressed key w) as Hact.
    { apply (handleKeyAction_first key _ _ w Hset). simpl.
      unfold DAS_DELAY. lia. }
    rewrite Hact.
    split; [reflexivity |].
    split.
    { intros _. split; [reflexivity |]. split; [exact Hset |].
      intros k Hne. apply mapGet_mapSet_other, Hne. }
    split; [intros H; exfalso; apply H; reflexivity |].
    split.
    { intros Hother. rewrite <- Hact. apply handleKeyAction_other, Hother. }
    split; [apply mapSet_distinct, Hm |].
    split.
    { intros k state Hk. destruct (decide (k = key)) as [-> | Hne].
      - rewrite Hset in Hk. injection Hk as <-. reflexivity.
      - rewrite mapGet_mapSet_other in Hk by exact Hne.
        apply (Hheld k state Hk). }
    intros _. rewrite Hset. reflexivity.
Qed.

(** X25 at work: the space bar drops the first piece. *)
Lemma X25_keydown_witness :
  snd (handleKeyDown KeyCode.SPACE [] startedWorld) = hardDrop startedWorld.
Proof.
  destruct (X25_keydown_acts_once KeyCode.SPACE [] startedWorld)
    as (_ & Hfresh & _).
  - constructor.
  - intros k state Hk. discriminate Hk.
  - destruct (Hfresh eq_refl) as [Hw _]. rewrite Hw.
    generalize startedWorld. intros w. reflexivity.
Defined.

(** X26. Delayed auto shift, then auto repeat.  With no other key held, a
    key that went down at time [t0] does not repeat while the clock is
    before [t0 + 170]; at the first [update] at or after it, a moving key
    performs its move once more (another key performs nothing) and the
    next repeat is due 50 ms after that [update], not before; and once the
    key is up, [update] does nothing.  In any map, a key that goes up is
    forgotten and the other keys' entries are untouched. *)
Theorem X26_delayed_auto_shift (key : string) (w : World) (t : Z) :
  let m1 := snd (fst (handleKeyDown key [] w)) in
  let w1 := snd (handleKeyDown key [] w) in
  let again (w0 : World) :=
    match repeatedAction key with
    | Some a => perform a w0
    | None => w0
    end in
  m1 = [(key, mkKeyState true (now w) (now w + DAS_DELAY))]
  /\ (t < now w + DAS_DELAY -> update m1 (atTime t w1) = (m1, atTime t w1))
  /\ (now w + DAS_DELAY <= t ->
      let m2 := [(key, mkKeyState true (now w) (t + ARR_INTERVAL))] in
      update m1 (atTime t w1) = (m2, again (atTime t w1))
      /\ (forall w2, now w2 < t + ARR_INTERVAL -> update m2 w2 = (m2, w2))
      /\ (forall w2, t + ARR_INTERVAL <= now w2 ->
                     snd (update m2 w2) = again w2))
  /\ (forall w2, update (handleKeyUp key m1) w2 = ([], w2))
  /\ (forall m : KeyStates,
         distinctKeys m ->
         mapGet key (handleKeyUp key m) = None
         /\ (forall k, k <> key -> mapGet k (handleKeyUp key m) = mapGet k m)
         /\ distinctKeys (handleKeyUp key m)).
Proof.
  intros m1 w1 again.
  assert (m1 = [(key, mkKeyState true (now w) (now w + DAS_DELAY))]) as Hm1
    by reflexivity.
  assert (forall (lp rt : Z) (w0 : World),
             update [(key, mkKeyState true lp rt)] w0 =
               if now w0 >=? rt
               then ([(key, mkKeyState true lp (now w0 + ARR_INTERVAL))],
                     again w0)
               else ([(key, mkKeyState true lp rt)], w0)) as Hone.
  { intros lp rt w0. unfold update. cbn [updateLoop isPressed negb repeatTime].
    destruct (now w0 >=? rt) eqn:Hge; [| reflexivity].
    cbn [app lastPressTime].
    rewrite (handleKeyAction_repeat key (mkKeyState true lp rt)).
    - reflexivity.
    - apply mapGet_head.
    - apply Z.geb_le in Hge. simpl. lia. }
  split; [exact Hm1 |]. rewrite Hm1. split; [| split; [| split]].
  4: { intros m Hm. apply mapDelete_spec, Hm. }
  - intros Hearly. rewrite Hone. cbn [now atTime].
    replace (t >=? now w + DAS_DELAY) with false; [reflexivity |].
    symmetry. rewrite Z.geb_leb. apply Z.leb_gt. lia.
  - intros Hlate. cbv zeta. split; [| split].
    + rewrite Hone. cbn [now atTime].
      replace (t >=? now w + DAS_DELAY) with true; [reflexivity |].
      symmetry. apply Z.geb_le. lia.
    + intros w2 Hearly. rewrite Hone.
      replace (now w2 >=? t + ARR_INTERVAL) with false; [reflexivity |].
      symmetry. rewrite Z.geb_leb. apply Z.leb_gt. lia.
    + intros w2 Hdue. rewrite Hone.
      replace (now w2 >=? t + ARR_INTERVAL) with true; [reflexivity |].
      symmetry. apply Z.geb_le. lia.
  - intros w2. unfold handleKeyUp. simpl. rewrite String.eqb_refl.
    reflexivity.
Qed.

(** X26 at work: the left key, 200 ms after it went down. *)
Lemma X26_delayed_auto_shift_witness :
  let w := atTime 0 startedWorld in
  let w1 := snd (handleKeyDown KeyCode.LEFT [] w) in
  update (snd (fst (handleKeyDown KeyCode.LEFT [] w))) (atTime 200 w1)
  = ([(KeyCode.LEFT, mkKeyState true 0 250)], moveLeft (atTime 200 w1)).
Proof.
  intros w w1.
  destruct (X26_delayed_auto_shift KeyCode.LEFT w 200)
    as (_ & _ & Hlate & _ & _).
  destruct Hlate as (Hupdate & _).
  - change (now w) with 0. unfold DAS_DELAY. lia.
  - fold w1 in Hupdate. rewrite Hupdate. change (now w) with 0.
    generalize (atTime 200 w1). intros w2. reflexivity.
Defined.

(* ================================================================== *)
(** * Matrix utilities *)
(* ================================================================== *)

Lemma cellAt_lookup (matrix : Matrix) (cells : list Cell) (row col : nat) :
  matrix !! row = Some cells -> cellAt matrix row col = default None (cells !! col).
Proof. unfold cellAt. intros ->. reflexivity. Qed.

Lemma rotateMatrix_cell (rows cols : nat) (matrix rotated : Matrix) :
  rectangular rows cols matrix ->
  rotateMatrix matrix = Some rotated ->
  rectangular cols rows rotated
  /\ forall r c : nat,
       (r < cols)%nat -> (c < rows)%nat ->
       cellAt rotated r c = cellAt matrix (rows - 1 - c) r.
Proof.
  intros [Hrows Hcols]. unfold rotateMatrix.
  destruct matrix as [| first rest] eqn:Hm; [discriminate |].
  rewrite <- Hm in *. intros H. injection H as <-.
  assert (length first = cols) as Hfirst.
  { rewrite Hm in Hcols. apply Forall_cons in Hcols as [H _]. exact H. }
  rewrite Hfirst, Hrows. split.
  - split; [rewrite length_fmap, length_seq; reflexivity |].
    apply Forall_forall. intros cells Hin.
    apply list_elem_of_fmap in Hin as (c & -> & _).
    rewrite length_fmap, length_reverse, length_seq. reflexivity.
  - intros r c Hr Hc. unfold cellAt at 1.
    rewrite list_lookup_fmap, lookup_seq_lt by exact Hr. simpl.
    rewrite list_lookup_fmap, reverse_lookup
      by (rewrite length_seq; exact Hc).
    rewrite length_seq, lookup_seq_lt by lia. simpl.
    f_equal. lia.
Qed.

Lemma rotateMatrixCCW_cell (rows cols : nat) (matrix rotated : Matrix) :
  rectangular rows cols matrix ->
  rotateMatrixCCW matrix = Some rotated ->
  rectangular cols rows rotated
  /\ forall r c : nat,
       (r < cols)%nat -> (c < rows)%nat ->
       cellAt rotated r c = cellAt matrix c (cols - 1 - r).
Proof.
  intros [Hrows Hcols]. unfold rotateMatrixCCW.
  destruct matrix as [| first rest] eqn:Hm; [discriminate |].
  rewrite <- Hm in *. intros H. injection H as <-.
  assert (length first = cols) as Hfirst.
  { rewrite Hm in Hcols. apply Forall_cons in Hcols as [H _]. exact H. }
  rewrite Hfirst, Hrows. split.
  - split; [rewrite length_fmap, length_reverse, length_seq; reflexivity |].
    apply Forall_forall. intros cells Hin.
    apply list_elem_of_fmap in Hin as (c & -> & _).
    rewrite length_fmap, length_seq. reflexivity.
  - intros r c Hr Hc. unfold cellAt at 1.
    rewrite list_lookup_fmap, reverse_lookup
      by (rewrite length_seq; exact Hr).
    rewrite length_seq, lookup_seq_lt by lia. simpl.
    rewrite list_lookup_fmap, lookup_seq_lt by exact Hc. simpl.
    f_equal. lia.
Qed.

(** Two matrices of one size with the same cells are equal. *)
Lemma matrix_ext (rows cols : nat) (m1 m2 : Matrix) :
  rectangular rows cols m1 -> rectangular rows cols m2 ->
  (forall r c : nat, (r < rows)%nat -> (c < cols)%nat ->
                     cellAt m1 r c = cellAt m2 r c) ->
  m1 = m2.
Proof.
  intros [Hr1 Hc1] [Hr2 Hc2] Hcells.
  apply list_eq_same_length with rows; try assumption.
  intros r cells1 cells2 Hr Hl1 Hl2.
  assert (length cells1 = cols) as Hlen1
    by (rewrite Forall_lookup in Hc1; apply (Hc1 _ _ Hl1)).
  assert (length cells2 = cols) as Hlen2
    by (rewrite Forall_lookup in Hc2; apply (Hc2 _ _ Hl2)).
  apply list_eq_same_length with cols; try assumption.
  intros c x1 x2 Hc Hx1 Hx2.
  specialize (Hcells r c Hr Hc).
  rewrite (cellAt_lookup _ _ _ _ Hl1), (cellAt_lookup _ _ _ _ Hl2) in Hcells.
  rewrite Hx1, Hx2 in Hcells. exact Hcells.
Qed.

Lemma rotateMatrix_defined (rows cols : nat) (matrix : Matrix) :
  rectangular (S rows) cols matrix ->
  exists rotated, rotateMatrix matrix = Some rotated.
Proof.
  intros [Hrows _]. destruct matrix; [discriminate |].
  eexists. reflexivity.
Qed.

Lemma rotateMatrixCCW_defined (rows cols : nat) (matrix : Matrix) :
  rectangular (S rows) cols matrix ->
  exists rotated, rotateMatrixCCW matrix = Some rotated.
Proof.
  intros [Hrows _]. destruct matrix; [discriminate |].
  eexists. reflexivity.
Qed.

Lemma rotations_undo_each_other (rows cols : nat) (matrix : Matrix) :
  (0 < rows)%nat -> (0 < cols)%nat -> rectangular rows cols matrix ->
  exists cw ccw : Matrix,
    rotateMatrix matrix = Some cw
    /\ rotateMatrixCCW matrix = Some ccw
    /\ rectangular cols rows cw /\ rectangular cols rows ccw
    /\ (forall r c : nat, (r < cols)%nat -> (c < rows)%nat ->
          cellAt cw r c = cellAt matrix (rows - 1 - c) r
          /\ cellAt ccw r c = cellAt matrix c (cols - 1 - r))
    /\ rotateMatrixCCW cw = Some matrix
    /\ rotateMatrix ccw = Some matrix.
Proof.
  intros Hrows Hcols Hrect.
  destruct rows as [| rows']; [lia |]. destruct cols as [| cols']; [lia |].
  destruct (rotateMatrix_defined _ _ _ Hrect) as [cw Hcw].
  destruct (rotateMatrixCCW_defined _ _ _ Hrect) as [ccw Hccw].
  destruct (rotateMatrix_cell _ _ _ _ Hrect Hcw) as [Hrcw Hcellcw].
  destruct (rotateMatrixCCW_cell _ _ _ _ Hrect Hccw) as [Hrccw Hcellccw].
  exists cw, ccw.
  split; [exact Hcw |]. split; [exact Hccw |].
  split; [exact Hrcw |]. split; [exact Hrccw |].
  split; [intros r c Hr Hc; split; [apply Hcellcw | apply Hcellccw];
          assumption |].
  split.
  - destruct (rotateMatrixCCW_defined _ _ _ Hrcw) as [back Hback].
    destruct (rotateMatrixCCW_cell _ _ _ _ Hrcw Hback) as [Hrb Hcellb].
    rewrite Hback. f_equal.
    apply (matrix_ext (S rows') (S cols')); try assumption.
    intros r c Hr Hc. rewrite Hcellb, Hcellcw by lia. f_equal. lia.
  - destruct (rotateMatrix_defined _ _ _ Hrccw) as [back Hback].
    destruct (rotateMatrix_cell _ _ _ _ Hrccw Hback) as [Hrb Hcellb].
    rewrite Hback. f_equal.
    apply (matrix_ext (S rows') (S cols')); try assumption.
    intros r c Hr Hc. rewrite Hcellb, Hcellccw by lia. f_equal. lia.
Qed.

(** X27. The two rotations undo each other.  On a matrix of [rows] rows
    of [cols] cells, with at least one row and one column, [rotateMatrix]
    and [rotateMatrixCCW] return matrices of [cols] rows of [rows] cells,
    cell [(r, c)] of the clockwise one being cell [(rows - 1 - c, r)] of
    the argument and cell [(r, c)] of the other one cell
    [(c, cols - 1 - r)]; rotating one way and then the other gives the
    matrix back.  On an empty matrix both throw; on rows of no cells both
    return the empty matrix (which cannot be rotated back).  [cloneMatrix]
    returns a matrix equal to its argument. *)
Theorem X27_matrix_rotations_undo_each_other
    (rows cols : nat) (matrix : Matrix) :
  rectangular rows cols matrix ->
  (rows = O -> rotateMatrix matrix = None /\ rotateMatrixCCW matrix = None)
  /\ ((0 < rows)%nat -> cols = O ->
      rotateMatrix matrix = Some [] /\ rotateMatrixCCW matrix = Some [])
  /\ ((0 < rows)%nat -> (0 < cols)%nat ->
      exists cw ccw : Matrix,
        rotateMatrix matrix = Some cw
        /\ rotateMatrixCCW matrix = Some ccw
        /\ rectangular cols rows cw /\ rectangular cols rows ccw
        /\ (forall r c : nat, (r < cols)%nat -> (c < rows)%nat ->
              cellAt cw r c = cellAt matrix (rows - 1 - c) r
              /\ cellAt ccw r c = cellAt matrix c (cols - 1 - r))
        /\ rotateMatrixCCW cw = Some matrix
        /\ rotateMatrix ccw = Some matrix)
  /\ cloneMatrix matrix = matrix.
Proof.
  intros Hrect. split; [| split; [| split]].
  - intros ->. destruct Hrect as [Hlen _].
    destruct matrix; [split; reflexivity | discriminate Hlen].
  - intros Hrows ->. destruct Hrect as [Hlen Hwidth].
    destruct matrix as [| first rest]; [simpl in Hlen; lia |].
    apply Forall_cons in Hwidth as [Hfirst _].
    unfold rotateMatrix, rotateMatrixCCW. rewrite Hfirst.
    split; reflexivity.
  - intros Hrows Hcols. apply rotations_undo_each_other; assumption.
  - unfold cloneMatrix. apply list_fmap_id.
Qed.

(** X27 at work on a 2 x 3 matrix. *)
Lemma X27_matrix_rotations_witness :
  let m := [[Some 1; Some 2; Some 3]; [Some 4; Some 5; Some 6]] in
  exists cw : Matrix,
    rotateMatrix m = Some cw /\ rotateMatrixCCW cw = Some m.
Proof.
  intros m.
  destruct (X27_matrix_rotations_undo_each_other 2 3 m) as (_ & _ & H & _).
  - split; [reflexivity | repeat constructor].
  - destruct H as (cw & ccw & Hcw & _ & _ & _ & _ & Hback & _); [lia | lia |].
    exists cw. split; assumption.
Defined.

Section BoundingBoxLoops.

Variable P : Z -> Z -> Prop.
Variable box0 : BoundingBox.

Lemma boxCols_spec (row : Z) (cells : list Cell) :
  forall (col : Z) (box : BoundingBox),
    (forall (j : nat) (x : Cell),
        cells !! j = Some x -> x <> Some 0 -> P row (col + Z.of_nat j)) ->
    tightOn P box0 box ->
    let box' := boxCols row col cells box in
    grownFrom box box'
    /\ tightOn P box0 box'
    /\ (forall (j : nat) (x : Cell),
           cells !! j = Some x -> x <> Some 0 ->
           inBox box' row (col + Z.of_nat j))
    /\ ((forall (j : nat) (x : Cell), cells !! j = Some x -> x = Some 0) ->
        box' = box).
Proof.
  induction cells as [| c cells' IH]; intros col box HP Htight; simpl.
  - split; [unfold grownFrom; lia |]. split; [exact Htight |].
    split; [| reflexivity]. intros j x Hj. discriminate Hj.
  - set (box1 := if bool_decide (c <> Some 0) then _ else box).
    assert (grownFrom box box1 /\ tightOn P box0 box1
            /\ (c <> Some 0 -> inBox box1 row col)) as (Hg1 & Ht1 & Hin1).
    { subst box1. destruct (bool_decide (c <> Some 0)) eqn:Hc.
      - apply bool_decide_eq_true_1 in Hc.
        assert (P row col) as Hcell.
        { specialize (HP O c eq_refl Hc). rewrite Z.add_0_r in HP.
          exact HP. }
        destruct Htight as (T1 & T2 & T3 & T4).
        unfold grownFrom, tightOn, inBox. simpl.
        repeat split; try lia.
        + destruct (Z.min_spec (minRow box) row) as [[_ ->] | [_ ->]];
            [exact T1 | right; exists col; exact Hcell].
        + destruct (Z.max_spec (maxRow box) row) as [[_ ->] | [_ ->]];
            [right; exists col; exact Hcell | exact T2].
        + destruct (Z.min_spec (minCol box) col) as [[_ ->] | [_ ->]];
            [exact T3 | right; exists row; exact Hcell].
        + destruct (Z.max_spec (maxCol box) col) as [[_ ->] | [_ ->]];
            [right; exists row; exact Hcell | exact T4].
      - apply bool_decide_eq_false_1 in Hc.
        split; [unfold grownFrom; lia |]. split; [exact Htight |].
        intros Hne. exfalso. apply Hc, Hne. }
    destruct (IH (col + 1) box1) as (Hg & Ht & Hin & Hsame).
    + intros j x Hj Hx.
      replace (col + 1 + Z.of_nat j) with (col + Z.of_nat (S j)) by lia.
      apply (HP (S j) x Hj Hx).
    + exact Ht1.
    + split; [| split; [exact Ht | split]].
      * unfold grownFrom in *. lia.
      * intros [| j] x Hj Hx; simpl in Hj.
        -- injection Hj as <-. rewrite Z.add_0_r.
           specialize (Hin1 Hx). unfold inBox, grownFrom in *. lia.
        -- replace (col + Z.of_nat (S j)) with (col + 1 + Z.of_nat j)
             by lia.
           apply (Hin j x Hj Hx).
      * intros Hzero. rewrite Hsame.
        -- subst box1. rewrite bool_decide_eq_false_2; [reflexivity |].
           intros Hne. apply Hne, (Hzero O c eq_refl).
        -- intros j x Hj. apply (Hzero (S j) x Hj).
Qed.

Lemma boxRows_spec (rows : Matrix) :
  forall (row : Z) (box : BoundingBox),
    (forall (i j : nat) (cells : list Cell) (x : Cell),
        rows !! i = Some cells -> cells !! j = Some x -> x <> Some 0 ->
        P (row + Z.of_nat i) (Z.of_nat j)) ->
    tightOn P box0 box ->
    let box' := boxRows row rows box in
    grownFrom box box'
    /\ tightOn P box0 box'
    /\ (forall (i j : nat) (cells : list Cell) (x : Cell),
           rows !! i = Some cells -> cells !! j = Some x -> x <> Some 0 ->
           inBox box' (row + Z.of_nat i) (Z.of_nat j))
    /\ ((forall (i j : nat) (cells : list Cell) (x : Cell),
            rows !! i = Some cells -> cells !! j = Some x -> x = Some 0) ->
        box' = box).
Proof.
  induction rows as [| cells rows' IH]; intros row box HP Htight; simpl.
  - split; [unfold grownFrom; lia |]. split; [exact Htight |].
    split; [| reflexivity]. intros i j cells x Hi. discriminate Hi.
  - destruct (boxCols_spec row cells 0 box) as (Hg1 & Ht1 & Hin1 & Hsame1).
    + intros j x Hj Hx. specialize (HP O j cells x eq_refl Hj Hx).
      rewrite Z.add_0_r in HP. exact HP.
    + exact Htight.
    + destruct (IH (row + 1) (boxCols row 0 cells box))
        as (Hg & Ht & Hin & Hsame).
      * intros i j cells0 x Hi Hj Hx.
        replace (row + 1 + Z.of_nat i) with (row + Z.of_nat (S i)) by lia.
        apply (HP (S i) j cells0 x Hi Hj Hx).
      * exact Ht1.
      * split; [| split; [exact Ht | split]].
        -- unfold grownFrom in *. lia.
        -- intros [| i] j cells0 x Hi Hj Hx; simpl in Hi.
           ++ injection Hi as <-. rewrite Z.add_0_r.
              specialize (Hin1 j x Hj Hx). simpl in Hin1.
              unfold inBox, grownFrom in *. lia.
           ++ replace (row + Z.of_nat (S i)) with (row + 1 + Z.of_nat i)
                by lia.
              apply (Hin i j cells0 x Hi Hj Hx).
        -- intros Hzero. rewrite Hsame.
           ++ apply Hsame1. intros j x Hj. apply (Hzero O j cells x eq_refl Hj).
           ++ intros i j cells0 x Hi Hj. apply (Hzero (S i) j cells0 x Hi Hj).
Qed.

End BoundingBoxLoops.

Lemma getBoundingBox_spec (rows cols : nat) (matrix : Matrix) :
  (0 < rows)%nat -> rectangular rows cols matrix ->
  exists box : BoundingBox,
    getBoundingBox matrix = Some box
    /\ (forall row col : nat,
           nonZeroAt matrix row col ->
           inBox box (Z.of_nat row) (Z.of_nat col))
    /\ ((exists row col, nonZeroAt matrix row col) ->
        (exists col, nonZeroAt matrix (Z.to_nat (minRow box)) col)
        /\ (exists col, nonZeroAt matrix (Z.to_nat (maxRow box)) col)
        /\ (exists row, nonZeroAt matrix row (Z.to_nat (minCol box)))
        /\ (exists row, nonZeroAt matrix row (Z.to_nat (maxCol box)))
        /\ 0 <= minRow box <= maxRow box /\ maxRow box < Z.of_nat rows
        /\ 0 <= minCol box <= maxCol box /\ maxCol box < Z.of_nat cols)
    /\ ((forall row col, ~ nonZeroAt matrix row col) ->
        box = mkBox (Z.of_nat rows) (-1) (Z.of_nat cols) (-1)).
Proof.
  intros Hrows [Hlen Hwidth].
  destruct matrix as [| first rest] eqn:Hm; [simpl in Hlen; lia |].
  assert (length first = cols) as Hfirst
    by (apply Forall_cons in Hwidth as [H _]; exact H).
  set (box0 := mkBox (Z.of_nat rows) (-1) (Z.of_nat cols) (-1)).
  assert (getBoundingBox (first :: rest)
          = Some (boxRows 0 (first :: rest) box0)) as Hbox.
  { unfold getBoundingBox. rewrite Hlen, Hfirst. reflexivity. }
  rewrite Hbox. clear Hbox. rewrite <- Hm in *. clear Hm first rest Hfirst.
  set (P := fun r c : Z =>
              0 <= r /\ 0 <= c
              /\ nonZeroAt matrix (Z.to_nat r) (Z.to_nat c)).
  destruct (boxRows_spec P box0 matrix 0 box0) as (Hg & Ht & Hin & Hsame).
  { intros i j cells x Hi Hj Hx. subst P. simpl.
    rewrite !Z.add_0_l, !Nat2Z.id. split; [lia |]. split; [lia |].
    exists cells, x. tauto. }
  { unfold tightOn. repeat split; left; reflexivity. }
  eexists. split; [reflexivity |].
  assert (forall row col : nat,
             nonZeroAt matrix row col ->
             inBox (boxRows 0 matrix box0) (Z.of_nat row) (Z.of_nat col)
             /\ (row < rows)%nat /\ (col < cols)%nat)
    as Hcover.
  { intros row col (cells & x & Hi & Hj & Hx).
    split; [apply (Hin row col cells x Hi Hj Hx) |].
    split.
    - rewrite <- Hlen. apply lookup_lt_Some in Hi. exact Hi.
    - rewrite Forall_lookup in Hwidth. rewrite <- (Hwidth _ _ Hi).
      apply lookup_lt_Some in Hj. exact Hj. }
  split; [intros row col Hcell; apply Hcover, Hcell |]. split.
  - intros (row & col & Hcell).
    destruct (Hcover row col Hcell) as ([Hr Hc] & Hrow & Hcol).
    destruct Ht as (T1 & T2 & T3 & T4). simpl in T1, T2, T3, T4.
    assert (exists c, P (minRow (boxRows 0 matrix box0)) c) as (c1 & H1)
      by (destruct T1 as [T1 | T1]; [lia | exact T1]).
    assert (exists c, P (maxRow (boxRows 0 matrix box0)) c) as (c2 & H2)
      by (destruct T2 as [T2 | T2]; [lia | exact T2]).
    assert (exists r, P r (minCol (boxRows 0 matrix box0))) as (r3 & H3)
      by (destruct T3 as [T3 | T3]; [lia | exact T3]).
    assert (exists r, P r (maxCol (boxRows 0 matrix box0))) as (r4 & H4)
      by (destruct T4 as [T4 | T4]; [lia | exact T4]).
    destruct H1 as (P1 & _ & N1). destruct H2 as (P2 & _ & N2).
    destruct H3 as (_ & P3 & N3). destruct H4 as (_ & P4 & N4).
    destruct (Hcover _ _ N2) as (_ & Hr2 & _).
    destruct (Hcover _ _ N4) as (_ & _ & Hc4).
    split; [eexists; exact N1 |]. split; [eexists; exact N2 |].
    split; [eexists; exact N3 |]. split; [eexists; exact N4 |].
    lia.
  - intros Hnone. apply Hsame.
    intros i j cells x Hi Hj.
    destruct (decide (x = Some 0)) as [-> | Hx]; [reflexivity |].
    exfalso. apply (Hnone i j). exists cells, x. tauto.
Qed.

Lemma createEmptyMatrix_zero (rows cols : nat) :
  rectangular rows cols (createEmptyMatrix rows cols)
  /\ forall row col, ~ nonZeroAt (createEmptyMatrix rows cols) row col.
Proof.
  unfold createEmptyMatrix. split.
  - split; [apply length_replicate |].
    apply Forall_replicate, length_replicate.
  - intros row col (cells & x & Hi & Hj & Hx).
    apply lookup_replicate in Hi as [-> _].
    apply lookup_replicate in Hj as [-> _]. apply Hx. reflexivity.
Qed.

(** X28. [getBoundingBox] is the tight box.  On a matrix of [rows] rows of
    [cols] cells, with at least one row, every cell that is not 0 lies in
    the box returned; if there is such a cell, each side of the box
    touches one and the box lies inside the matrix; if there is none, the
    box is the inverted one the loops start from, (rows, -1, cols, -1), as
    it is for [createEmptyMatrix(rows, cols)].  On an empty matrix the
    function throws. *)
Theorem X28_bounding_box_is_tight (rows cols : nat) (matrix : Matrix) :
  (0 < rows)%nat -> rectangular rows cols matrix ->
  (exists box : BoundingBox,
      getBoundingBox matrix = Some box
      /\ (forall row col : nat,
             nonZeroAt matrix row col ->
             inBox box (Z.of_nat row) (Z.of_nat col))
      /\ ((exists row col, nonZeroAt matrix row col) ->
          (exists col, nonZeroAt matrix (Z.to_nat (minRow box)) col)
          /\ (exists col, nonZeroAt matrix (Z.to_nat (maxRow box)) col)
          /\ (exists row, nonZeroAt matrix row (Z.to_nat (minCol box)))
          /\ (exists row, nonZeroAt matrix row (Z.to_nat (maxCol box)))
          /\ 0 <= minRow box <= maxRow box /\ maxRow box < Z.of_nat rows
          /\ 0 <= minCol box <= maxCol box /\ maxCol box < Z.of_nat cols)
      /\ ((forall row col, ~ nonZeroAt matrix row col) ->
          box = mkBox (Z.of_nat rows) (-1) (Z.of_nat cols) (-1)))
  /\ getBoundingBox (createEmptyMatrix rows cols)
     = Some (mkBox (Z.of_nat rows) (-1) (Z.of_nat cols) (-1))
  /\ getBoundingBox [] = None.
Proof.
  intros Hrows Hrect.
  split; [apply getBoundingBox_spec; assumption |].
  split; [| reflexivity].
  destruct (createEmptyMatrix_zero rows cols) as [Hempty Hzero].
  destruct (getBoundingBox_spec rows cols _ Hrows Hempty)
    as (box & -> & _ & _ & Hbox).
  rewrite (Hbox Hzero). reflexivity.
Qed.

(** X28 at work on the T shape. *)
Lemma X28_bounding_box_witness :
  let m := [[Some 0; Some 0; Some 0; Some 0]; [Some 0; Some 1; Some 0; Some 0];
            [Some 1; Some 1; Some 1; Some 0]; [Some 0; Some 0; Some 0; Some 0]]
  in
  exists box : BoundingBox,
    getBoundingBox m = Some box /\ inBox box 1 1.
Proof.
  intros m.
  destruct (X28_bounding_box_is_tight 4 4 m)
    as ((box & Hbox & Hcover & _) & _).
  - lia.
  - split; [reflexivity | repeat constructor].
  - exists box. split; [exact Hbox |].
    apply (Hcover 1%nat 1%nat). exists [Some 0; Some 1; Some 0; Some 0], (Some 1).
    repeat split. discriminate.
Defined.

(* ================================================================== *)
(** * Line clearing: more than one full row *)
(* ================================================================== *)

Lemma filter_seqZ_sorted (P : Z -> Prop) `{forall x, Decision (P x)}
    (n : nat) :
  forall m : Z, StronglySorted Z.lt (filter P (seqZ m (Z.of_nat n))).
Proof.
  induction n as [| n IH]; intros m.
  - constructor.
  - rewrite seqZ_cons by lia.
    replace (Z.pred (Z.of_nat (S n))) with (Z.of_nat n) by lia.
    specialize (IH (Z.succ m)).
    rewrite filter_cons. destruct (decide (P m)); [| exact IH].
    constructor; [exact IH |].
    apply Forall_forall. intros y Hy.
    apply list_elem_of_filter in Hy as [_ Hy].
    apply elem_of_seqZ in Hy. lia.
Qed.

(** With two full rows or more, the list of full rows ends in the two
    lowest ones. *)
Lemma linesToClear_lowest_two (b : Board) :
  (2 <= length (linesToClear b))%nat ->
  exists (above : list Z) (y1 y2 : Z),
    linesToClear b = above ++ [y1; y2]
    /\ y1 < y2 /\ (forall y, y ∈ above -> y < y1).
Proof.
  intros Htwo.
  assert (StronglySorted Z.lt (linesToClear b)) as Hsorted.
  { unfold linesToClear.
    destruct (Z_le_gt_dec 0 (height b)) as [Hh | Hh].
    - rewrite <- (Z2Nat.id (height b)) by exact Hh.
      apply filter_seqZ_sorted.
    - replace (seqZ 0 (height b)) with (@nil Z); [constructor |].
      unfold seqZ. replace (Z.to_nat (height b)) with O by lia.
      reflexivity. }
  destruct (linesToClear b) as [| y2 rest _] using rev_ind;
    [simpl in Htwo; lia |].
  destruct rest as [| y1 above _] using rev_ind;
    [simpl in Htwo; lia |].
  exists above, y1, y2. rewrite <- app_assoc. split; [reflexivity |].
  split.
  - apply (StronglySorted_app_1_elem_of _ _ _ _ _ Hsorted);
      [apply elem_of_app; right; left | left].
  - intros y Hy. rewrite <- app_assoc in Hsorted.
    apply (StronglySorted_app_1_elem_of _ _ _ _ _ Hsorted);
      [exact Hy | left].
Qed.

(** X29. A clear of two lines or more leaves a full row behind.  On a
    well-formed board with at least two full rows, let [y2] be the lowest
    full row and [y1] the lowest one above it.  After [clearLines] the row
    [y1 + 1] holds what row [y1] held, so it is full: the second pass
    removes the row at index [y1], where the first pass has put the row
    that was above [y1].  The count returned is at least 2, and a further
    [clearLines] finds a row to clear. *)
Theorem X29_multi_line_clear_leaves_a_full_row (b : Board) :
  wellFormedBoard b ->
  (2 <= length (linesToClear b))%nat ->
  exists y1 y2 : Z,
    0 <= y1 < y2 /\ y2 < height b
    /\ isFilled b y1 = true /\ isFilled b y2 = true
    /\ (forall y, isFilled b y = true -> 0 <= y < height b ->
                  y = y2 \/ y <= y1)
    /\ boardRow (fst (clearLines b)) (y1 + 1) = boardRow b y1
    /\ isFilled (fst (clearLines b)) (y1 + 1) = true
    /\ linesToClear (fst (clearLines b)) <> []
    /\ 2 <= snd (clearLines b).
Proof.
  intros Hwf Htwo.
  destruct (linesToClear_lowest_two b Htwo)
    as (above & y1 & y2 & Hlines & Hlt & Habove).
  assert (forall y, y ∈ linesToClear b <-> y ∈ above \/ y = y1 \/ y = y2)
    as Hin.
  { intros y. rewrite Hlines. rewrite elem_of_app, !elem_of_cons.
    rewrite elem_of_nil. tauto. }
  assert (0 <= y1 < height b /\ isFilled b y1 = true) as [Hy1 Hf1]
    by (apply linesToClear_spec, Hin; tauto).
  assert (0 <= y2 < height b /\ isFilled b y2 = true) as [Hy2 Hf2]
    by (apply linesToClear_spec, Hin; tauto).
  assert (forall cx : Z,
             getCell (fst (clearLines b)) cx (y1 + 1) = getCell b cx y1)
    as Hcell.
  { intros cx. unfold clearLines. cbn [fst]. rewrite Hlines.
    rewrite reverse_app. simpl reverse.
    change (reverse [y1; y2]) with [y2; y1]. simpl app.
    change (foldl clearLine b (y2 :: y1 :: reverse above))
      with (foldl clearLine (clearLine (clearLine b y2) y1) (reverse above)).
    rewrite clearLines_rest_below.
    - rewrite clearLine_below by lia.
      rewrite clearLine_spec by (try assumption; lia).
      replace (y1 + 1 =? 0) with false by (symmetry; apply Z.eqb_neq; lia).
      replace ((1 <=? y1 + 1) && (y1 + 1 <=? y2)) with true.
      + f_equal. lia.
      + symmetry. apply andb_true_iff. split; apply Z.leb_le; lia.
    - intros l Hl. rewrite elem_of_reverse in Hl.
      specialize (Habove l Hl). lia.
    - lia. }
  destruct (clearLines_dims b) as [Hw' Hh'].
  assert (isFilled (fst (clearLines b)) (y1 + 1) = true) as Hfull.
  { rewrite <- Hf1. apply isFilled_ext; [exact Hw' | exact Hcell]. }
  exists y1, y2.
  split; [lia |]. split; [lia |]. split; [exact Hf1 |]. split; [exact Hf2 |].
  split.
  { intros y Hf Hy.
    assert (y ∈ linesToClear b) as Hyin by (apply linesToClear_spec; tauto).
    apply Hin in Hyin as [Hyin | [-> | ->]]; [| right; lia | left; reflexivity].
    right. specialize (Habove y Hyin). lia. }
  split.
  { unfold boardRow. rewrite Hw'. apply map_ext. intros cx. apply Hcell. }
  split; [exact Hfull |]. split.
  - intros Hnil.
    assert (y1 + 1 ∈ linesToClear (fst (clearLines b))) as Hyin.
    { apply linesToClear_spec. rewrite Hh'. split; [lia | exact Hfull]. }
    rewrite Hnil in Hyin. inversion Hyin.
  - unfold clearLines. cbn [snd]. lia.
Qed.

(** X29 at work on [twoFullRows]. *)
Lemma X29_multi_line_clear_witness :
  linesToClear (fst (clearLines twoFullRows)) <> [].
Proof.
  destruct (X29_multi_line_clear_leaves_a_full_row twoFullRows)
    as (y1 & y2 & _ & _ & _ & _ & _ & _ & _ & Hleft & _).
  - apply checkWellFormed_sound. vm_compute. reflexivity.
  - vm_compute. lia.
  - exact Hleft.
Defined.

(* ================================================================== *)
(** * Scoring: past the end of the table *)
(* ================================================================== *)

Lemma calculateLineScore_NaN (k level : Z) :
  calculateLineScore k level = NaN <-> k < 0 \/ 4 < k.
Proof.
  unfold calculateLineScore, SCORE_VALUES.
  repeat match goal with
         | |- context [?a =? ?b] =>
             destruct (Z.eqb_spec a b)
         end; split; intros H; try discriminate; try reflexivity; lia.
Qed.

Lemma tryWallKicks_score
    (state : GameState) (piece : Piece) (direction : RotationDirection)
    (offsets : list (Z * Z)) (w : World) :
  score (getState (tryWallKicks state piece direction offsets w))
  = score (getState w).
Proof.
  induction offsets as [| [ox oy] offsets' IH]; simpl; [reflexivity |].
  destruct (isValidPosition _ _ _ _); [reflexivity | exact IH].
Qed.

Lemma lockPiece_keeps_NaN (w : World) :
  score (getState w) = NaN -> score (getState (lockPiece w)) = NaN.
Proof.
  intros Hnan.
  destruct (currentPiece (getState w)) as [piece |] eqn:Hcur.
  - destruct (lockPiece_score w piece Hcur) as [-> _].
    rewrite Hnan. destruct (_ >? 0); reflexivity.
  - unfold lockPiece. rewrite Hcur. exact Hnan.
Qed.

(** Once the score is [NaN], only a new game changes it. *)
Lemma perform_keeps_NaN (a : Action) (w : World) :
  a <> StartGame -> score (getState w) = NaN ->
  score (getState (perform a w)) = NaN.
Proof.
  intros Hnot Hnan. destruct a; simpl; try congruence.
  - unfold pause. destruct (bool_decide _); exact Hnan.
  - unfold resume. destruct (bool_decide _); exact Hnan.
  - unfold moveLeft. repeat break_branch; exact Hnan.
  - unfold moveRight. repeat break_branch; exact Hnan.
  - destruct (moveDown_cases w)
      as [[_ Hm] | [(p & _ & _ & _ & Hm) | (p & _ & _ & _ & Hm)]];
      rewrite Hm; simpl; [exact Hnan | exact Hnan |].
    apply lockPiece_keeps_NaN, Hnan.
  - destruct (softDrop_cases w)
      as [[_ Hm] | [(p & _ & _ & _ & Hm) | (p & _ & _ & _ & Hm)]];
      rewrite Hm; [exact Hnan | | apply lockPiece_keeps_NaN, Hnan].
    simpl. unfold getState in *. rewrite Hnan. reflexivity.
  - unfold hardDrop. destruct (negb _); [exact Hnan |].
    destruct (currentPiece (getState w)) as [piece |]; [| exact Hnan].
    apply lockPiece_keeps_NaN. destruct (_ >? 0); [| exact Hnan].
    simpl. unfold getState in *. rewrite Hnan. reflexivity.
  - unfold rotate. repeat break_branch; try exact Hnan.
    rewrite tryWallKicks_score. exact Hnan.
  - unfold hold. repeat break_branch; try exact Hnan.
    match goal with
    | H : drawNext w = _ |- _ => apply drawNext_frame in H as (Hs & _)
    end.
    simpl. unfold getState in *. rewrite Hs. exact Hnan.
Qed.

Lemma run_keeps_NaN (actions : list Action) :
  forall w : World,
    ~ In StartGame actions -> score (getState w) = NaN ->
    score (getState (run actions w)) = NaN.
Proof.
  induction actions as [| a actions' IH]; intros w Hnot Hnan; simpl;
    [exact Hnan |].
  apply IH.
  - intros Hin. apply Hnot. right. exact Hin.
  - apply perform_keeps_NaN; [| exact Hnan].
    intros ->. apply Hnot. left. reflexivity.
Qed.

(** X30. The score table ends at four lines.  [SCORE_VALUES] has the keys
    0 to 4; for a count above 4 the line score is [undefined * level],
    that is [NaN].  A lock that clears more than four rows makes the score
    [NaN] and adds the count to the line total; from then on the score
    stays [NaN] whatever is played, until a new game. *)
Theorem X30_score_table_ends_at_four_lines
    (w : World) (piece : Piece) (k : Z) (actions : list Action) :
  currentPiece (getState w) = Some piece ->
  snd (clearLines (placePiece (board (getState w)) piece
                              (currentX (getState w))
                              (currentY (getState w)))) = k ->
  4 < k ->
  ~ In StartGame actions ->
  calculateLineScore k (level (getState w)) = NaN
  /\ score (getState (lockPiece w)) = NaN
  /\ lines (getState (lockPiece w)) = lines (getState w) + k
  /\ score (getState (run actions (lockPiece w))) = NaN.
Proof.
  intros Hcur Hk Hmany Hnot.
  assert (calculateLineScore k (level (getState w)) = NaN) as Hnan
    by (apply calculateLineScore_NaN; lia).
  destruct (lockPiece_score w piece Hcur) as [Hscore Hlines].
  cbv zeta in Hscore, Hlines. rewrite Hk in Hscore, Hlines.
  replace (k >? 0) with true in Hscore by (symmetry; apply Z.gtb_lt; lia).
  rewrite Hnan in Hscore.
  assert (score (getState (lockPiece w)) = NaN) as Hlocked.
  { rewrite Hscore. destruct (score (getState w)); reflexivity. }
  split; [exact Hnan |]. split; [exact Hlocked |]. split; [exact Hlines |].
  apply run_keeps_NaN; assumption.
Qed.

(** X30 at work: an upright I piece closes four rows over a full one. *)
Lemma X30_score_table_witness :
  score (getState (run [MoveLeft; HardDrop] (lockPiece fiveLineWorld))) = NaN.
Proof.
  destruct (X30_score_table_ends_at_four_lines fiveLineWorld
              (mkPiece PieceType.I 1) 5 [MoveLeft; HardDrop])
    as (_ & _ & _ & H).
  - reflexivity.
  - vm_compute. reflexivity.
  - lia.
  - simpl. intuition discriminate.
  - exact H.
Defined.
